(** * Night-light raster pipeline of [sudan_damage_vis.py]

    A shallow embedding of the data-transformation core of the script:
    [load_data_for_date], [chunk_data] / [block_average], [normalize_data]
    and [get_difference_data], together with the properties the
    specification states about them.

    Modelling conventions.
    - A brightness sample is a floating-point number.  It is modelled by
      [sample]: an exact rational, one of the two infinities, or the
      not-a-number marker.  The special values follow IEEE 754 (NaN is
      absorbing, [inf - inf] and [0/0] are NaN, [x/0] is infinite);
      rounding, overflow and the sign of zero are abstracted away.
      Statements that hold of the rationals only and not of the rounded
      values (a sum of quotients that equals one, say) are left out.
    - A numpy 2-D array is a [matrix]: its rows and its column count, so
      that its shape is explicit.
    - Python exceptions are values of [exn]; a function that can raise
      returns a [result].
    - [chunk_data] mutates its list argument in place; the model passes
      the list explicitly and returns the mutated list. *)

From Stdlib Require Import QArith Qcanon Lia Field.
From stdpp Require Import base numbers list strings sorting gmap.

(** ** Samples: floating-point values with NaN and infinities *)

Inductive sample : Type :=
  | NaN : sample
  | Inf (negative : bool) : sample
  | Num (q : Qc) : sample.

Module Sample.

Local Open Scope Qc_scope.

Definition Qc_ltb (p q : Qc) : bool :=
  match p ?= q with Lt => true | _ => false end.

Definition Qc_leb (p q : Qc) : bool :=
  match p ?= q with Gt => false | _ => true end.

Definition Qc_eqb (p q : Qc) : bool :=
  match p ?= q with Eq => true | _ => false end.

Definition zero : sample := Num 0.

Definition add (x y : sample) : sample :=
  match x, y with
  | NaN, _ | _, NaN => NaN
  | Inf a, Inf b => if Bool.eqb a b then Inf a else NaN
  | Inf a, Num _ | Num _, Inf a => Inf a
  | Num p, Num q => Num (p + q)
  end.

Definition opp (x : sample) : sample :=
  match x with
  | NaN => NaN
  | Inf a => Inf (negb a)
  | Num q => Num (- q)
  end.

Definition sub (x y : sample) : sample := add x (opp y).

Definition div (x y : sample) : sample :=
  match x, y with
  | NaN, _ | _, NaN => NaN
  | Inf _, Inf _ => NaN
  | Inf a, Num q => Inf (xorb a (Qc_ltb q 0))
  | Num _, Inf _ => Num 0
  | Num p, Num q =>
      if Qc_eqb q 0
      then (if Qc_eqb p 0 then NaN else Inf (Qc_ltb p 0))
      else Num (p / q)
  end.

(** Comparisons return [False] whenever NaN is involved. *)
Definition ltb (x y : sample) : bool :=
  match x, y with
  | NaN, _ | _, NaN => false
  | Inf a, Inf b => a && negb b
  | Inf a, Num _ => a
  | Num _, Inf b => negb b
  | Num p, Num q => Qc_ltb p q
  end.

Definition eqb (x y : sample) : bool :=
  match x, y with
  | NaN, _ | _, NaN => false
  | Inf a, Inf b => Bool.eqb a b
  | Num p, Num q => Qc_eqb p q
  | _, _ => false
  end.

Definition leb (x y : sample) : bool := ltb x y || eqb x y.

Definition is_nan (x : sample) : bool :=
  match x with NaN => true | _ => false end.

Definition is_num (x : sample) : bool :=
  match x with Num _ => true | _ => false end.

(** [np.sum] over a flat sequence of samples. *)
Definition sum (l : list sample) : sample := foldr add zero l.

Definition of_nat (n : nat) : sample := Num (Qc_of_Z (Z.of_nat n)).

(** [np.mean]: the sum divided by the number of entries. *)
Definition mean (l : list sample) : sample := div (sum l) (of_nat (length l)).

(** The sum of the entries that are numbers. *)
Definition num_sum (l : list sample) : Qc :=
  foldr (λ v acc, match v with Num q => q + acc | _ => acc end) 0 l.

End Sample.

(** ** Exceptions *)

Inductive exn : Type := ValueError | ZeroDivisionError | IndexError.

Inductive result (A : Type) : Type :=
  | Ok (a : A) : result A
  | Raise (e : exn) : result A.
Arguments Ok {A} a.
Arguments Raise {A} e.

#[global] Instance result_bind : MBind result :=
  λ A B f r, match r with Ok a => f a | Raise e => Raise e end.

#[global] Instance exn_eq_dec : EqDecision exn.
Proof. solve_decision. Defined.

(** ** Arrays *)

(** Python's [l[a:b]] for non-negative [a] and [b]. *)
Definition slice {A} (a b : nat) (l : list A) : list A := take (b - a) (drop a l).

(** Python's [l[::n]] for a positive step [n]: the entries at the indices
    [0], [n], [2n], ...  The counter [k] is the number of entries still to
    skip before the next one is kept. *)
Fixpoint every {A} (n k : nat) (l : list A) : list A :=
  match l with
  | [] => []
  | x :: l' =>
      match k with
      | 0 => x :: every n (n - 1) l'
      | S k' => every n k' l'
      end
  end.

Definition stride {A} (n : nat) (l : list A) : list A := every n 0 l.

(** [np.where(cond)[0]] on a 1-D array: the indices at which the condition
    holds, ascending. *)
Fixpoint where_from {A} (p : A → bool) (i : nat) (l : list A) : list nat :=
  match l with
  | [] => []
  | x :: l' => if p x then i :: where_from p (S i) l' else where_from p (S i) l'
  end.

Definition np_where {A} (p : A → bool) (l : list A) : list nat := where_from p 0 l.

(** [np.min] and [np.max] of a non-empty index array. *)
Definition np_min (l : list nat) : nat := foldr Nat.min (default 0 (head l)) l.
Definition np_max (l : list nat) : nat := foldr Nat.max 0 l.

(** A 2-D array: its rows, and the column count (which the rows alone do
    not determine when there are none). *)
Record matrix : Type := mkMatrix { rows : list (list sample); ncols : nat }.

Definition nrows (m : matrix) : nat := length (rows m).
Definition shape (m : matrix) : nat * nat := (nrows m, ncols m).

(** Every row has [ncols] entries. *)
Definition wf_matrix (m : matrix) : Prop := Forall (λ r, length r = ncols m) (rows m).

(** [m[r, c]] *)
Definition cell (m : matrix) (r c : nat) : option sample :=
  row ← rows m !! r; row !! c.

(** All entries in row-major order ([m.ravel()]). *)
Definition flat (m : matrix) : list sample := concat (rows m).

(** [m[r0:r1, c0:c1]] *)
Definition slice2 (r0 r1 c0 c1 : nat) (m : matrix) : matrix :=
  {| rows := slice c0 c1 <$> slice r0 r1 (rows m);
     ncols := Nat.min c1 (ncols m) - c0 |}.

(** Applying a scalar function to every entry. *)
Definition mmap (f : sample → sample) (m : matrix) : matrix :=
  {| rows := (λ row : list sample, f <$> row) <$> rows m; ncols := ncols m |}.

(** [np.sum(m)] *)
Definition msum (m : matrix) : sample := Sample.sum (flat m).

(** *** Broadcasting binary operations *)

Definition broadcast_dim (a b : nat) : result nat :=
  if a =? b then Ok a
  else if a =? 1 then Ok b
  else if b =? 1 then Ok a
  else Raise ValueError.

Definition stretch {A} (n : nat) (l : list A) : list A :=
  match l with
  | [x] => replicate n x
  | _ => l
  end.

Definition broadcast_to (r c : nat) (m : matrix) : matrix :=
  {| rows := stretch r (stretch c <$> rows m); ncols := c |}.

(** [f(a, b)] for a numpy binary operator [f] on two 2-D arrays. *)
Definition elementwise (f : sample → sample → sample) (a b : matrix) : result matrix :=
  r ← broadcast_dim (nrows a) (nrows b);
  c ← broadcast_dim (ncols a) (ncols b);
  Ok {| rows := zip_with (zip_with f) (rows (broadcast_to r c a)) (rows (broadcast_to r c b));
        ncols := c |}.

(** *** Reshaping *)

(** [flat.reshape(k, n)]: [k] consecutive groups of [n] entries. *)
Definition chunks {A} (k n : nat) (l : list A) : list (list A) :=
  reshape (replicate k n) l.

(** [m.reshape(a, n, b, n)] as nested sequences indexed [[a][i][b][j]]. *)
Definition reshape4 (a n b : nat) (m : matrix) : list (list (list (list sample))) :=
  chunks a n (chunks (a * n) b (chunks (a * n * b) n (flat m))).

(** [x.mean(axis=(1,3))] on an array of shape [(a, n, b, n)]: entry
    [[a][b]] is the mean over [i] and [j] of [x[a][i][b][j]]. *)
Definition mean13 (b : nat) (x : list (list (list (list sample)))) : list (list sample) :=
  (λ xa, (λ bi, Sample.mean (concat (omap (λ xi, xi !! bi) xa))) <$> seq 0 b) <$> x.

(** ** [block_average] *)

Definition block_average (m : matrix) (n : nat) : result matrix :=
  let '(ny, nx) := shape m in
  if n =? 0 then Raise ZeroDivisionError else
  let ny_trim := ny - ny mod n in
  let nx_trim := nx - nx mod n in
  if (ny_trim =? 0) || (nx_trim =? 0) then Raise ValueError else
  let trimmed := slice2 0 ny_trim 0 nx_trim m in
  Ok {| rows := mean13 (nx_trim / n) (reshape4 (ny_trim / n) n (nx_trim / n) trimmed);
        ncols := nx_trim / n |}.

(** ** Tiles and tile sets *)

(** The triple [(values, lat, lon)]. *)
Record tile : Type := mkTile { values : matrix; lat : list Qc; lon : list Qc }.

(** The alignment invariant of a tile. *)
Definition aligned (t : tile) : Prop :=
  nrows (values t) = length (lat t) ∧ ncols (values t) = length (lon t).

(** ** [chunk_data] *)

(** The body of the [while] loop for the index [i - 1 = j], followed by the
    remaining iterations. *)
Fixpoint chunk_loop (chunk_size i : nat) (data_list : list tile) : result (list tile) :=
  match i with
  | 0 => Ok data_list
  | S j =>
      match data_list !! j with
      | None => Raise IndexError
      | Some t =>
          match block_average (values t) chunk_size with
          | Ok v =>
              chunk_loop chunk_size j
                (<[j := {| values := v;
                           lat := stride chunk_size (lat t);
                           lon := stride chunk_size (lon t) |}]> data_list)
          | Raise ValueError => chunk_loop chunk_size j (delete j data_list)
          | Raise e => Raise e
          end
      end
  end.

Definition chunk_data (data_list : list tile) (chunk_size : nat) : result (list tile) :=
  chunk_loop chunk_size (length data_list) data_list.

(** ** [normalize_data] *)

(** The value of [sumLights] after the first loop. *)
Definition sumLights (data_list : list tile) : sample :=
  foldl (λ acc data, Sample.add acc (msum (values data))) Sample.zero data_list.

Definition normalize_data (data_list : list tile) : list tile :=
  (λ data, {| values := mmap (λ v, Sample.div v (sumLights data_list)) (values data);
              lat := lat data; lon := lon data |}) <$> data_list.

(** Every brightness value of a tile set, tile after tile. *)
Definition all_values (data_list : list tile) : list sample :=
  concat ((λ data, flat (values data)) <$> data_list).

(** *** The normalizer as the specification words it

    The grand total leaves the missing values out of the sum. *)
Definition nansum (l : list sample) : sample :=
  Sample.sum (filter (λ v, Sample.is_nan v = false) l).

Definition spec_total (data_list : list tile) : sample := nansum (all_values data_list).

Definition spec_normalize_data (data_list : list tile) : list tile :=
  (λ data, {| values := mmap (λ v, Sample.div v (spec_total data_list)) (values data);
              lat := lat data; lon := lon data |}) <$> data_list.

(** ** [load_data_for_date] *)

(** What the loader reads from one [.h5] file of the store. *)
Record h5file : Type := mkFile {
  RangeEndingDate : string;
  NearNadir_Composite_Snow_Free : matrix;
  file_lat : list Qc;
  file_lon : list Qc
}.

(** [(southBound, northBound, westBound, eastBound)] *)
Definition bounds : Type := (Qc * Qc * Qc * Qc)%type.

Definition in_range (lo hi x : Qc) : bool := Sample.Qc_leb lo x && Sample.Qc_leb x hi.

(** The masking of invalid samples: [np.where(light_data < 0, np.nan, light_data)]. *)
Definition mask_negative (v : sample) : sample :=
  if Sample.ltb v Sample.zero then NaN else v.

(** The body of the loop for a file of the wanted date; [None] is the
    [continue] branch. *)
Definition load_tile (coords : bounds) (f : h5file) : option tile :=
  let '(southBound, northBound, westBound, eastBound) := coords in
  let light_data := mmap mask_negative (NearNadir_Composite_Snow_Free f) in
  let lat_data := file_lat f in
  let lon_data := file_lon f in
  let valid_lon := np_where (in_range westBound eastBound) lon_data in
  let valid_lat := np_where (in_range southBound northBound) lat_data in
  if (length valid_lon =? 0) || (length valid_lat =? 0) then None else
  let first_lon := np_min valid_lon in
  let last_lon := np_max valid_lon in
  let first_lat := np_min valid_lat in
  let last_lat := np_max valid_lat in
  Some {| values := slice2 first_lat (last_lat + 1) first_lon (last_lon + 1) light_data;
          lat := slice first_lat (last_lat + 1) lat_data;
          lon := slice first_lon (last_lon + 1) lon_data |}.

Fixpoint load_loop (date_wanted : string) (coords : bounds)
    (files : list h5file) (data_list : list tile) : list tile :=
  match files with
  | [] => data_list
  | f :: files' =>
      if String.eqb (RangeEndingDate f) date_wanted then
        match load_tile coords f with
        | Some t => load_loop date_wanted coords files' (data_list ++ [t])
        | None => load_loop date_wanted coords files' data_list
        end
      else load_loop date_wanted coords files' data_list
  end.

(** The sort key [(data[-2][0], data[-1][0])].  Every tile the loader
    builds has a first latitude and a first longitude (lemma
    [load_tile_inhabited]), so the default is never used. *)
Definition sort_key (data : tile) : Qc * Qc :=
  (default 0%Qc (head (lat data)), default 0%Qc (head (lon data))).

(** Python's [<] on pairs. *)
Definition key_lt (k1 k2 : Qc * Qc) : bool :=
  Sample.Qc_ltb k1.1 k2.1 || (Sample.Qc_eqb k1.1 k2.1 && Sample.Qc_ltb k1.2 k2.2).

(** [sorted] is a stable sort: an entry is placed before the first entry
    whose key is not smaller than its own. *)
Fixpoint insert_sorted (x : tile) (l : list tile) : list tile :=
  match l with
  | [] => [x]
  | y :: l' =>
      if key_lt (sort_key y) (sort_key x) then y :: insert_sorted x l' else x :: l
  end.

Definition sorted (l : list tile) : list tile := foldr insert_sorted [] l.

(** [files] is the store's content in the order [glob.glob] lists it. *)
Definition load_data_for_date (files : list h5file) (date_wanted : string)
    (coords : bounds) : list tile :=
  sorted (load_loop date_wanted coords files []).

(** ** [get_difference_data] *)

(** [np.where(light1 == 0, -1, light1)] on one entry. *)
Definition sentinel_denominator (v : sample) : sample :=
  if Sample.eqb v Sample.zero then Num (-1)%Qc else v.

(** The value of [difference] for one pair of grids. *)
Definition difference (relative : bool) (light1 light2 : matrix) : result matrix :=
  if relative
  then elementwise Sample.div light2 (mmap sentinel_denominator light1)
  else elementwise Sample.sub light2 light1.

(** The loop over [zip(data_list1, data_list2)]. *)
Fixpoint difference_loop (relative : bool) (data_list1 data_list2 : list tile)
    : result (list tile) :=
  match data_list1, data_list2 with
  | data1 :: rest1, data2 :: rest2 =>
      d ← difference relative (values data1) (values data2);
      difference_list ← difference_loop relative rest1 rest2;
      Ok ({| values := d; lat := lat data1; lon := lon data1 |} :: difference_list)
  | _, _ => Ok []
  end.

Definition get_difference_data (files : list h5file) (dateEarly dateLater : string)
    (coords : bounds) (relative : bool) (chunk_size : nat) (normalize : bool)
    : result (list tile) :=
  let data_list1 := load_data_for_date files dateEarly coords in
  let data_list2 := load_data_for_date files dateLater coords in
  data_list1 ← (if 1 <? chunk_size then chunk_data data_list1 chunk_size else Ok data_list1);
  data_list2 ← (if 1 <? chunk_size then chunk_data data_list2 chunk_size else Ok data_list2);
  let data_list1 := if normalize then normalize_data data_list1 else data_list1 in
  let data_list2 := if normalize then normalize_data data_list2 else data_list2 in
  difference_loop relative data_list1 data_list2.

(** ** [load_available_dates] *)

(** [files] is the store's content in the order [glob.glob] lists it.  The
    Python set of dates is a finite set; [list(dates)] enumerates it in
    some order and [dates.sort()] sorts byte strings lexicographically,
    which on distinct entries any sorting algorithm does alike. *)
Definition load_available_dates (files : list h5file) : list string :=
  let dates :=
    foldl (λ (dates : gset string) f,
             let date := RangeEndingDate f in
             if decide (date ∈ dates) then dates else dates ∪ {[date]})
          ∅ files in
  merge_sort String.le (elements dates).

(** ** Single mode: the data handed to [plot_single] *)

Definition single_mode_data (files : list h5file) (date : string) (coords : bounds)
    (downsample_val : nat) (normalize : bool) : result (list tile) :=
  let data := load_data_for_date files date coords in
  data ← (if 1 <? downsample_val then chunk_data data downsample_val else Ok data);
  Ok (if normalize then normalize_data data else data).

(** ** What the plots compute from a tile set *)

(** [np.min] and [np.max] of an array: a NaN entry makes the result NaN,
    an empty array raises. *)
Definition np_minimum (x y : sample) : sample :=
  if Sample.is_nan x || Sample.is_nan y then NaN
  else if Sample.ltb y x then y else x.

Definition np_maximum (x y : sample) : sample :=
  if Sample.is_nan x || Sample.is_nan y then NaN
  else if Sample.ltb x y then y else x.

Definition amin (m : matrix) : result sample :=
  match flat m with
  | [] => Raise ValueError
  | x :: l => Ok (foldl np_minimum x l)
  end.

Definition amax (m : matrix) : result sample :=
  match flat m with
  | [] => Raise ValueError
  | x :: l => Ok (foldl np_maximum x l)
  end.

(** [np.where(values == 0, 1, values)] on one entry. *)
Definition zero_to_one (v : sample) : sample :=
  if Sample.eqb v Sample.zero then Num 1%Qc else v.

(** [10 ** -18] *)
Definition tiny : sample := Num (1 / Qc_of_Z (10 ^ 18))%Qc.

(** The first loop of [plot_single]: the bounds given to [LogNorm]. *)
Fixpoint single_color_loop (data_list : list tile) (tracked_min tracked_max : sample)
    : result (sample * sample) :=
  match data_list with
  | [] => Ok (tracked_min, tracked_max)
  | data :: rest =>
      tile_min ← amin (mmap zero_to_one (values data));
      let tracked_min :=
        if Sample.leb tracked_min tile_min then tracked_min else tile_min in
      tile_max ← amax (values data);
      let tracked_max :=
        if Sample.leb tile_max tracked_max then tracked_max else tile_max in
      single_color_loop rest tracked_min tracked_max
  end.

Definition plot_single_color_range (data_list : list tile) : result (sample * sample) :=
  single_color_loop data_list (Num 1%Qc) tiny.

(** The two layers of [plot_rel_difference]:
    [np.where(values >= 0, np.nan, -values)] and
    [np.where(values <= 0, np.nan, values)] on one entry. *)
Definition new_light_cell (v : sample) : sample :=
  if Sample.leb Sample.zero v then NaN else Sample.opp v.

Definition ratio_cell (v : sample) : sample :=
  if Sample.leb v Sample.zero then NaN else v.

Definition new_light_layer (values : matrix) : matrix := mmap new_light_cell values.
Definition ratio_layer (values : matrix) : matrix := mmap ratio_cell values.

(** The bounds that [plot_difference] gives to [SymLogNorm]. *)

(** [np.abs] on one entry. *)
Definition np_abs (v : sample) : sample :=
  match v with
  | NaN => NaN
  | Inf _ => Inf false
  | Num q => Num (if Sample.Qc_ltb q 0 then - q else q)%Qc
  end.

(** [np.where(values == 0, 1, np.abs(values))] on one entry. *)
Definition abs_zero_to_one (v : sample) : sample :=
  if Sample.eqb v Sample.zero then Num 1%Qc else np_abs v.

Fixpoint difference_color_loop (data_list : list tile)
    (tracked_min tracked_max tracked_abs_min : sample)
    : result (sample * sample * sample) :=
  match data_list with
  | [] => Ok (tracked_min, tracked_max, tracked_abs_min)
  | data :: rest =>
      tile_min ← amin (mmap zero_to_one (values data));
      let tracked_min :=
        if Sample.leb tracked_min tile_min then tracked_min else tile_min in
      tile_max ← amax (values data);
      let tracked_max :=
        if Sample.leb tile_max tracked_max then tracked_max else tile_max in
      tile_abs_min ← amin (mmap abs_zero_to_one (values data));
      let tracked_abs_min :=
        if Sample.leb tracked_abs_min tile_abs_min then tracked_abs_min
        else tile_abs_min in
      difference_color_loop rest tracked_min tracked_max tracked_abs_min
  end.

(** [(vmin, vmax, linthresh)] *)
Definition plot_difference_color_range (data_list : list tile)
    : result (sample * sample * sample) :=
  difference_color_loop data_list (Num 1%Qc) tiny (Num 1%Qc).

(** The bounds that [plot_rel_difference] tracks; the first two go to the
    [LogNorm] of the new-light layer. *)

(** [np.where(-values <= 0, 1, -values)] on one entry. *)
Definition new_light_or_one (v : sample) : sample :=
  if Sample.leb (Sample.opp v) Sample.zero then Num 1%Qc else Sample.opp v.

(** [np.where(values <= 0, 1, values)] on one entry. *)
Definition ratio_or_one (v : sample) : sample :=
  if Sample.leb v Sample.zero then Num 1%Qc else v.

Fixpoint rel_color_loop (data_list : list tile)
    (tracked_min tracked_max tracked_rel_max tracked_rel_min : sample)
    : result (sample * sample * sample * sample) :=
  match data_list with
  | [] => Ok (tracked_min, tracked_max, tracked_rel_max, tracked_rel_min)
  | data :: rest =>
      tile_min ← amin (mmap new_light_or_one (values data));
      let tracked_min :=
        if Sample.leb tracked_min tile_min then tracked_min else tile_min in
      tile_max ← amax (mmap Sample.opp (values data));
      let tracked_max :=
        if Sample.leb tile_max tracked_max then tracked_max else tile_max in
      tile_rel_max ← amax (values data);
      let tracked_rel_max :=
        if Sample.leb tile_rel_max tracked_rel_max then tracked_rel_max
        else tile_rel_max in
      tile_rel_min ← amin (mmap ratio_or_one (values data));
      let tracked_rel_min :=
        if Sample.leb tracked_rel_min tile_rel_min then tracked_rel_min
        else tile_rel_min in
      rel_color_loop rest tracked_min tracked_max tracked_rel_max tracked_rel_min
  end.

(** [(tracked_min, tracked_max, tracked_rel_max, tracked_rel_min)] *)
Definition plot_rel_difference_color_range (data_list : list tile)
    : result (sample * sample * sample * sample) :=
  rel_color_loop data_list (Num 1%Qc) tiny (Num 1%Qc) tiny.

(** ** Decidable equality, to settle concrete runs by evaluation *)

#[global] Instance sample_eq_dec : EqDecision sample.
Proof. solve_decision. Defined.

#[global] Instance matrix_eq_dec : EqDecision matrix.
Proof. solve_decision. Defined.

#[global] Instance tile_eq_dec : EqDecision tile.
Proof. solve_decision. Defined.

#[global] Instance result_eq_dec `{EqDecision A} : EqDecision (result A).
Proof. solve_decision. Defined.

Ltac by_evaluation := apply (bool_decide_unpack _); vm_compute; exact I.

(** ** Notions used in the statements *)

(** The block of [m] that output cell [(a, b)] averages:
    [m[a*n:(a+1)*n, b*n:(b+1)*n]]. *)
Definition block (m : matrix) (n a b : nat) : matrix :=
  slice2 (a * n) (a * n + n) (b * n) (b * n + n) m.

(** What the [try] block makes of one tile: the averaged tile, or nothing
    when [block_average] raises. *)
Definition chunk_tile (chunk_size : nat) (t : tile) : option tile :=
  match block_average (values t) chunk_size with
  | Ok v => Some {| values := v;
                    lat := stride chunk_size (lat t);
                    lon := stride chunk_size (lon t) |}
  | Raise _ => None
  end.

(** Index [i] holds an entry that satisfies [p]. *)
Definition valid_at {A} (p : A → bool) (l : list A) (i : nat) : Prop :=
  ∃ x, l !! i = Some x ∧ p x = true.

(** [i] and [j] are the least and the greatest index that satisfy [p]. *)
Definition index_range {A} (p : A → bool) (l : list A) (i j : nat) : Prop :=
  valid_at p l i ∧ valid_at p l j ∧ ∀ k, valid_at p l k → i ≤ k ≤ j.

(** A coordinate vector that never decreases, or never increases. *)
Definition monotone (l : list Qc) : Prop :=
  StronglySorted Qcle l ∨ StronglySorted (flip Qcle) l.

(** What the loader assumes of a file: the grid has one row per latitude
    and one column per longitude. *)
Definition file_aligned (f : h5file) : Prop :=
  wf_matrix (NearNadir_Composite_Snow_Free f)
  ∧ nrows (NearNadir_Composite_Snow_Free f) = length (file_lat f)
  ∧ ncols (NearNadir_Composite_Snow_Free f) = length (file_lon f).

(** The part of the loop body that depends on the file only. *)
Definition load_file (date_wanted : string) (coords : bounds) (f : h5file) : option tile :=
  if String.eqb (RangeEndingDate f) date_wanted then load_tile coords f else None.

(** [t1] does not come after [t2]: the key of [t2] is not smaller. *)
Definition key_le (t1 t2 : tile) : Prop := key_lt (sort_key t2) (sort_key t1) = false.

(** The lexicographic order that [key_lt] decides. *)
Definition lex_le (a b : Qc * Qc) : Prop :=
  (a.1 < b.1)%Qc ∨ (a.1 = b.1 ∧ (a.2 ≤ b.2)%Qc).

(** One date's tile set as [get_difference_data] prepares it: loaded,
    block-averaged when [chunk_size > 1], normalized when asked. *)
Definition prepared (files : list h5file) (date : string) (coords : bounds)
    (chunk_size : nat) (normalize : bool) : list tile :=
  let data_list := load_data_for_date files date coords in
  let data_list := if 1 <? chunk_size then omap (chunk_tile chunk_size) data_list
                   else data_list in
  if normalize then normalize_data data_list else data_list.

Definition is_ok {A} (r : result A) : bool :=
  match r with Ok _ => true | Raise _ => false end.

(** The shapes of two grids can be broadcast together. *)
Definition broadcastable (a b : matrix) : Prop :=
  is_ok (broadcast_dim (nrows a) (nrows b)) && is_ok (broadcast_dim (ncols a) (ncols b))
  = true.

#[global] Instance broadcastable_dec a b : Decision (broadcastable a b).
Proof. unfold broadcastable. apply _. Defined.

(** A brightness value that is a number at least zero, [+inf], or missing. *)
Definition not_negative (v : sample) : Prop := Sample.ltb v Sample.zero = false.

(** A tile whose grid is not empty and holds non-negative numbers only. *)
Definition bright_tile (t : tile) : Prop :=
  flat (values t) ≠ []
  ∧ Forall (λ v, ∃ q, v = Num q ∧ (0 ≤ q)%Qc) (flat (values t)).

(** A tile whose grid is not empty and holds numbers only. *)
Definition numeric_tile (t : tile) : Prop :=
  flat (values t) ≠ [] ∧ Forall (λ v, Sample.is_num v = true) (flat (values t)).

(** The invariant of every tile the pipeline builds: a grid with rows of
    one width whose values are not negative. *)
Definition tile_ok (t : tile) : Prop :=
  wf_matrix (values t) ∧ Forall not_negative (flat (values t)).

(** ** Concrete inputs *)

Module Examples.

Definition q (z : Z) : Qc := Qc_of_Z z.
Definition n (z : Z) : sample := Num (q z).

(** A matrix given by its (non-empty list of) rows. *)
Definition grid (rs : list (list sample)) : matrix :=
  {| rows := rs; ncols := default 0 (length <$> head rs) |}.

(** Two tiles of one date; the first has a missing sample. *)
Definition tiles_with_missing : list tile :=
  [ {| values := grid [[NaN; n 1]]; lat := [q 9]; lon := [q 21; q 22] |};
    {| values := grid [[n 3]]; lat := [q 9]; lon := [q 23] |} ].

(** Two tiles without missing samples, of total brightness 8. *)
Definition tiles_plain : list tile :=
  [ {| values := grid [[n 1; n 3]]; lat := [q 9]; lon := [q 21; q 22] |};
    {| values := grid [[n 4]]; lat := [q 9]; lon := [q 23] |} ].

End Examples.

Module ChunkExamples.
Import Examples.

Definition m44 : matrix :=
  grid [[n 1; n 2; n 3; n 4]; [n 5; n 6; n 7; n 8];
        [n 9; n 10; n 11; n 12]; [n 13; n 14; n 15; n 16]].

(** A 4 by 4 tile followed by a 1 by 1 tile. *)
Definition tiles_4x4_1x1 : list tile :=
  [ {| values := m44; lat := [q 12; q 11; q 10; q 9]; lon := [q 21; q 22; q 23; q 24] |};
    {| values := grid [[n 7]]; lat := [q 12]; lon := [q 25] |} ].

(** A tile of three rows and two columns, aligned with its coordinates. *)
Definition tile_3x2 : tile :=
  {| values := grid [[n 1; n 2]; [n 3; n 4]; [n 5; n 6]];
     lat := [q 11; q 10; q 9]; lon := [q 21; q 22] |}.

(** What [chunk_data] turns [tile_3x2] into for [chunk_size = 2]. *)
Definition tile_3x2_chunked : tile :=
  {| values := grid [[Num (q 5 / q 2)]]; lat := [q 11; q 9]; lon := [q 21] |}.

End ChunkExamples.

Module LoaderExamples.
Import Examples.

Definition date1 : string := "2023-04-01".
Definition date2 : string := "2023-05-01".

(** The preset bounding box [(9, 23, 21, 39)]. *)
Definition sudan : bounds := (q 9, q 23, q 21, q 39).

(** A custom bounding box. *)
Definition box : bounds := (q 22, q 23, q 20, q 23).

(** Two adjoining tiles of one date; the first holds a fill value. *)
Definition file_west : h5file :=
  {| RangeEndingDate := date1;
     NearNadir_Composite_Snow_Free :=
       grid [[n 1; n 2; n 3]; [n 4; n (-9999); n 0]; [n 7; n 0; n 9]];
     file_lat := [q 24; q 23; q 22];
     file_lon := [q 19; q 20; q 21] |}.

Definition file_east : h5file :=
  {| RangeEndingDate := date1;
     NearNadir_Composite_Snow_Free :=
       grid [[n 0; n 2; n 0]; [n 4; n 5; n 6]; [n 7; n 8; n 9]];
     file_lat := [q 24; q 23; q 22];
     file_lon := [q 22; q 23; q 24] |}.

(** A tile outside the bounding box. *)
Definition file_far : h5file :=
  {| RangeEndingDate := date1;
     NearNadir_Composite_Snow_Free := grid [[n 1]];
     file_lat := [q 60];
     file_lon := [q 22] |}.

(** The western tile at a later date. *)
Definition file_later : h5file :=
  {| RangeEndingDate := date2;
     NearNadir_Composite_Snow_Free :=
       grid [[n 2; n 4; n 6]; [n 0; n 3; n 12]; [n 1; n 0; n 18]];
     file_lat := [q 24; q 23; q 22];
     file_lon := [q 19; q 20; q 21] |}.

(** A tile of three latitudes and two longitudes. *)
Definition file_tall : h5file :=
  {| RangeEndingDate := date1;
     NearNadir_Composite_Snow_Free := grid [[n 1; n 2]; [n 3; n 4]; [n 5; n 6]];
     file_lat := [q 11; q 10; q 9];
     file_lon := [q 21; q 22] |}.

(** A narrower tile at the later date. *)
Definition file_narrow : h5file :=
  {| RangeEndingDate := date2;
     NearNadir_Composite_Snow_Free := grid [[n 1; n 2]; [n 3; n 4]; [n 5; n 6]];
     file_lat := [q 24; q 23; q 22];
     file_lon := [q 22; q 23] |}.

(** A box that covers every column of the tiles above. *)
Definition wide : bounds := (q 22, q 23, q 19, q 24).

(** Two tiles at the first date, one at the second. *)
Definition store : list h5file := [file_west; file_later; file_east].
Definition store_narrow : list h5file := [file_west; file_east; file_narrow].

(** A file whose latitude vector is not monotone. *)
Definition file_bent : h5file :=
  {| RangeEndingDate := date1;
     NearNadir_Composite_Snow_Free := grid [[n 1; n 2]; [n 3; n 4]; [n 5; n 6]];
     file_lat := [q 10; q 50; q 12];
     file_lon := [q 21; q 22] |}.

(** Two files of one date over the same area with different content. *)
Definition file_copy (v : Z) : h5file :=
  {| RangeEndingDate := date1;
     NearNadir_Composite_Snow_Free := grid [[n v]];
     file_lat := [q 10];
     file_lon := [q 22] |}.

End LoaderExamples.

(** * Samples: arithmetic facts *)

Module SampleFacts.
Import Sample.
Local Open Scope Qc_scope.

Lemma Qc_ltb_lt p q : Qc_ltb p q = true ↔ p < q.
Proof.
  unfold Qc_ltb. rewrite Qclt_alt. destruct (p ?= q); intuition congruence.
Qed.

Lemma Qc_eqb_eq p q : Qc_eqb p q = true ↔ p = q.
Proof.
  unfold Qc_eqb. rewrite Qceq_alt. destruct (p ?= q); intuition congruence.
Qed.

Lemma Qc_leb_le p q : Qc_leb p q = true ↔ p ≤ q.
Proof.
  unfold Qc_leb. rewrite Qcle_alt. destruct (p ?= q); intuition congruence.
Qed.

Lemma Qc_eqb_refl p : Qc_eqb p p = true.
Proof. by apply Qc_eqb_eq. Qed.

Lemma Qc_eqb_neq p q : Qc_eqb p q = false ↔ p ≠ q.
Proof. rewrite <-Qc_eqb_eq. destruct (Qc_eqb p q); intuition congruence. Qed.

Lemma Qc_ltb_ge p q : Qc_ltb p q = false ↔ q ≤ p.
Proof.
  rewrite Qcle_ngt, <-Qc_ltb_lt. destruct (Qc_ltb p q); intuition congruence.
Qed.

Lemma add_comm x y : add x y = add y x.
Proof.
  destruct x as [|a|p], y as [|b|q]; simpl; try done.
  - by destruct a, b.
  - by rewrite Qcplus_comm.
Qed.

Lemma add_assoc x y z : add x (add y z) = add (add x y) z.
Proof.
  destruct x as [|a|p], y as [|b|q], z as [|c|r]; simpl; try done;
    try (by destruct a, b, c); try (by destruct a, b); try (by destruct b, c);
    try (by destruct a, c).
  by rewrite Qcplus_assoc.
Qed.

Lemma add_zero_l x : add zero x = x.
Proof. destruct x as [| |q]; simpl; try done. by rewrite Qcplus_0_l. Qed.

Lemma add_zero_r x : add x zero = x.
Proof. by rewrite add_comm, add_zero_l. Qed.

Lemma add_nan_r x : add x NaN = NaN.
Proof. by destruct x. Qed.

Lemma div_nan_r x : div x NaN = NaN.
Proof. by destruct x. Qed.

Lemma sum_cons x l : sum (x :: l) = add x (sum l).
Proof. done. Qed.

Lemma sum_app l k : sum (l ++ k) = add (sum l) (sum k).
Proof.
  induction l as [|x l IH].
  - symmetry. apply add_zero_l.
  - rewrite <-app_comm_cons, !sum_cons, IH. apply add_assoc.
Qed.

Lemma sum_concat ls : sum (concat ls) = sum (sum <$> ls).
Proof.
  induction ls as [|l ls IH]; [done|].
  rewrite fmap_cons. cbn [concat]. by rewrite sum_app, sum_cons, IH.
Qed.

(** A single NaN makes the whole sum NaN. *)
Lemma sum_nan l : NaN ∈ l → sum l = NaN.
Proof.
  induction l as [|x l IH]; intros H.
  - by apply elem_of_nil in H.
  - rewrite sum_cons. apply elem_of_cons in H as [<-|H]; [done|].
    by rewrite IH, add_nan_r.
Qed.

(** The accumulating loop [acc += f x] computes the sum of the [f x]. *)
Lemma foldl_add {A} (f : A → sample) acc (l : list A) :
  foldl (λ acc x, add acc (f x)) acc l = add acc (sum (f <$> l)).
Proof.
  revert acc. induction l as [|x l IH]; intros acc.
  - symmetry. apply add_zero_r.
  - rewrite fmap_cons. cbn [foldl]. by rewrite IH, sum_cons, add_assoc.
Qed.

Lemma div_one x : div x (Num 1) = x.
Proof.
  destruct x as [|a|p]; simpl; try done.
  - by destruct a.
  - f_equal. apply Qc_is_canon. simpl. rewrite Qred_correct.
    unfold Qdiv. simpl. rewrite Qmult_1_r. reflexivity.
Qed.

Lemma sum_num l : Forall (λ v, is_num v = true) l → sum l = Num (num_sum l).
Proof.
  induction 1 as [|x l Hx _ IH]; [done|].
  rewrite sum_cons, IH. by destruct x.
Qed.

End SampleFacts.

(** * The normalizer *)

Section Normalizer.
Import Sample SampleFacts.

Lemma flat_mmap f m : flat (mmap f m) = f <$> flat m.
Proof.
  unfold flat, mmap. cbn [rows].
  induction (rows m) as [|r rs IH]; [done|].
  rewrite fmap_cons. cbn [concat]. by rewrite fmap_app, IH.
Qed.

Lemma all_values_cons t ts : all_values (t :: ts) = flat (values t) ++ all_values ts.
Proof. done. Qed.

Lemma all_values_scaled (d : sample) ts :
  all_values ((λ data, {| values := mmap (λ v, div v d) (values data);
                          lat := lat data; lon := lon data |}) <$> ts)
  = (λ v, div v d) <$> all_values ts.
Proof.
  induction ts as [|t ts IH]; [done|].
  rewrite fmap_cons, !all_values_cons, IH, fmap_app. cbn [values].
  by rewrite flat_mmap.
Qed.

Lemma all_values_normalize ts :
  all_values (normalize_data ts) = (λ v, div v (sumLights ts)) <$> all_values ts.
Proof. apply all_values_scaled. Qed.

(** The accumulated [sumLights] is the plain sum of every value. *)
Lemma sumLights_all_values ts : sumLights ts = sum (all_values ts).
Proof.
  unfold sumLights, all_values. rewrite foldl_add, add_zero_l, sum_concat.
  by rewrite <-list_fmap_compose.
Qed.

Lemma normalize_data_length ts : length (normalize_data ts) = length ts.
Proof. apply length_fmap. Qed.

Lemma nansum_no_nan l : NaN ∉ l → nansum l = sum l.
Proof.
  intros H. unfold nansum. f_equal.
  induction l as [|x l IH]; [done|].
  apply not_elem_of_cons in H as [Hx Hl].
  rewrite filter_cons_True by (by destruct x). by rewrite IH.
Qed.

End Normalizer.

Section NormalizerProperties.
Import Sample SampleFacts Examples.

(** C1 (as amended).  [normalize_data] computes the grand total as the
    plain sum of every value of every tile and divides every value by
    it.  A missing value is not left out of that sum: as soon as one
    tile holds a missing value the total is missing, and so is every
    value of the output.  On tile sets without missing values the
    result is the proportion-of-total normalization of the
    specification. *)
Theorem normalize_data_plain_sum (ts : list tile) :
  sumLights ts = sum (all_values ts)
  ∧ normalize_data ts =
      (λ data, {| values := mmap (λ v, div v (sum (all_values ts))) (values data);
                  lat := lat data; lon := lon data |}) <$> ts
  ∧ (NaN ∈ all_values ts →
       sumLights ts = NaN ∧ Forall (λ v, v = NaN) (all_values (normalize_data ts)))
  ∧ (NaN ∉ all_values ts → normalize_data ts = spec_normalize_data ts).
Proof.
  split_and!.
  - apply sumLights_all_values.
  - unfold normalize_data. by rewrite sumLights_all_values.
  - intros Hnan. pose proof (sum_nan _ Hnan) as Hsum.
    rewrite all_values_normalize, sumLights_all_values, Hsum. split; [done|].
    apply Forall_fmap, Forall_true. intros v. apply div_nan_r.
  - intros Hnan. unfold normalize_data, spec_normalize_data, spec_total.
    by rewrite nansum_no_nan, sumLights_all_values.
Qed.

Lemma normalize_data_plain_sum_witness :
  NaN ∈ all_values tiles_with_missing
  ∧ sumLights tiles_with_missing = NaN
  ∧ Forall (λ v, v = NaN) (all_values (normalize_data tiles_with_missing)).
Proof.
  assert (H : NaN ∈ all_values tiles_with_missing) by (vm_compute; left).
  split; [exact H|].
  exact (proj1 (proj2 (proj2 (normalize_data_plain_sum tiles_with_missing))) H).
Defined.

(** C1 fails as stated: with one missing sample among the values
    [NaN, 1, 3], leaving it out would give the total 4, but the code's
    total is missing, every output value is missing, and the result
    differs from the specified one. *)
Lemma normalize_data_missing_counterexample :
  spec_total tiles_with_missing = n 4
  ∧ sumLights tiles_with_missing = NaN
  ∧ all_values (normalize_data tiles_with_missing) = [NaN; NaN; NaN]
  ∧ normalize_data tiles_with_missing ≠ spec_normalize_data tiles_with_missing.
Proof. split_and!; by_evaluation. Qed.

End NormalizerProperties.

(** * Elementwise operations *)

Section Elementwise.

Lemma stretch_id {A} (k : nat) (l : list A) : length l = k → stretch k l = l.
Proof. destruct l as [|x [|y l]]; intros <-; done. Qed.

Lemma broadcast_dim_same k : broadcast_dim k k = Ok k.
Proof. unfold broadcast_dim. by rewrite Nat.eqb_refl. Qed.

Lemma broadcast_to_same m :
  wf_matrix m → rows (broadcast_to (nrows m) (ncols m) m) = rows m.
Proof.
  intros Hwf. unfold broadcast_to. cbn [rows].
  assert (stretch (ncols m) <$> rows m = rows m) as ->.
  { unfold wf_matrix in Hwf. induction Hwf as [|r rs Hr _ IH]; [done|].
    by rewrite fmap_cons, IH, stretch_id. }
  by apply stretch_id.
Qed.

(** On two arrays of one shape no broadcasting happens: the operator is
    applied entry by entry. *)
Lemma elementwise_same_shape f a b :
  wf_matrix a → wf_matrix b → shape a = shape b →
  elementwise f a b =
    Ok {| rows := zip_with (zip_with f) (rows a) (rows b); ncols := ncols a |}.
Proof.
  intros Ha Hb Hs. unfold shape in Hs. injection Hs as Hr Hc.
  unfold elementwise. rewrite <-Hr, <-Hc, !broadcast_dim_same. cbn [mbind result_bind].
  rewrite (broadcast_to_same a Ha). rewrite Hr, Hc, (broadcast_to_same b Hb).
  by rewrite <-Hc.
Qed.

Lemma cell_zip_with f ra rb ca cb r c x y :
  cell {| rows := ra; ncols := ca |} r c = Some x →
  cell {| rows := rb; ncols := cb |} r c = Some y →
  cell {| rows := zip_with (zip_with f) ra rb; ncols := ca |} r c = Some (f x y).
Proof.
  unfold cell. cbn [rows]. intros Hx Hy. rewrite lookup_zip_with.
  destruct (ra !! r) as [rowa|]; [|done]. destruct (rb !! r) as [rowb|]; [|done].
  cbn in *. rewrite lookup_zip_with, Hx. cbn. by rewrite Hy.
Qed.

Lemma cell_mmap f m r c : cell (mmap f m) r c = f <$> cell m r c.
Proof.
  unfold cell, mmap. cbn [rows]. rewrite list_lookup_fmap.
  destruct (rows m !! r) as [row|]; [|done]. cbn. apply list_lookup_fmap.
Qed.

Lemma wf_mmap f m : wf_matrix m → wf_matrix (mmap f m).
Proof.
  unfold wf_matrix, mmap. cbn [rows ncols]. intros H.
  apply Forall_fmap. eapply Forall_impl; [exact H|].
  intros r Hr. cbn. by rewrite length_fmap.
Qed.

Lemma shape_mmap f m : shape (mmap f m) = shape m.
Proof. unfold shape, nrows, mmap. cbn [rows ncols]. by rewrite length_fmap. Qed.

Lemma zip_with_rows_length {A} (f : A → A → A) (ra rb : list (list A)) k :
  Forall (λ r, length r = k) ra → Forall (λ r, length r = k) rb →
  Forall (λ r, length r = k) (zip_with (zip_with f) ra rb).
Proof.
  intros Ha. revert rb. induction Ha as [|r ra Hr _ IH]; intros rb Hb; [done|].
  destruct Hb as [|r' rb Hr' Hb]; [done|]. cbn. constructor; [|by apply IH].
  rewrite length_zip_with. lia.
Qed.

(** The outcome of [difference] on two grids of one shape. *)
Lemma difference_same_shape relative light1 light2 :
  wf_matrix light1 → wf_matrix light2 → shape light1 = shape light2 →
  ∃ d, difference relative light1 light2 = Ok d
       ∧ wf_matrix d ∧ shape d = shape light1
       ∧ ∀ r c e l, cell light1 r c = Some e → cell light2 r c = Some l →
           cell d r c = Some (if relative then Sample.div l (sentinel_denominator e)
                              else Sample.sub l e).
Proof.
  intros H1 H2 Hs. unfold difference.
  assert (Hr : nrows light1 = nrows light2) by (unfold shape in Hs; congruence).
  assert (Hc : ncols light1 = ncols light2) by (unfold shape in Hs; congruence).
  destruct relative.
  - rewrite elementwise_same_shape;
      [|done|by apply wf_mmap|by rewrite shape_mmap].
    eexists. split; [done|]. split_and!.
    + unfold wf_matrix. cbn [rows ncols].
      apply zip_with_rows_length; [done|].
      rewrite <-Hc. apply (wf_mmap _ _ H1).
    + unfold shape, nrows in *. cbn [rows ncols mmap].
      rewrite length_zip_with, length_fmap. f_equal; lia.
    + intros r c e l He Hl. destruct light2 as [r2 c2].
      apply (cell_zip_with _ _ _ _ (ncols light1)); [done|].
      change (cell (mmap sentinel_denominator light1) r c = Some (sentinel_denominator e)).
      by rewrite cell_mmap, He.
  - rewrite elementwise_same_shape; [|done..].
    eexists. split; [done|]. split_and!.
    + unfold wf_matrix. cbn [rows ncols].
      apply zip_with_rows_length; [done|]. by rewrite <-Hc.
    + unfold shape, nrows in *. cbn [rows ncols].
      rewrite length_zip_with. f_equal; lia.
    + intros r c e l He Hl. destruct light1 as [r1 c1], light2 as [r2 c2].
      by apply (cell_zip_with _ _ _ _ c1).
Qed.

End Elementwise.

(** * The relative difference of one cell *)

Section RelativeCell.
Import Sample SampleFacts.
Local Open Scope Qc_scope.

Lemma eqb_zero e : eqb e zero = true ↔ e = zero.
Proof.
  destruct e as [|a|p]; cbn; try (split; [discriminate|discriminate]).
  rewrite Qc_eqb_eq. split; [by intros ->|]. by intros [= ->].
Qed.

Lemma ltb_num_zero p : ltb (Num p) zero = true ↔ p < 0.
Proof. apply Qc_ltb_lt. Qed.

Lemma ltb_zero_num p : ltb zero (Num p) = true ↔ 0 < p.
Proof. apply Qc_ltb_lt. Qed.

Lemma Qc_ltb_opp p : Qc_ltb (- p) 0 = Qc_ltb 0 p.
Proof.
  apply eq_true_iff_eq. rewrite !Qc_ltb_lt.
  by rewrite (Qclt_minus_iff (- p) 0), Qcopp_involutive, Qcplus_0_l.
Qed.

Lemma div_minus_one l : div l (Num (-1)) = opp l.
Proof.
  destruct l as [|a|p]; [done|by destruct a|].
  cbn [div opp]. change (Qc_eqb (-1) 0) with false. cbn iota.
  f_equal. by field.
Qed.

Lemma ltb_opp_zero l : ltb (opp l) zero = ltb zero l.
Proof.
  destruct l as [|a|p]; [done|by destruct a|]. apply Qc_ltb_opp.
Qed.

Lemma sentinel_zero : sentinel_denominator zero = Num (-1).
Proof. done. Qed.

Lemma sentinel_nonzero e : e ≠ zero → sentinel_denominator e = e.
Proof.
  intros He. unfold sentinel_denominator.
  destruct (eqb e zero) eqn:E; [|done]. by apply eqb_zero in E.
Qed.

Lemma Qc_div_nonneg p q : 0 ≤ p → 0 < q → 0 ≤ p / q.
Proof.
  intros Hp Hq. apply (Qcmult_lt_0_le_reg_r _ _ q); [done|].
  rewrite Qcmult_0_l, Qcmult_comm, Qcmult_div_r; [done|].
  intros ->. by apply Qclt_not_eq in Hq.
Qed.

(** A quotient of two values that are not negative is not negative. *)
Lemma div_not_negative x y :
  ltb x zero = false → ltb y zero = false → ltb (div x y) zero = false.
Proof.
  destruct x as [|a|p], y as [|b|q]; cbn [div ltb zero]; intros Hx Hy; try done.
  - by rewrite Hx, Hy.
  - pose proof Hx as Hp. pose proof Hy as Hq. destruct (Qc_eqb q 0) eqn:E.
    + destruct (Qc_eqb p 0); [done|]. cbn. exact Hp.
    + cbn. apply Qc_ltb_ge. apply Qc_ltb_ge in Hp, Hq. apply Qc_eqb_neq in E.
      apply Qc_div_nonneg; [done|].
      destruct (Qcle_lt_or_eq _ _ Hq) as [?|?]; [done|congruence].
Qed.

(** A true ratio of a non-negative later value to a positive earlier
    number is at least zero. *)
Lemma ratio_nonneg p l : 0 < p → leb zero l = true → leb zero (div l (Num p)) = true.
Proof.
  intros Hp. assert (Qc_eqb p 0 = false) as E.
  { apply Qc_eqb_neq. intros ->. by apply Qclt_not_eq in Hp. }
  assert (Qc_ltb p 0 = false) as E' by (apply Qc_ltb_ge; by apply Qclt_le_weak).
  destruct l as [|a|q]; unfold leb; cbn; try done.
  - rewrite E'. by destruct a.
  - rewrite E. cbn. intros Hq. apply orb_true_iff.
    assert (0 ≤ q) as Hq'.
    { apply orb_true_iff in Hq as [Hq|Hq].
      - apply Qc_ltb_lt in Hq. by apply Qclt_le_weak.
      - apply Qc_eqb_eq in Hq. rewrite <-Hq. apply Qcle_refl. }
    destruct (Qcle_lt_or_eq _ _ (Qc_div_nonneg q p Hq' Hp)) as [H|H].
    + left. by apply Qc_ltb_lt.
    + right. by apply Qc_eqb_eq.
Qed.

(** On values that are not negative, the relative difference is negative
    exactly on the sentinel path with a positive later value. *)
Lemma relative_negative_iff e l :
  ltb e zero = false → ltb l zero = false →
  ltb (div l (sentinel_denominator e)) zero = true ↔ e = zero ∧ ltb zero l = true.
Proof.
  intros He Hl. destruct (decide (e = zero)) as [->|Hne].
  - rewrite sentinel_zero, div_minus_one, ltb_opp_zero.
    split; [done|by intros [_ ?]].
  - rewrite (sentinel_nonzero _ Hne), (div_not_negative _ _ Hl He).
    split; [done|by intros [? _]].
Qed.

End RelativeCell.

(** * Reshaping and slicing *)

Section Reshape.
Context {A : Type}.
Implicit Types (l : list A) (ls : list (list A)).

Lemma slice_from_zero k l : slice 0 k l = take k l.
Proof. unfold slice. by rewrite Nat.sub_0_r. Qed.

Lemma slice_window x k l : slice x (x + k) l = take k (drop x l).
Proof. unfold slice. f_equal. lia. Qed.

Lemma chunks_succ k n l : chunks (S k) n l = take n l :: chunks k n (drop n l).
Proof. done. Qed.

Lemma length_chunks k n l : length (chunks k n l) = k.
Proof. unfold chunks. by rewrite length_reshape, length_replicate. Qed.

(** Regrouping a concatenation of [k] groups of [n] gives the groups back. *)
Lemma chunks_concat k n ls :
  length ls = k → Forall (λ l, length l = n) ls → chunks k n (concat ls) = ls.
Proof.
  intros <- Hls. induction Hls as [|l ls Hl _ IH]; [done|].
  cbn [length concat]. rewrite chunks_succ.
  by rewrite take_app_length', drop_app_length', IH.
Qed.

Lemma concat_chunks k n l : length l = k * n → concat (chunks k n l) = l.
Proof.
  revert l. induction k as [|k IH]; intros l Hl.
  - by destruct l.
  - rewrite chunks_succ. cbn [concat]. rewrite IH, take_drop; [done|].
    rewrite length_drop. lia.
Qed.

Lemma Forall_length_chunks k n l :
  length l = k * n → Forall (λ g, length g = n) (chunks k n l).
Proof.
  revert l. induction k as [|k IH]; intros l Hl; [constructor|].
  rewrite chunks_succ. constructor.
  - rewrite length_take. lia.
  - apply IH. rewrite length_drop. lia.
Qed.

(** Group [i] of a regrouped list is the window at offset [i * n]. *)
Lemma lookup_chunks k n l i :
  0 < n → length l = k * n → i < k →
  chunks k n l !! i = Some (take n (drop (i * n) l)).
Proof.
  intros Hn Hl Hi. unfold chunks. rewrite sublist_lookup_reshape by done.
  unfold sublist_lookup. rewrite option_guard_True; [done|]. nia.
Qed.

Lemma length_concat_uniform n ls :
  Forall (λ l, length l = n) ls → length (concat ls) = length ls * n.
Proof.
  induction 1 as [|l ls Hl _ IH]; [done|].
  cbn [concat length]. rewrite length_app. lia.
Qed.

Lemma omap_Some_fmap {B} (f : A → option B) (g : A → B) l :
  Forall (λ x, f x = Some (g x)) l → omap f l = g <$> l.
Proof.
  induction 1 as [|x l Hx _ IH]; [done|]. cbn. by rewrite Hx, IH.
Qed.

Lemma take_window_of_take k n x l :
  x + n ≤ k → take n (drop x (take k l)) = take n (drop x l).
Proof.
  intros H. rewrite !take_drop_commute, take_take. do 2 f_equal. lia.
Qed.

End Reshape.

(** * Block averaging *)

Section BlockAverage.
Import Sample.

Lemma trim_multiple k n : 0 < n → k - k mod n = k / n * n.
Proof. intros Hn. pose proof (Nat.div_mod_eq k n). lia. Qed.

Lemma trim_zero_iff k n : 0 < n → (k - k mod n =? 0) = true ↔ k < n.
Proof.
  intros Hn. rewrite Nat.eqb_eq, (trim_multiple _ _ Hn).
  rewrite <-(Nat.div_small_iff k n) by lia. nia.
Qed.

Lemma block_average_zero m : block_average m 0 = Raise ZeroDivisionError.
Proof. done. Qed.

Lemma block_average_small m n :
  0 < n → nrows m < n ∨ ncols m < n → block_average m n = Raise ValueError.
Proof.
  intros Hn Hsmall. unfold block_average, shape.
  destruct (Nat.eqb_spec n 0) as [->|_]; [lia|].
  assert ((nrows m - nrows m mod n =? 0) || (ncols m - ncols m mod n =? 0) = true) as ->; [|done].
  apply orb_true_iff. destruct Hsmall; [left|right]; by apply trim_zero_iff.
Qed.

Lemma block_average_large m n :
  0 < n → n ≤ nrows m → n ≤ ncols m →
  block_average m n =
    Ok {| rows := mean13 (ncols m / n)
                    (reshape4 (nrows m / n) n (ncols m / n)
                       (slice2 0 (nrows m / n * n) 0 (ncols m / n * n) m));
          ncols := ncols m / n |}.
Proof.
  intros Hn Hr Hc. unfold block_average, shape.
  destruct (Nat.eqb_spec n 0) as [->|_]; [lia|].
  assert ((nrows m - nrows m mod n =? 0) || (ncols m - ncols m mod n =? 0) = false) as ->.
  { apply orb_false_iff. split; apply not_true_iff_false;
      rewrite trim_zero_iff by done; lia. }
  rewrite !trim_multiple by done. by rewrite !Nat.div_mul by lia.
Qed.

Lemma concat_concat_fmap {A} (L : list (list (list A))) :
  concat (concat L) = concat (@concat A <$> L).
Proof.
  induction L as [|x L IH]; [done|].
  rewrite fmap_cons. cbn [concat]. by rewrite concat_app, IH.
Qed.

Lemma omap_fmap_lookup {A B} (f : A → list B) (i : nat) (l : list A) :
  omap (λ x, x !! i) (f <$> l) = omap (λ x, f x !! i) l.
Proof.
  induction l as [|x l IH]; [done|]. rewrite fmap_cons. cbn. by rewrite IH.
Qed.

Section Trimmed.
Variables (rs : list (list sample)) (n a b : nat).
Hypothesis Hn : 0 < n.
Hypothesis Hrows : a * n ≤ length rs.
Hypothesis Hcols : Forall (λ r, b * n ≤ length r) rs.

Let rows_t : list (list sample) := take (b * n) <$> take (a * n) rs.

Lemma rows_t_length : length rows_t = a * n.
Proof. unfold rows_t. rewrite length_fmap, length_take. lia. Qed.

Lemma rows_t_widths : Forall (λ r, length r = b * n) rows_t.
Proof.
  unfold rows_t. apply Forall_fmap, Forall_take.
  eapply Forall_impl; [exact Hcols|]. intros r Hr. unfold compose.
  cbv beta in Hr. rewrite length_take. lia.
Qed.

(** Reshaping the trimmed grid to [(a, n, b, n)] groups its rows [n] at
    a time and cuts each row into [b] runs of [n] entries. *)
Lemma reshape4_trimmed :
  chunks a n (chunks (a * n) b (chunks (a * n * b) n (concat rows_t)))
  = chunks a n (chunks b n <$> rows_t).
Proof.
  set (G := chunks b n <$> rows_t).
  assert (@concat sample <$> G = rows_t) as HG.
  { unfold G. rewrite <-list_fmap_compose.
    pose proof rows_t_widths as Hw. induction Hw as [|r l Hr _ IH]; [done|].
    rewrite fmap_cons, IH. cbn. by rewrite concat_chunks. }
  assert (length G = a * n) as HGlen by (unfold G; by rewrite length_fmap, rows_t_length).
  assert (Forall (λ g, length g = b) G) as HGb.
  { unfold G. apply Forall_fmap, Forall_true. intros r. cbn. apply length_chunks. }
  assert (Forall (Forall (λ g, length g = n)) G) as HGn.
  { unfold G. apply Forall_fmap. eapply Forall_impl; [exact rows_t_widths|].
    intros r Hr. cbn. by apply Forall_length_chunks. }
  rewrite <-HG, <-concat_concat_fmap.
  rewrite (chunks_concat (a * n * b) n (concat G)).
  - by rewrite (chunks_concat (a * n) b G).
  - rewrite (length_concat_uniform b) by done. lia.
  - by apply Forall_concat.
Qed.

(** The entries that output cell [(a', b')] averages. *)
Lemma mean13_lookup a' b' :
  a' < a → b' < b →
  mean13 b (chunks a n (chunks b n <$> rows_t)) !! a' ≫= (.!! b')
  = Some (mean (concat ((λ r, take n (drop (b' * n) r))
                           <$> take n (drop (a' * n) rs)))).
Proof.
  intros Ha Hb. unfold mean13. rewrite list_lookup_fmap.
  rewrite lookup_chunks; [|done|by rewrite length_fmap, rows_t_length|done].
  cbn. rewrite list_lookup_fmap, lookup_seq_lt by done. cbn. do 2 f_equal.
  rewrite <-fmap_drop, <-fmap_take, omap_fmap_lookup.
  rewrite (omap_Some_fmap _ (λ r, take n (drop (b' * n) r))).
  - unfold rows_t. rewrite <-fmap_drop, <-fmap_take, <-list_fmap_compose.
    rewrite take_window_of_take by nia.
    f_equal. apply list_fmap_ext. intros _ r _. cbn. apply take_window_of_take. nia.
  - apply Forall_take, Forall_drop.
    eapply Forall_impl; [exact rows_t_widths|].
    intros r Hr. cbn. by apply lookup_chunks.
Qed.

End Trimmed.

End BlockAverage.

Section BlockAverageCells.
Import Sample.

Lemma flat_block m n a b :
  flat (block m n a b)
  = concat ((λ r, take n (drop (b * n) r)) <$> take n (drop (a * n) (rows m))).
Proof.
  unfold flat, block, slice2. cbn [rows]. rewrite slice_window. f_equal.
  apply list_fmap_ext. intros _ r _. apply slice_window.
Qed.

Lemma flat_trimmed m k j :
  flat (slice2 0 k 0 j m) = concat (take j <$> take k (rows m)).
Proof.
  unfold flat, slice2. cbn [rows]. rewrite slice_from_zero. f_equal.
  apply list_fmap_ext. intros _ r _. apply slice_from_zero.
Qed.

(** What [block_average] returns on a grid that is at least [n] by [n]. *)
Lemma block_average_cells m n :
  wf_matrix m → 0 < n → n ≤ nrows m → n ≤ ncols m →
  ∃ out, block_average m n = Ok out
         ∧ shape out = (nrows m / n, ncols m / n)
         ∧ wf_matrix out
         ∧ ∀ a b, a < nrows m / n → b < ncols m / n →
             cell out a b = Some (mean (flat (block m n a b))).
Proof.
  intros Hwf Hn Hr Hc. rewrite block_average_large by done.
  eexists. split; [done|].
  assert (nrows m / n * n ≤ length (rows m)) as Hrows.
  { unfold nrows. pose proof (Nat.div_mod_eq (length (rows m)) n). lia. }
  assert (Forall (λ r, ncols m / n * n ≤ length r) (rows m)) as Hcols.
  { eapply Forall_impl; [exact Hwf|]. intros r Hlen. cbv beta in Hlen.
    rewrite Hlen. pose proof (Nat.div_mod_eq (ncols m) n). lia. }
  split_and!.
  - unfold shape, nrows, mean13, reshape4. cbn [rows ncols].
    by rewrite length_fmap, length_chunks.
  - unfold wf_matrix, mean13. cbn [rows ncols].
    apply Forall_fmap, Forall_true. intros xa. cbn.
    by rewrite length_fmap, length_seq.
  - intros a b Ha Hb. unfold cell, reshape4. cbn [rows].
    rewrite flat_trimmed, (reshape4_trimmed _ _ _ _ Hn Hrows Hcols).
    rewrite (mean13_lookup _ _ _ _ Hn Hrows Hcols) by done.
    by rewrite flat_block.
Qed.

(** The block of an output cell has [n * n] entries. *)
Lemma length_flat_block m n a b :
  wf_matrix m → a < nrows m / n → b < ncols m / n →
  length (flat (block m n a b)) = n * n.
Proof.
  intros Hwf Ha Hb. rewrite flat_block.
  assert (0 < n) as Hn by (destruct n; [cbn in Ha; lia|lia]).
  assert (a * n + n ≤ nrows m) as Hrows.
  { pose proof (Nat.div_mod_eq (nrows m) n). nia. }
  assert (b * n + n ≤ ncols m) as Hcols.
  { pose proof (Nat.div_mod_eq (ncols m) n). nia. }
  rewrite (length_concat_uniform n).
  - rewrite length_fmap, length_take, length_drop. unfold nrows in Hrows.
    by rewrite Nat.min_l by lia.
  - apply Forall_fmap. apply Forall_take, Forall_drop.
    eapply Forall_impl; [exact Hwf|]. intros r Hr. cbv beta in Hr. cbn.
    rewrite length_take, length_drop. lia.
Qed.

(** [np.mean] of numbers: their sum divided by their count. *)
Lemma mean_nums (qs : list Qc) :
  qs ≠ [] →
  mean (Num <$> qs)
  = Num (foldr Qcplus 0%Qc qs / Qc_of_Z (Z.of_nat (length qs)))%Qc.
Proof.
  intros Hne. unfold mean. rewrite length_fmap.
  assert (sum (Num <$> qs) = Num (foldr Qcplus 0%Qc qs)) as ->.
  { clear Hne. induction qs as [|x qs IH]; [done|].
    rewrite fmap_cons, SampleFacts.sum_cons, IH. done. }
  unfold of_nat, div.
  assert (Qc_of_Z (Z.of_nat (length qs)) ≠ 0%Qc) as Hk.
  { rewrite <-Z2Qc_inj_0. intros E%Z2Qc_inj. destruct qs; [done|]. cbn in E. lia. }
  apply SampleFacts.Qc_eqb_neq in Hk. by rewrite Hk.
Qed.

End BlockAverageCells.

(** * [chunk_data] *)

Section ChunkData.

(** With a positive factor the only exception is the one the loop catches. *)
Lemma block_average_exn m n e : 0 < n → block_average m n = Raise e → e = ValueError.
Proof.
  intros Hn. unfold block_average, shape.
  destruct (Nat.eqb_spec n 0) as [->|_]; [lia|].
  destruct (_ || _); congruence.
Qed.

Lemma chunk_loop_spec n i l :
  0 < n → i ≤ length l →
  chunk_loop n i l = Ok (omap (chunk_tile n) (take i l) ++ drop i l).
Proof.
  intros Hn. revert l. induction i as [|j IH]; intros l Hi.
  - by rewrite take_0, drop_0.
  - destruct (lookup_lt_is_Some_2 l j) as [t Ht]; [lia|].
    cbn [chunk_loop]. rewrite Ht.
    rewrite (take_S_r _ _ _ Ht), omap_app. cbn [omap list_omap]. unfold chunk_tile at 2.
    destruct (block_average (values t) n) as [v|e] eqn:E.
    + rewrite IH by (rewrite length_insert; lia).
      rewrite take_insert_ge, drop_insert_ge, Nat.sub_diag by lia.
      rewrite (drop_S _ _ _ Ht). cbn [insert list_insert]. by rewrite <-app_assoc.
    + apply block_average_exn in E as ->; [|done].
      rewrite IH by (rewrite length_delete; [lia|by eexists]).
      rewrite delete_take_drop.
      rewrite take_app_length', drop_app_length' by (rewrite length_take; lia).
      by rewrite app_nil_r.
Qed.

(** [chunk_data] never aborts for a positive factor: it keeps, in order,
    the tiles that [block_average] accepts. *)
Lemma chunk_data_spec l n : 0 < n → chunk_data l n = Ok (omap (chunk_tile n) l).
Proof.
  intros Hn. unfold chunk_data. rewrite chunk_loop_spec by done.
  by rewrite firstn_all, drop_all, app_nil_r.
Qed.

End ChunkData.

(** * Subsampled coordinate vectors *)

Section Stride.
Context {A : Type}.

Lemma length_every (n k : nat) (l : list A) :
  0 < n → k < n → length (every n k l) = (length l + n - 1 - k) / n.
Proof.
  intros Hn. revert k. induction l as [|x l IH]; intros k Hk.
  - cbn. symmetry. apply Nat.div_small. lia.
  - destruct k as [|k]; cbn [every length].
    + rewrite IH by lia.
      replace (S (length l) + n - 1 - 0) with (length l + 1 * n) by lia.
      rewrite Nat.div_add by lia.
      replace (length l + n - 1 - (n - 1)) with (length l) by lia. lia.
    + rewrite IH by lia. f_equal. lia.
Qed.

(** [l[::n]] has [ceil(len(l) / n)] entries. *)
Lemma length_stride (n : nat) (l : list A) :
  0 < n → length (stride n l) = (length l + n - 1) / n.
Proof.
  intros Hn. unfold stride. rewrite length_every by lia. f_equal. lia.
Qed.

Lemma length_stride_multiple (n : nat) (l : list A) :
  0 < n → length l mod n = 0 → length (stride n l) = length l / n.
Proof.
  intros Hn Hmod. rewrite length_stride by done.
  pose proof (Nat.div_mod_eq (length l) n) as Hdiv. rewrite Hmod, Nat.add_0_r in Hdiv.
  symmetry. apply (Nat.div_unique _ _ _ (n - 1)); lia.
Qed.

(** One entry too many when the length is not a multiple of the step. *)
Lemma length_stride_remainder (n : nat) (l : list A) :
  0 < n → length l mod n ≠ 0 → length (stride n l) = length l / n + 1.
Proof.
  intros Hn Hmod. rewrite length_stride by done.
  pose proof (Nat.div_mod_eq (length l) n) as Hdiv.
  pose proof (Nat.mod_upper_bound (length l) n) as Hlt.
  symmetry. apply (Nat.div_unique _ _ _ (length l mod n - 1)); lia.
Qed.

End Stride.

Section ChunkAlignment.

(** The averaged tile keeps the alignment of grid and coordinates exactly
    when both dimensions are multiples of the factor. *)
Lemma chunk_tile_aligned_iff n t t' :
  0 < n → wf_matrix (values t) → aligned t →
  chunk_tile n t = Some t' →
  aligned t' ↔ nrows (values t) mod n = 0 ∧ ncols (values t) mod n = 0.
Proof.
  intros Hn Hwf [Hlat Hlon] Hchunk. unfold chunk_tile in Hchunk.
  destruct (block_average (values t) n) as [v|e] eqn:E; [|done].
  injection Hchunk as <-.
  assert (n ≤ nrows (values t) ∧ n ≤ ncols (values t)) as [Hr Hc].
  { destruct (decide (n ≤ nrows (values t))) as [?|?];
      [destruct (decide (n ≤ ncols (values t))) as [?|?]; [done|]|];
      rewrite block_average_small in E by lia; done. }
  destruct (block_average_cells _ _ Hwf Hn Hr Hc) as (out & Hout & Hshape & _).
  rewrite E in Hout. injection Hout as <-.
  unfold aligned. cbn [values lat lon]. unfold shape in Hshape.
  injection Hshape as -> ->. rewrite Hlat, Hlon.
  split.
  - intros [H1 H2].
    destruct (decide (length (lat t) mod n = 0)) as [?|Hne];
      [destruct (decide (length (lon t) mod n = 0)) as [?|Hne]; [done|]|].
    + rewrite (length_stride_remainder _ _ Hn Hne) in H2. lia.
    + rewrite (length_stride_remainder _ _ Hn Hne) in H1. lia.
  - intros [H1 H2]. by rewrite !length_stride_multiple.
Qed.

(** Normalizing keeps the shape of every grid, hence the alignment. *)
Lemma normalize_data_aligned ts : Forall aligned ts → Forall aligned (normalize_data ts).
Proof.
  intros Hts. unfold normalize_data. apply Forall_fmap.
  eapply Forall_impl; [exact Hts|]. intros t [Hr Hc]. unfold compose, aligned.
  cbn [values lat lon]. unfold nrows, mmap in *. cbn [rows ncols].
  by rewrite length_fmap.
Qed.

End ChunkAlignment.

Section ChunkProperties.
Import Examples ChunkExamples LoaderExamples.

(** C5.  For a factor [n ≥ 1], [chunk_data] never aborts: it returns, in
    order, the averaged versions of the tiles that are at least [n] by
    [n] and drops the others.  A tile of shape [(R, C)] with [R < n] or
    [C < n] is dropped ([block_average] raises the [ValueError] that the
    loop catches); otherwise its grid becomes one of shape
    [(R / n, C / n)] whose cell [(a, b)] is the arithmetic mean of the
    block [m[a*n:(a+1)*n, b*n:(b+1)*n]], the trailing rows and columns
    beyond a multiple of [n] being left out: the block has [n * n]
    entries and, when they are numbers, the cell is their sum divided by
    [n * n]. *)
Theorem chunk_data_block_average (ts : list tile) (n : nat) :
  1 ≤ n → Forall (λ t, wf_matrix (values t)) ts →
  chunk_data ts n = Ok (omap (chunk_tile n) ts)
  ∧ ∀ t, t ∈ ts →
      (nrows (values t) < n ∨ ncols (values t) < n →
         block_average (values t) n = Raise ValueError ∧ chunk_tile n t = None)
      ∧ (n ≤ nrows (values t) → n ≤ ncols (values t) →
         ∃ out, block_average (values t) n = Ok out
           ∧ chunk_tile n t = Some {| values := out; lat := stride n (lat t);
                                      lon := stride n (lon t) |}
           ∧ shape out = (nrows (values t) / n, ncols (values t) / n)
           ∧ ∀ a b, a < nrows (values t) / n → b < ncols (values t) / n →
               cell out a b = Some (Sample.mean (flat (block (values t) n a b)))
               ∧ length (flat (block (values t) n a b)) = n * n
               ∧ ∀ qs : list Qc,
                   flat (block (values t) n a b) = Num <$> qs →
                   cell out a b
                   = Some (Num (foldr Qcplus 0 qs / Qc_of_Z (Z.of_nat (n * n)))%Qc)).
Proof.
  intros Hn Hwf. split; [by apply chunk_data_spec|].
  intros t Ht. rewrite Forall_forall in Hwf. specialize (Hwf t Ht). split.
  - intros Hsmall. unfold chunk_tile. by rewrite block_average_small.
  - intros Hr Hc.
    destruct (block_average_cells _ n Hwf) as (out & Hout & Hshape & _ & Hcell); [lia..|].
    exists out. unfold chunk_tile. rewrite Hout. split_and!; [done..|].
    intros a b Ha Hb.
    pose proof (length_flat_block _ n a b Hwf Ha Hb) as Hlen.
    split_and!; [by apply Hcell|done|].
    intros qs Hqs. rewrite Hcell, Hqs by done. rewrite Hqs, length_fmap in Hlen.
    rewrite mean_nums, Hlen; [done|]. destruct qs; [|done]. cbn in Hlen. nia.
Qed.

Lemma chunk_data_block_average_witness :
  1 ≤ 2 ∧ Forall (λ t, wf_matrix (values t)) tiles_4x4_1x1
  ∧ chunk_data tiles_4x4_1x1 2 = Ok (omap (chunk_tile 2) tiles_4x4_1x1)
  ∧ ∃ out, block_average m44 2 = Ok out
      ∧ shape out = (2, 2)
      ∧ cell out 0 1 = Some (Num (q 11 / q 2)%Qc).
Proof.
  assert (H1 : 1 ≤ 2) by lia.
  assert (H2 : Forall (λ t, wf_matrix (values t)) tiles_4x4_1x1)
    by (repeat constructor).
  split; [exact H1|]. split; [exact H2|].
  destruct (chunk_data_block_average tiles_4x4_1x1 2 H1 H2) as [Hrun Htiles].
  split; [exact Hrun|].
  destruct (proj2 (Htiles {| values := m44; lat := [q 12; q 11; q 10; q 9];
                             lon := [q 21; q 22; q 23; q 24] |}
                     ltac:(left)))
    as (out & Hout & _ & Hshape & Hcells); [cbn; lia..|].
  exists out. split; [exact Hout|]. split; [exact Hshape|].
  assert (E : Some (Num (foldr Qcplus 0 [q 3; q 4; q 7; q 8]
                         / Qc_of_Z (Z.of_nat (2 * 2)))%Qc)
              = Some (Num (q 11 / q 2)%Qc)) by by_evaluation.
  rewrite <-E.
  apply (proj2 (proj2 (Hcells 0 1 ltac:(cbn; lia) ltac:(cbn; lia)))).
  reflexivity.
Defined.

Example chunk_data_4x4_1x1 :
  chunk_data tiles_4x4_1x1 2 =
    Ok [ {| values := grid [[Num (q 7 / q 2); Num (q 11 / q 2)];
                            [Num (q 23 / q 2); Num (q 27 / q 2)]];
            lat := [q 12; q 10]; lon := [q 21; q 23] |} ].
Proof. by_evaluation. Qed.

(** C2 fails on the code.  [chunk_data] trims the grid to a multiple of
    the factor but subsamples the whole coordinate vector: the aligned
    tile of 3 rows and 2 columns becomes, for [chunk_size = 2], a grid of
    one row paired with two latitudes. *)
Theorem chunk_data_misaligned :
  load_data_for_date [file_tall] date1 sudan = [tile_3x2]
  ∧ aligned tile_3x2
  ∧ chunk_data [tile_3x2] 2 = Ok [tile_3x2_chunked]
  ∧ nrows (values tile_3x2_chunked) = 1
  ∧ length (lat tile_3x2_chunked) = 2
  ∧ ¬ aligned tile_3x2_chunked.
Proof. split_and!; by_evaluation. Qed.

End ChunkProperties.

(** * Index ranges of the coordinates within bounds *)

Section IndexRange.
Context {A : Type}.
Implicit Types (p : A → bool) (l : list A).

Lemma elem_of_where_from p k l i :
  i ∈ where_from p k l ↔ k ≤ i ∧ valid_at p l (i - k).
Proof.
  revert k. induction l as [|x l IH]; intros k.
  - cbn. split; [by intros ?%elem_of_nil|]. by intros [_ (y & ? & _)].
  - assert (i ∈ where_from p (S k) l ↔ k < i ∧ valid_at p (x :: l) (i - k)) as Hrest.
    { rewrite IH. unfold valid_at. split.
      - intros [Hk (y & Hy & Hp)]. split; [lia|]. exists y.
        replace (i - k) with (S (i - S k)) by lia. done.
      - intros [Hk (y & Hy & Hp)]. split; [lia|]. exists y.
        replace (i - k) with (S (i - S k)) in Hy by lia. done. }
    cbn [where_from]. destruct (p x) eqn:Hpx.
    + rewrite elem_of_cons, Hrest. split.
      * intros [->|[? ?]]; [|split; [lia|done]].
        split; [lia|]. exists x. by rewrite Nat.sub_diag.
      * intros [Hk Hv]. destruct (decide (i = k)) as [->|?]; [by left|].
        right. split; [lia|done].
    + rewrite Hrest. split; [intros [? ?]; split; [lia|done]|].
      intros [Hk Hv]. split; [|done].
      destruct (decide (i = k)) as [->|?]; [|lia].
      destruct Hv as (y & Hy & Hp). rewrite Nat.sub_diag in Hy.
      injection Hy as <-. congruence.
Qed.

Lemma elem_of_np_where p l i : i ∈ np_where p l ↔ valid_at p l i.
Proof.
  unfold np_where. rewrite elem_of_where_from, Nat.sub_0_r.
  split; [by intros [_ ?]|]. intros ?. split; [lia|done].
Qed.

Lemma np_where_nil p l : np_where p l = [] ↔ ∀ x, x ∈ l → p x = false.
Proof.
  split.
  - intros Hnil x [i Hi]%list_elem_of_lookup.
    destruct (p x) eqn:Hp; [|done].
    assert (i ∈ np_where p l) as Hin by (apply elem_of_np_where; by exists x).
    rewrite Hnil in Hin. by apply elem_of_nil in Hin.
  - intros Hall. destruct (np_where p l) as [|i ks] eqn:E; [done|].
    assert (i ∈ np_where p l) as Hin by (rewrite E; left).
    apply elem_of_np_where in Hin as (x & Hx & Hp).
    rewrite Hall in Hp; [done|]. apply list_elem_of_lookup. by exists i.
Qed.

Lemma foldr_min_spec (d : nat) (ks : list nat) :
  foldr Nat.min d ks ∈ d :: ks ∧ ∀ i, i ∈ d :: ks → foldr Nat.min d ks ≤ i.
Proof.
  induction ks as [|k ks [IHin IHle]]; cbn [foldr].
  - split; [left|]. by intros i ->%list_elem_of_singleton.
  - split.
    + destruct (Nat.min_spec k (foldr Nat.min d ks)) as [[_ ->]|[_ ->]].
      * right. left.
      * apply elem_of_cons in IHin as [->|?]; [left|]. by do 2 right.
    + intros i Hi. assert (i = k ∨ i ∈ d :: ks) as [->|Hi'].
      { apply elem_of_cons in Hi as [->|Hi]; [right; left|].
        apply elem_of_cons in Hi as [->|Hi]; [by left|right; by right]. }
      * lia.
      * specialize (IHle i Hi'). lia.
Qed.

Lemma np_min_spec (ks : list nat) :
  ks ≠ [] → np_min ks ∈ ks ∧ ∀ i, i ∈ ks → np_min ks ≤ i.
Proof.
  destruct ks as [|k ks]; [done|]. intros _.
  change (np_min (k :: ks)) with (foldr Nat.min k (k :: ks)).
  pose proof (foldr_min_spec k (k :: ks)) as [Hin Hle]. split.
  - apply elem_of_cons in Hin as [->|?]; [left|done].
  - intros i Hi. apply Hle. by right.
Qed.

Lemma np_max_spec (ks : list nat) :
  ks ≠ [] → np_max ks ∈ ks ∧ ∀ i, i ∈ ks → i ≤ np_max ks.
Proof.
  unfold np_max. induction ks as [|k ks IH]; [done|]. intros _. cbn [foldr].
  destruct ks as [|k' ks].
  - cbn. rewrite Nat.max_0_r. split; [left|]. by intros i ->%list_elem_of_singleton.
  - destruct IH as [IHin IHle]; [done|]. split.
    + destruct (Nat.max_spec k (foldr Nat.max 0 (k' :: ks))) as [[_ ->]|[_ ->]].
      * by right.
      * left.
    + intros i [->|Hi]%elem_of_cons; [lia|]. specialize (IHle i Hi). lia.
Qed.

Lemma np_where_range p l :
  np_where p l ≠ [] → index_range p l (np_min (np_where p l)) (np_max (np_where p l)).
Proof.
  intros Hne. destruct (np_min_spec _ Hne) as [Hmin Hle].
  destruct (np_max_spec _ Hne) as [Hmax Hge].
  split_and!; [by apply elem_of_np_where..|].
  intros k Hk%elem_of_np_where. split; [by apply Hle|by apply Hge].
Qed.

Lemma index_range_le p l i j : index_range p l i j → i ≤ j < length l.
Proof.
  intros (Hi & Hj & Hall). split; [by apply (Hall i)|].
  destruct Hj as (x & Hx & _). by apply lookup_lt_Some in Hx.
Qed.

Lemma elem_of_slice (i j : nat) l x :
  x ∈ slice i (j + 1) l ↔ ∃ k, i ≤ k ≤ j ∧ l !! k = Some x.
Proof.
  unfold slice. rewrite list_elem_of_lookup. split.
  - intros [k Hk]. apply lookup_take_Some in Hk as [Hk Hlt].
    rewrite lookup_drop in Hk. exists (i + k). split; [lia|done].
  - intros (k & Hk & Hx). exists (k - i). apply lookup_take_Some.
    rewrite lookup_drop. replace (i + (k - i)) with k by lia. split; [done|lia].
Qed.

End IndexRange.

(** * The loader *)

Section Loader.
Import Sample SampleFacts.

Lemma in_range_spec lo hi x : in_range lo hi x = true ↔ (lo ≤ x ∧ x ≤ hi)%Qc.
Proof. unfold in_range. by rewrite andb_true_iff, !Qc_leb_le. Qed.

Lemma length_eqb_zero {A} (l : list A) : (length l =? 0) = true ↔ l = [].
Proof. destruct l; cbn; split; done. Qed.

Lemma load_tile_None_iff s n w e f :
  load_tile (s, n, w, e) f = None
  ↔ (∀ x, x ∈ file_lon f → in_range w e x = false)
    ∨ (∀ x, x ∈ file_lat f → in_range s n x = false).
Proof.
  rewrite <-!np_where_nil, <-!length_eqb_zero, <-orb_true_iff.
  unfold load_tile. destruct (_ || _); split; done.
Qed.

Lemma load_tile_Some s n w e f t :
  load_tile (s, n, w, e) f = Some t →
  ∃ first_lat last_lat first_lon last_lon,
    index_range (in_range s n) (file_lat f) first_lat last_lat
    ∧ index_range (in_range w e) (file_lon f) first_lon last_lon
    ∧ t = {| values := slice2 first_lat (last_lat + 1) first_lon (last_lon + 1)
                         (mmap mask_negative (NearNadir_Composite_Snow_Free f));
             lat := slice first_lat (last_lat + 1) (file_lat f);
             lon := slice first_lon (last_lon + 1) (file_lon f) |}.
Proof.
  unfold load_tile.
  destruct (_ || _) eqn:E; [done|]. intros [= <-].
  apply orb_false_iff in E as [Elon Elat].
  do 4 eexists. split_and!; [| |done]; apply np_where_range; intros Hnil.
  - rewrite Hnil in Elat. discriminate Elat.
  - rewrite Hnil in Elon. discriminate Elon.
Qed.

Lemma StronglySorted_lookup {A} (R : relation A) (Hrefl : ∀ x, R x x)
    (l : list A) i j x y :
  StronglySorted R l → i ≤ j → l !! i = Some x → l !! j = Some y → R x y.
Proof.
  intros Hl. revert i j. induction Hl as [|z l _ IH Hz]; intros i j Hij Hx Hy; [done|].
  destruct i as [|i], j as [|j]; try lia; cbn in Hx, Hy.
  - injection Hx as <-. injection Hy as <-. apply Hrefl.
  - injection Hx as <-. rewrite Forall_forall in Hz. apply Hz.
    apply list_elem_of_lookup. by exists j.
  - apply (IH i j); [lia|done..].
Qed.

(** On a monotone vector every entry between the first and the last
    entry within the bounds is within the bounds. *)
Lemma slice_within lo hi l i j x :
  monotone l → index_range (in_range lo hi) l i j →
  x ∈ slice i (j + 1) l → (lo ≤ x ∧ x ≤ hi)%Qc.
Proof.
  intros Hmono ((xi & Hxi & Hpi) & (xj & Hxj & Hpj) & _) (k & Hk & Hx)%elem_of_slice.
  apply in_range_spec in Hpi as [Hi1 Hi2]. apply in_range_spec in Hpj as [Hj1 Hj2].
  destruct Hmono as [Hup|Hdown].
  - pose proof (StronglySorted_lookup Qcle Qcle_refl _ i k xi x Hup (proj1 Hk) Hxi Hx) as Ha.
    pose proof (StronglySorted_lookup Qcle Qcle_refl _ k j x xj Hup (proj2 Hk) Hx Hxj) as Hb.
    split; [exact (Qcle_trans _ _ _ Hi1 Ha)|exact (Qcle_trans _ _ _ Hb Hj2)].
  - pose proof (StronglySorted_lookup (flip Qcle) Qcle_refl _ i k xi x Hdown (proj1 Hk) Hxi Hx) as Ha.
    pose proof (StronglySorted_lookup (flip Qcle) Qcle_refl _ k j x xj Hdown (proj2 Hk) Hx Hxj) as Hb.
    split; [exact (Qcle_trans _ _ _ Hj1 Hb)|exact (Qcle_trans _ _ _ Ha Hi2)].
Qed.

Lemma length_slice {A} (i j : nat) (l : list A) :
  length (slice i j l) = Nat.min (j - i) (length l - i).
Proof. unfold slice. by rewrite length_take, length_drop. Qed.

Lemma wf_slice2 r0 r1 c0 c1 m : wf_matrix m → wf_matrix (slice2 r0 r1 c0 c1 m).
Proof.
  unfold wf_matrix, slice2, slice at 2. cbn [rows ncols]. intros Hwf.
  apply Forall_fmap, Forall_take, Forall_drop.
  eapply Forall_impl; [exact Hwf|]. intros r Hr. cbn.
  rewrite length_slice, Hr. lia.
Qed.

(** The loader's tiles are aligned, given files that are. *)
Lemma load_tile_aligned coords f t :
  file_aligned f → load_tile coords f = Some t → wf_matrix (values t) ∧ aligned t.
Proof.
  destruct coords as [[[s n] w] e]. intros (Hwf & Hr & Hc) Ht.
  apply load_tile_Some in Ht as (i & j & k & l & _ & _ & ->). cbn [values lat lon].
  split; [by apply wf_slice2, wf_mmap|].
  unfold aligned, nrows, slice2, mmap. cbn [values lat lon rows ncols].
  unfold nrows in Hr. rewrite length_fmap, !length_slice, length_fmap, Hr, Hc. lia.
Qed.

Lemma load_tile_inhabited coords f t :
  load_tile coords f = Some t → lat t ≠ [] ∧ lon t ≠ [].
Proof.
  destruct coords as [[[s n] w] e].
  intros (i & j & k & l & Hlat & Hlon & ->)%load_tile_Some. cbn [lat lon].
  apply index_range_le in Hlat, Hlon.
  split; intros Hnil%(f_equal length); rewrite length_slice in Hnil; cbn in Hnil; lia.
Qed.

Lemma load_loop_spec date_wanted coords files data_list :
  load_loop date_wanted coords files data_list
  = data_list ++ omap (load_file date_wanted coords) files.
Proof.
  revert data_list. induction files as [|f files IH]; intros data_list.
  - by rewrite app_nil_r.
  - cbn [load_loop omap list_omap]. unfold load_file at 1.
    destruct (String.eqb _ _); [destruct (load_tile coords f) as [t|]|];
      rewrite IH; cbn; [|done..].
    by rewrite <-app_assoc.
Qed.

(** Every tile the loader returns is aligned, given files that are. *)
Lemma load_data_for_date_aligned files date coords :
  Forall file_aligned files → Forall aligned (load_data_for_date files date coords).
Proof.
  intros Hfiles. unfold load_data_for_date.
  apply Forall_forall. intros t Ht.
  assert (t ∈ omap (load_file date coords) files) as Hin.
  { rewrite load_loop_spec, app_nil_l in Ht. revert Ht. generalize (omap (load_file date coords) files).
    intros l. induction l as [|x l IH]; [done|]. cbn [sorted foldr].
    intros Hx. assert (t ∈ x :: foldr insert_sorted [] l) as Hx'.
    { clear IH. revert Hx. generalize (foldr insert_sorted [] l). intros k.
      induction k as [|y k IHk]; [done|]. cbn [insert_sorted].
      destruct (key_lt _ _); [|done]. rewrite !elem_of_cons. intros [->|Hk]; [by right; left|].
      apply IHk in Hk. apply elem_of_cons in Hk as [->|?]; [by left|by right; right]. }
    apply elem_of_cons in Hx' as [->|?]; [left|right; by apply IH]. }
  apply list_elem_of_omap in Hin as (f & Hf & Hload). unfold load_file in Hload.
  destruct (String.eqb _ _); [|done]. rewrite Forall_forall in Hfiles.
  by destruct (load_tile_aligned coords f t (Hfiles f Hf) Hload).
Qed.

End Loader.

(** * The canonical order *)

Section Sorted.
Import Sample SampleFacts.
Local Open Scope Qc_scope.

Lemma key_lt_false a b : key_lt b a = false ↔ lex_le a b.
Proof.
  unfold key_lt, lex_le.
  rewrite orb_false_iff, andb_false_iff, !Qc_ltb_ge, Qc_eqb_neq. split.
  - intros [H1 H2]. destruct (Qcle_lt_or_eq _ _ H1) as [?|Heq]; [by left|].
    right. split; [done|]. by destruct H2.
  - intros [Hlt|[Heq Hle]].
    + split; [by apply Qclt_le_weak|]. left. intros E. symmetry in E.
      by apply Qclt_not_eq in Hlt.
    + split; [rewrite Heq; apply Qcle_refl|by right].
Qed.

Lemma lex_le_trans a b c : lex_le a b → lex_le b c → lex_le a c.
Proof.
  unfold lex_le. intros [H1|[E1 H1]] [H2|[E2 H2]].
  - left. by apply Qclt_trans with b.1.
  - left. by rewrite <-E2.
  - left. by rewrite E1.
  - right. split; [congruence|]. by apply Qcle_trans with b.2.
Qed.

Lemma lex_le_total a b : lex_le a b ∨ lex_le b a.
Proof.
  unfold lex_le. destruct (Qclt_le_dec a.1 b.1) as [?|Hle]; [by left; left|].
  destruct (Qcle_lt_or_eq _ _ Hle) as [?|Heq]; [by right; left|].
  destruct (Qclt_le_dec a.2 b.2) as [Hlt|?].
  - left. right. split; [done|]. by apply Qclt_le_weak.
  - right. by right.
Qed.

Lemma lex_le_antisym a b : lex_le a b → lex_le b a → a = b.
Proof.
  unfold lex_le. destruct a as [a1 a2], b as [b1 b2]. cbn.
  intros [H1|[E1 H1]] [H2|[E2 H2]].
  - destruct (Qclt_not_le _ _ H1). by apply Qclt_le_weak.
  - rewrite E2 in H1. by apply Qclt_not_eq in H1.
  - rewrite E1 in H2. by apply Qclt_not_eq in H2.
  - f_equal; [done|]. by apply Qcle_antisym.
Qed.

#[local] Instance key_le_trans : Transitive key_le.
Proof.
  intros t1 t2 t3. unfold key_le. rewrite !key_lt_false. apply lex_le_trans.
Qed.

Lemma key_le_total t1 t2 : key_le t1 t2 ∨ key_le t2 t1.
Proof. unfold key_le. rewrite !key_lt_false. apply lex_le_total. Qed.

Lemma key_le_antisym t1 t2 : key_le t1 t2 → key_le t2 t1 → sort_key t1 = sort_key t2.
Proof. unfold key_le. rewrite !key_lt_false. apply lex_le_antisym. Qed.

Lemma insert_sorted_Permutation x l : insert_sorted x l ≡ₚ x :: l.
Proof.
  induction l as [|y l IH]; [done|]. cbn [insert_sorted].
  destruct (key_lt _ _); [|done]. rewrite IH. apply perm_swap.
Qed.

Lemma sorted_Permutation l : sorted l ≡ₚ l.
Proof.
  induction l as [|x l IH]; [done|].
  cbn [sorted foldr]. rewrite insert_sorted_Permutation. by constructor.
Qed.

Lemma HdRel_insert_sorted y x l :
  key_le y x → HdRel key_le y l → HdRel key_le y (insert_sorted x l).
Proof.
  intros Hyx Hl. destruct Hl as [|z l Hz]; cbn [insert_sorted].
  - by constructor.
  - destruct (key_lt _ _); by constructor.
Qed.

Lemma insert_sorted_Sorted x l : Sorted key_le l → Sorted key_le (insert_sorted x l).
Proof.
  induction 1 as [|y l Hl IH Hy]; cbn [insert_sorted].
  - by repeat constructor.
  - destruct (key_lt (sort_key y) (sort_key x)) eqn:E.
    + constructor; [done|]. apply HdRel_insert_sorted; [|done].
      destruct (key_le_total y x) as [?|Hxy]; [done|].
      unfold key_le in Hxy. congruence.
    + constructor; [by constructor|]. by constructor.
Qed.

(** [sorted] returns its tiles in ascending key order. *)
Lemma sorted_StronglySorted l : StronglySorted key_le (sorted l).
Proof.
  apply Sorted_StronglySorted; [apply _|].
  induction l as [|x l IH]; [constructor|]. by apply insert_sorted_Sorted.
Qed.

Lemma NoDup_fmap_eq {A B} (f : A → B) (l : list A) x y :
  NoDup (f <$> l) → x ∈ l → y ∈ l → f x = f y → x = y.
Proof.
  induction l as [|z l IH]; [by intros _ ?%elem_of_nil|].
  rewrite fmap_cons, NoDup_cons. intros [Hz Hnd] Hx Hy Hf.
  apply elem_of_cons in Hx as [->|Hx]; apply elem_of_cons in Hy as [->|Hy].
  - done.
  - destruct Hz. rewrite Hf. by apply list_elem_of_fmap_2.
  - destruct Hz. rewrite <-Hf. by apply list_elem_of_fmap_2.
  - by apply IH.
Qed.

(** Two permutations of tiles with pairwise distinct keys sort to the
    same sequence. *)
Lemma sorted_unique l1 l2 :
  l1 ≡ₚ l2 → NoDup (sort_key <$> l1) → sorted l1 = sorted l2.
Proof.
  intros Hperm Hnd.
  apply (StronglySorted_unique_strong key_le); [|apply sorted_StronglySorted..|].
  - intros x1 x2 Hx1 Hx2 H12 H21.
    apply (NoDup_fmap_eq sort_key l1); [done| | |by apply key_le_antisym].
    + by rewrite <-(sorted_Permutation l1).
    + by rewrite Hperm, <-(sorted_Permutation l2).
  - by rewrite !sorted_Permutation.
Qed.

Lemma key_lt_irrefl k : key_lt k k = false.
Proof. apply key_lt_false. right. split; [done|apply Qcle_refl]. Qed.

Lemma filter_key_insert_sorted k x l :
  filter (λ t, sort_key t = k) (insert_sorted x l)
  = filter (λ t, sort_key t = k) (x :: l).
Proof.
  induction l as [|y l IH]; [done|]. cbn [insert_sorted].
  destruct (key_lt (sort_key y) (sort_key x)) eqn:E; [|done].
  assert (sort_key y ≠ sort_key x) as Hne.
  { intros Heq. rewrite Heq, key_lt_irrefl in E. done. }
  destruct (decide (sort_key y = k)) as [Hy|Hy].
  - rewrite (filter_cons_True _ y) by done. rewrite IH.
    rewrite (filter_cons_False _ x) by congruence.
    rewrite (filter_cons_False _ x) by congruence.
    by rewrite (filter_cons_True _ y).
  - rewrite (filter_cons_False _ y) by done. rewrite IH.
    destruct (decide (sort_key x = k)).
    + rewrite !(filter_cons_True _ x) by done. by rewrite (filter_cons_False _ y).
    + rewrite !(filter_cons_False _ x) by done. by rewrite (filter_cons_False _ y).
Qed.

Lemma filter_key_sorted k l :
  filter (λ t, sort_key t = k) (sorted l) = filter (λ t, sort_key t = k) l.
Proof.
  induction l as [|x l IH]; [done|]. cbn [sorted foldr].
  rewrite filter_key_insert_sorted. fold (sorted l).
  destruct (decide (sort_key x = k)).
  - rewrite !(filter_cons_True _ x) by done. by rewrite IH.
  - rewrite !(filter_cons_False _ x) by done. by rewrite IH.
Qed.

(** In terms of the coordinates themselves: first latitudes ascend, and
    among equal first latitudes first longitudes ascend. *)
Lemma sorted_lex l :
  StronglySorted (λ t1 t2, lex_le (sort_key t1) (sort_key t2)) (sorted l).
Proof.
  induction (sorted_StronglySorted l) as [|t k _ IH Hall]; constructor; [done|].
  eapply Forall_impl; [exact Hall|]. intros t' Ht'. by apply key_lt_false.
Qed.

End Sorted.

Section LoaderProperties.
Import Sample SampleFacts Examples LoaderExamples.

(** C3 (as amended).  The tiles [load_data_for_date] returns are exactly
    the cropped tiles of the files of the wanted date.  A file is
    skipped, without error, exactly when no latitude or no longitude is
    within its bounds.  Otherwise grid and coordinate vectors are cropped
    to the index range from the first to the last latitude within
    [[south, north]] and from the first to the last longitude within
    [[west, east]], both ends included; when the coordinate vector is
    monotone, every retained coordinate lies within its bounds. *)
Theorem load_data_for_date_trim (files : list h5file) (date : string) (s n w e : Qc) :
  (∀ t, t ∈ load_data_for_date files date (s, n, w, e)
        ↔ ∃ f, f ∈ files ∧ RangeEndingDate f = date ∧ load_tile (s, n, w, e) f = Some t)
  ∧ ∀ f,
      (load_tile (s, n, w, e) f = None
       ↔ (∀ x, x ∈ file_lat f → in_range s n x = false)
         ∨ (∀ x, x ∈ file_lon f → in_range w e x = false))
      ∧ ∀ t, load_tile (s, n, w, e) f = Some t →
          (∃ first_lat last_lat first_lon last_lon,
             index_range (in_range s n) (file_lat f) first_lat last_lat
             ∧ index_range (in_range w e) (file_lon f) first_lon last_lon
             ∧ t = {| values := slice2 first_lat (last_lat + 1) first_lon (last_lon + 1)
                                  (mmap mask_negative (NearNadir_Composite_Snow_Free f));
                      lat := slice first_lat (last_lat + 1) (file_lat f);
                      lon := slice first_lon (last_lon + 1) (file_lon f) |})
          ∧ (monotone (file_lat f) → ∀ x, x ∈ lat t → (s ≤ x ∧ x ≤ n)%Qc)
          ∧ (monotone (file_lon f) → ∀ x, x ∈ lon t → (w ≤ x ∧ x ≤ e)%Qc).
Proof.
  split.
  - intros t. unfold load_data_for_date.
    rewrite sorted_Permutation, load_loop_spec, app_nil_l, list_elem_of_omap.
    unfold load_file. split.
    + intros (f & Hf & Ht). exists f.
      destruct (String.eqb_spec (RangeEndingDate f) date); [done|done].
    + intros (f & Hf & <- & Ht). exists f. by rewrite String.eqb_refl.
  - intros f. split.
    + rewrite load_tile_None_iff. tauto.
    + intros t Ht. pose proof (load_tile_Some _ _ _ _ _ _ Ht) as Hcrop.
      split; [exact Hcrop|].
      destruct Hcrop as (i & j & k & l & Hlat & Hlon & ->). cbn [lat lon].
      split; intros Hmono x Hx; by eapply slice_within.
Qed.

Lemma load_data_for_date_trim_witness :
  monotone (file_lat file_west)
  ∧ load_data_for_date [file_far; file_east; file_west] date1 box =
      [ {| values := grid [[NaN; n 0]; [n 0; n 9]];
           lat := [q 23; q 22]; lon := [q 20; q 21] |};
        {| values := grid [[n 4; n 5]; [n 7; n 8]];
           lat := [q 23; q 22]; lon := [q 22; q 23] |} ]
  ∧ load_tile box file_far = None.
Proof.
  assert (Hmono : monotone (file_lat file_west)).
  { right. repeat constructor; by vm_compute. }
  split; [exact Hmono|]. split; [by_evaluation|].
  apply (proj1 (proj2 (load_data_for_date_trim [file_far; file_east; file_west] date1
                         (q 22) (q 23) (q 20) (q 23)) file_far)).
  left. intros x ->%list_elem_of_singleton. reflexivity.
Defined.

(** C3 fails as stated for a coordinate vector that is not monotone:
    the crop keeps every row from the first to the last latitude within
    the bounds, here the latitude 50 between 10 and 12. *)
Lemma load_data_for_date_trim_counterexample :
  load_data_for_date [file_bent] date1 sudan =
    [ {| values := grid [[n 1; n 2]; [n 3; n 4]; [n 5; n 6]];
         lat := [q 10; q 50; q 12]; lon := [q 21; q 22] |} ]
  ∧ in_range (q 9) (q 23) (q 50) = false
  ∧ ¬ (∀ t, t ∈ load_data_for_date [file_bent] date1 sudan →
            ∀ x, x ∈ lat t → in_range (q 9) (q 23) x = true).
Proof.
  assert (Hrun : load_data_for_date [file_bent] date1 sudan =
    [ {| values := grid [[n 1; n 2]; [n 3; n 4]; [n 5; n 6]];
         lat := [q 10; q 50; q 12]; lon := [q 21; q 22] |} ]) by by_evaluation.
  split; [exact Hrun|]. split; [reflexivity|].
  intros Hall. rewrite Hrun in Hall.
  specialize (Hall _ (list_elem_of_here _ _) (q 50)).
  cbn [lat] in Hall. discriminate Hall. right. left.
Qed.

(** C9 (as amended).  [load_data_for_date] returns its tiles in ascending
    order of (first latitude, first longitude): first latitudes never
    decrease along the result, and among equal first latitudes first
    longitudes never decrease.  Tiles that share both keep the order in
    which their files were discovered.  Hence two discovery orders of
    the same files give the same tile set whenever the keys of the loaded
    tiles are pairwise distinct. *)
Theorem load_data_for_date_order (files : list h5file) (date : string)
    (coords : bounds) :
  StronglySorted (λ t1 t2, lex_le (sort_key t1) (sort_key t2))
    (load_data_for_date files date coords)
  ∧ StronglySorted key_le (load_data_for_date files date coords)
  ∧ (∀ k, filter (λ t, sort_key t = k) (load_data_for_date files date coords)
          = filter (λ t, sort_key t = k) (omap (load_file date coords) files))
  ∧ (∀ files',
       files ≡ₚ files' →
       NoDup (sort_key <$> omap (load_file date coords) files) →
       load_data_for_date files date coords = load_data_for_date files' date coords).
Proof.
  split_and!.
  - apply sorted_lex.
  - apply sorted_StronglySorted.
  - intros k. unfold load_data_for_date.
    by rewrite filter_key_sorted, load_loop_spec, app_nil_l.
  - intros files' Hperm Hnd.
    unfold load_data_for_date. rewrite !load_loop_spec, !app_nil_l.
    apply sorted_unique; [|done]. by rewrite Hperm.
Qed.

Lemma load_data_for_date_order_witness :
  [file_far; file_east; file_west] ≡ₚ [file_west; file_far; file_east]
  ∧ NoDup (sort_key <$> omap (load_file date1 box) [file_far; file_east; file_west])
  ∧ load_data_for_date [file_far; file_east; file_west] date1 box
    = load_data_for_date [file_west; file_far; file_east] date1 box.
Proof.
  assert (H1 : [file_far; file_east; file_west] ≡ₚ [file_west; file_far; file_east]).
  { symmetry. apply (Permutation_app_comm [file_west] [file_far; file_east]). }
  assert (H2 : NoDup (sort_key <$> omap (load_file date1 box)
                        [file_far; file_east; file_west])) by by_evaluation.
  split; [exact H1|]. split; [exact H2|].
  exact (proj2 (proj2 (proj2 (load_data_for_date_order _ date1 box))) _ H1 H2).
Defined.

(** C9 fails as stated when two tiles share their first latitude and
    first longitude: the stable sort keeps them in discovery order. *)
Lemma load_data_for_date_order_counterexample :
  [file_copy 1; file_copy 2] ≡ₚ [file_copy 2; file_copy 1]
  ∧ load_data_for_date [file_copy 1; file_copy 2] date1 sudan
    ≠ load_data_for_date [file_copy 2; file_copy 1] date1 sudan.
Proof. split; [apply perm_swap|by_evaluation]. Qed.

End LoaderProperties.

(** * The differencer *)

Section Differencer.
Import Sample SampleFacts.

Lemma get_difference_data_prepared files dateEarly dateLater coords relative
    chunk_size normalize :
  get_difference_data files dateEarly dateLater coords relative chunk_size normalize
  = difference_loop relative
      (prepared files dateEarly coords chunk_size normalize)
      (prepared files dateLater coords chunk_size normalize).
Proof.
  unfold get_difference_data, prepared. destruct (1 <? chunk_size) eqn:E.
  - apply Nat.ltb_lt in E. rewrite !chunk_data_spec by lia. done.
  - done.
Qed.

Lemma broadcast_dim_sym a b : is_ok (broadcast_dim a b) = is_ok (broadcast_dim b a).
Proof.
  unfold broadcast_dim.
  destruct (Nat.eqb_spec a b), (Nat.eqb_spec b a), (Nat.eqb_spec a 1),
    (Nat.eqb_spec b 1); done || lia.
Qed.

Lemma elementwise_Ok_iff f x y :
  (∃ d, elementwise f x y = Ok d) ↔ broadcastable x y.
Proof.
  unfold elementwise, broadcastable.
  destruct (broadcast_dim (nrows x) (nrows y)) as [r|];
    destruct (broadcast_dim (ncols x) (ncols y)) as [c|]; cbn;
    split; try done; try (by intros [d ?]). by eexists.
Qed.

Lemma difference_Ok_iff relative a b :
  (∃ d, difference relative a b = Ok d) ↔ broadcastable a b.
Proof.
  assert (∀ x y, broadcastable x y ↔ broadcastable y x) as Hsym.
  { intros x y. unfold broadcastable.
    by rewrite (broadcast_dim_sym (nrows x)), (broadcast_dim_sym (ncols x)). }
  unfold difference. destruct relative; rewrite elementwise_Ok_iff, Hsym; [|done].
  unfold broadcastable.
  assert (nrows (mmap sentinel_denominator a) = nrows a) as ->; [|done].
  unfold nrows, mmap. cbn [rows]. apply length_fmap.
Qed.

(** What a successful run of the loop returns. *)
Lemma difference_loop_Ok relative l1 l2 out :
  difference_loop relative l1 l2 = Ok out →
  length out = Nat.min (length l1) (length l2)
  ∧ ∀ i t, out !! i = Some t →
      ∃ t1 t2, l1 !! i = Some t1 ∧ l2 !! i = Some t2
        ∧ difference relative (values t1) (values t2) = Ok (values t)
        ∧ lat t = lat t1 ∧ lon t = lon t1.
Proof.
  revert l2 out. induction l1 as [|t1 l1 IH]; intros l2 out.
  - intros [= <-]. split; [done|]. by intros i t ?.
  - destruct l2 as [|t2 l2].
    + intros [= <-]. split; [done|]. by intros i t ?.
    + cbn [difference_loop].
      destruct (difference relative (values t1) (values t2)) as [d|] eqn:Ed; [|done].
      cbn [mbind result_bind].
      destruct (difference_loop relative l1 l2) as [rest|] eqn:Erest; [|done].
      intros [= <-]. destruct (IH _ _ Erest) as [Hlen Hrest]. split.
      * cbn. by rewrite Hlen.
      * intros [|i] t Ht.
        -- injection Ht as <-. by exists t1, t2.
        -- by apply Hrest.
Qed.

(** The loop raises only if the operation on some pair does. *)
Lemma difference_loop_total relative l1 l2 :
  Forall (λ p, broadcastable (values p.1) (values p.2)) (zip l1 l2) →
  ∃ out, difference_loop relative l1 l2 = Ok out.
Proof.
  revert l2. induction l1 as [|t1 l1 IH]; intros l2 Hall; [by eexists|].
  destruct l2 as [|t2 l2]; [by eexists|].
  cbn [zip zip_with] in Hall. apply Forall_cons in Hall as [Hpair Hall].
  apply (difference_Ok_iff relative) in Hpair as [d Hd]. cbn [fst snd] in Hd.
  destruct (IH _ Hall) as [rest Hrest].
  cbn [difference_loop]. rewrite Hd. cbn [mbind result_bind]. rewrite Hrest.
  by eexists.
Qed.

End Differencer.

(** * Brightness values are never negative *)

Section NotNegative.
Import Sample SampleFacts.

Lemma not_negative_num p : not_negative (Num p) ↔ (0 ≤ p)%Qc.
Proof. apply Qc_ltb_ge. Qed.

Lemma add_not_negative x y : not_negative x → not_negative y → not_negative (add x y).
Proof.
  unfold not_negative.
  destruct x as [|a|p], y as [|b|q]; cbn [add ltb zero]; try done.
  - by intros -> ->.
  - intros Hp Hq. apply Qc_ltb_ge. apply Qc_ltb_ge in Hp, Hq.
    by apply Qcplus_nonneg_nonneg.
Qed.

Lemma sum_not_negative l : Forall not_negative l → not_negative (sum l).
Proof.
  induction 1 as [|x l Hx _ IH].
  - apply not_negative_num, Qcle_refl.
  - rewrite sum_cons. by apply add_not_negative.
Qed.

Lemma of_nat_not_negative k : not_negative (of_nat k).
Proof.
  apply not_negative_num. rewrite <-Z2Qc_inj_0.
  apply (proj1 (Z2Qc_inj_le 0 (Z.of_nat k))). lia.
Qed.

Lemma mean_not_negative l : Forall not_negative l → not_negative (mean l).
Proof.
  intros Hl. apply div_not_negative; [by apply sum_not_negative|].
  apply of_nat_not_negative.
Qed.

Lemma mask_negative_not_negative v : not_negative (mask_negative v).
Proof.
  unfold mask_negative, not_negative. by destruct (ltb v zero) eqn:E.
Qed.

Lemma Forall_flat (P : sample → Prop) m : Forall P (flat m) ↔ Forall (Forall P) (rows m).
Proof. unfold flat. apply Forall_concat. Qed.

Lemma Forall_flat_slice2 (P : sample → Prop) r0 r1 c0 c1 m :
  Forall P (flat m) → Forall P (flat (slice2 r0 r1 c0 c1 m)).
Proof.
  rewrite !Forall_flat. unfold slice2, slice. cbn [rows]. intros H.
  apply Forall_fmap, Forall_take, Forall_drop.
  eapply Forall_impl; [exact H|]. intros r Hr. cbn.
  by apply Forall_take, Forall_drop.
Qed.

Lemma elem_of_flat m v : v ∈ flat m → ∃ r c, cell m r c = Some v.
Proof.
  unfold flat, cell. intros Hin. apply list_elem_of_In, in_concat in Hin.
  destruct Hin as (row & Hrow & Hv).
  apply list_elem_of_In, list_elem_of_lookup in Hrow as [r Hr].
  apply list_elem_of_In, list_elem_of_lookup in Hv as [c Hc].
  exists r, c. by rewrite Hr.
Qed.

Lemma cell_bounds m r c v :
  wf_matrix m → cell m r c = Some v → r < nrows m ∧ c < ncols m.
Proof.
  unfold cell, wf_matrix, nrows. intros Hwf Hcell.
  destruct (rows m !! r) as [row|] eqn:Hr; [|done]. cbn in Hcell.
  split; [by eapply lookup_lt_Some|].
  rewrite Forall_lookup in Hwf. rewrite <-(Hwf _ _ Hr). by eapply lookup_lt_Some.
Qed.

Lemma load_tile_ok coords f t :
  wf_matrix (NearNadir_Composite_Snow_Free f) → load_tile coords f = Some t → tile_ok t.
Proof.
  destruct coords as [[[s n] w] e].
  intros Hwf (i & j & k & l & _ & _ & ->)%load_tile_Some. split; cbn [values].
  - by apply wf_slice2, wf_mmap.
  - apply Forall_flat_slice2. rewrite flat_mmap. apply Forall_fmap, Forall_true.
    intros v. apply mask_negative_not_negative.
Qed.

Lemma chunk_tile_ok n t t' : 0 < n → tile_ok t → chunk_tile n t = Some t' → tile_ok t'.
Proof.
  intros Hn [Hwf Hnn] Hchunk. unfold chunk_tile in Hchunk.
  destruct (block_average (values t) n) as [v|e] eqn:E; [|done].
  injection Hchunk as <-. cbn [values].
  assert (n ≤ nrows (values t) ∧ n ≤ ncols (values t)) as [Hr Hc].
  { destruct (decide (n ≤ nrows (values t))) as [?|?];
      [destruct (decide (n ≤ ncols (values t))) as [?|?]; [done|]|];
      rewrite block_average_small in E by lia; done. }
  destruct (block_average_cells _ _ Hwf Hn Hr Hc) as (out & Hout & Hshape & Hwf' & Hcell).
  rewrite E in Hout. injection Hout as <-. split; [done|].
  apply Forall_forall. intros x (a & b & Hx)%elem_of_flat.
  destruct (cell_bounds _ _ _ _ Hwf' Hx) as [Ha Hb].
  unfold shape in Hshape. injection Hshape as Hrows Hcols.
  rewrite Hcell in Hx by lia. injection Hx as <-.
  apply mean_not_negative. unfold block. by apply Forall_flat_slice2.
Qed.

Lemma normalize_data_ok ts : Forall tile_ok ts → Forall tile_ok (normalize_data ts).
Proof.
  intros Hts. assert (not_negative (sumLights ts)) as Hsum.
  { rewrite sumLights_all_values. apply sum_not_negative.
    unfold all_values. apply Forall_concat, Forall_fmap.
    eapply Forall_impl; [exact Hts|]. by intros t [_ ?]. }
  unfold normalize_data. apply Forall_fmap.
  eapply Forall_impl; [exact Hts|]. intros t [Hwf Hnn]. split; cbn [values].
  - by apply wf_mmap.
  - rewrite flat_mmap. apply Forall_fmap.
    eapply Forall_impl; [exact Hnn|]. intros v Hv. cbn.
    by apply div_not_negative.
Qed.

(** Every tile [get_difference_data] works on satisfies the invariant. *)
Lemma prepared_ok files date coords chunk_size normalize :
  Forall (λ f, wf_matrix (NearNadir_Composite_Snow_Free f)) files →
  Forall tile_ok (prepared files date coords chunk_size normalize).
Proof.
  intros Hfiles. unfold prepared.
  assert (Forall tile_ok (load_data_for_date files date coords)) as Hload.
  { unfold load_data_for_date. rewrite sorted_Permutation, load_loop_spec, app_nil_l.
    apply Forall_forall. intros t (f & Hf & Ht)%list_elem_of_omap.
    unfold load_file in Ht. destruct (String.eqb _ _); [|done].
    rewrite Forall_forall in Hfiles.
    eapply load_tile_ok; [exact (Hfiles f Hf)|exact Ht]. }
  assert (Forall tile_ok (if 1 <? chunk_size
                          then omap (chunk_tile chunk_size) (load_data_for_date files date coords)
                          else load_data_for_date files date coords)) as Hchunk.
  { destruct (1 <? chunk_size) eqn:E; [|done]. apply Nat.ltb_lt in E.
    apply Forall_forall. intros t' (t & Ht & Hc)%list_elem_of_omap.
    rewrite Forall_forall in Hload. eapply chunk_tile_ok; [|by apply Hload|done]. lia. }
  destruct normalize; [by apply normalize_data_ok|done].
Qed.

End NotNegative.

(** * Differences of two dates *)

Section DifferenceData.
Import Sample SampleFacts.

Lemma cell_elem_of_flat m r c v : cell m r c = Some v → v ∈ flat m.
Proof.
  unfold cell, flat. intros Hcell.
  destruct (rows m !! r) as [row|] eqn:Hr; [|done]. cbn in Hcell.
  apply list_elem_of_In, in_concat. exists row.
  split; apply list_elem_of_In, list_elem_of_lookup; eauto.
Qed.

(** The pairs the loop can process: the general statement behind the
    properties of [get_difference_data]. *)
Lemma difference_loop_pairs relative l1 l2 :
  Forall (λ p, broadcastable (values p.1) (values p.2)) (zip l1 l2) →
  ∃ out, difference_loop relative l1 l2 = Ok out
    ∧ length out = Nat.min (length l1) (length l2)
    ∧ ∀ i t1 t2, l1 !! i = Some t1 → l2 !! i = Some t2 →
        ∃ d, difference relative (values t1) (values t2) = Ok d
             ∧ out !! i = Some {| values := d; lat := lat t1; lon := lon t1 |}.
Proof.
  intros Hall. destruct (difference_loop_total relative _ _ Hall) as [out Hout].
  exists out. destruct (difference_loop_Ok _ _ _ _ Hout) as [Hlen Hpairs].
  split_and!; [done..|]. intros i t1 t2 H1 H2.
  destruct (lookup_lt_is_Some_2 out i) as [t Ht].
  { rewrite Hlen. apply lookup_lt_Some in H1, H2. lia. }
  destruct (Hpairs i t Ht) as (t1' & t2' & H1' & H2' & Hd & Hlat & Hlon).
  simplify_eq. exists (values t). split; [done|].
  rewrite Ht. destruct t. cbn in *. by subst.
Qed.

Lemma same_shape_broadcastable l1 l2 :
  Forall (λ p, shape (values p.1) = shape (values p.2)) (zip l1 l2) →
  Forall (λ p, broadcastable (values p.1) (values p.2)) (zip l1 l2).
Proof.
  intros H. eapply Forall_impl; [exact H|]. clear H. intros [t1 t2] Hs. cbn [fst snd] in *.
  unfold shape in Hs. injection Hs as Hr Hc. unfold broadcastable.
  by rewrite Hr, Hc, !broadcast_dim_same.
Qed.

(** Two prepared tile sets of pairwise equal shapes: the call returns,
    and each difference is computed cell by cell. *)
Lemma get_difference_data_same_shape files dateEarly dateLater coords relative
    chunk_size normalize :
  Forall (λ f, wf_matrix (NearNadir_Composite_Snow_Free f)) files →
  Forall (λ p, shape (values p.1) = shape (values p.2))
    (zip (prepared files dateEarly coords chunk_size normalize)
         (prepared files dateLater coords chunk_size normalize)) →
  ∃ out,
    get_difference_data files dateEarly dateLater coords relative chunk_size normalize
      = Ok out
    ∧ length out = Nat.min (length (prepared files dateEarly coords chunk_size normalize))
                           (length (prepared files dateLater coords chunk_size normalize))
    ∧ ∀ i t1 t2,
        prepared files dateEarly coords chunk_size normalize !! i = Some t1 →
        prepared files dateLater coords chunk_size normalize !! i = Some t2 →
        ∃ d, out !! i = Some {| values := d; lat := lat t1; lon := lon t1 |}
          ∧ shape d = shape (values t1)
          ∧ ∀ r c e l, cell (values t1) r c = Some e → cell (values t2) r c = Some l →
              cell d r c = Some (if relative then div l (sentinel_denominator e)
                                 else sub l e).
Proof.
  intros Hfiles Hshapes. rewrite get_difference_data_prepared.
  pose proof (prepared_ok files dateEarly coords chunk_size normalize Hfiles) as Hok1.
  pose proof (prepared_ok files dateLater coords chunk_size normalize Hfiles) as Hok2.
  destruct (difference_loop_pairs relative _ _ (same_shape_broadcastable _ _ Hshapes))
    as (out & Hout & Hlen & Hpairs).
  exists out. split_and!; [done..|]. intros i t1 t2 H1 H2.
  destruct (Hpairs i t1 t2 H1 H2) as (d & Hd & Hi).
  rewrite Forall_lookup in Hok1. rewrite Forall_lookup in Hok2.
  rewrite Forall_lookup in Hshapes.
  destruct (Hok1 _ _ H1) as [Hwf1 _]. destruct (Hok2 _ _ H2) as [Hwf2 _].
  assert (shape (values t1) = shape (values t2)) as Hs.
  { apply (Hshapes i (t1, t2)). by apply lookup_zip_Some. }
  destruct (difference_same_shape relative _ _ Hwf1 Hwf2 Hs) as (d' & Hd' & _ & Hsd & Hcells).
  rewrite Hd in Hd'. injection Hd' as <-. exists d. split_and!; assumption.
Qed.

End DifferenceData.

Section DifferenceProperties.
Import Sample SampleFacts Examples LoaderExamples.

Lemma opp_zero : opp zero = zero.
Proof. reflexivity. Qed.

(** C4 (as amended).  In relative mode, on two grids of one shape, a
    cell whose earlier value is exactly zero gets the negative of the
    later value (the denominator is the sentinel -1): that result is
    negative when the later value is positive and zero when the later
    value is zero.  Any other cell gets later / earlier, which is at
    least zero for a positive earlier value and a later value that is
    at least zero. *)
Theorem relative_difference_cells (light1 light2 : matrix) :
  wf_matrix light1 → wf_matrix light2 → shape light1 = shape light2 →
  ∃ d, difference true light1 light2 = Ok d
    ∧ shape d = shape light1
    ∧ ∀ r c e l, cell light1 r c = Some e → cell light2 r c = Some l →
        ∃ v, cell d r c = Some v
          ∧ (e = zero →
               v = opp l
               ∧ (ltb zero l = true → ltb v zero = true)
               ∧ (l = zero → v = zero))
          ∧ (e ≠ zero → v = div l e)
          ∧ (∀ p, e = Num p → (0 < p)%Qc → leb zero l = true → leb zero v = true).
Proof.
  intros H1 H2 Hs.
  destruct (difference_same_shape true _ _ H1 H2 Hs) as (d & Hd & _ & Hsd & Hcells).
  exists d. split_and!; [done..|]. intros r c e l He Hl.
  eexists. split; [by apply Hcells|]. split_and!.
  - intros ->. rewrite sentinel_zero, div_minus_one. split_and!; [done| |].
    + by rewrite ltb_opp_zero.
    + intros ->. apply opp_zero.
  - intros Hne. by rewrite sentinel_nonzero.
  - intros p -> Hp Hl0. rewrite sentinel_nonzero.
    + by apply ratio_nonneg.
    + intros [= ->]. by apply Qclt_not_eq in Hp.
Qed.

Lemma relative_difference_cells_witness :
  wf_matrix (grid [[n 0; n 2]]) ∧ wf_matrix (grid [[n 5; n 6]])
  ∧ ∃ d, difference true (grid [[n 0; n 2]]) (grid [[n 5; n 6]]) = Ok d
         ∧ shape d = shape (grid [[n 0; n 2]]).
Proof.
  assert (H1 : wf_matrix (grid [[n 0; n 2]])) by (repeat constructor).
  assert (H2 : wf_matrix (grid [[n 5; n 6]])) by (repeat constructor).
  split; [exact H1|]. split; [exact H2|].
  destruct (relative_difference_cells _ _ H1 H2 eq_refl) as (d & Hd & Hs & _).
  exists d. split; [exact Hd|exact Hs].
Defined.

(** Earlier 0 and later 5 give -5; earlier 2 and later 6 give 3. *)
Example relative_difference_sentinel :
  difference true (grid [[n 0; n 2]]) (grid [[n 5; n 6]]) = Ok (grid [[n (-5); n 3]]).
Proof. by_evaluation. Qed.

(** C4 fails as stated: on the sentinel path the result is not always
    negative.  Earlier 0 and later 0 give 0. *)
Lemma relative_difference_counterexample :
  difference true (grid [[n 0]]) (grid [[n 0]]) = Ok (grid [[n 0]])
  ∧ ltb (n 0) zero = false
  ∧ ¬ (∀ e l, e = zero → ltb (div l (sentinel_denominator e)) zero = true).
Proof.
  split_and!; [by_evaluation|reflexivity|].
  intros H. specialize (H zero zero eq_refl). discriminate H.
Qed.

(** C6 (as amended).  When the grids of each positional pair have shapes
    that can be broadcast together, [get_difference_data] returns
    exactly [min(len(setA), len(setB))] tiles, the [i]-th being the
    difference of the [i]-th tiles of the two prepared sets: a difference
    in tile count alone raises no error. *)
Theorem get_difference_data_truncates files dateEarly dateLater coords relative
    chunk_size normalize :
  Forall (λ p, broadcastable (values p.1) (values p.2))
    (zip (prepared files dateEarly coords chunk_size normalize)
         (prepared files dateLater coords chunk_size normalize)) →
  ∃ out,
    get_difference_data files dateEarly dateLater coords relative chunk_size normalize
      = Ok out
    ∧ length out = Nat.min (length (prepared files dateEarly coords chunk_size normalize))
                           (length (prepared files dateLater coords chunk_size normalize))
    ∧ ∀ i t1 t2,
        prepared files dateEarly coords chunk_size normalize !! i = Some t1 →
        prepared files dateLater coords chunk_size normalize !! i = Some t2 →
        ∃ d, difference relative (values t1) (values t2) = Ok d
             ∧ out !! i = Some {| values := d; lat := lat t1; lon := lon t1 |}.
Proof.
  intros Hall. rewrite get_difference_data_prepared.
  by apply difference_loop_pairs.
Qed.

Lemma get_difference_data_truncates_witness :
  length (prepared store date1 box 1 false) = 2
  ∧ length (prepared store date2 box 1 false) = 1
  ∧ ∃ out, get_difference_data store date1 date2 box false 1 false = Ok out
           ∧ length out = 1.
Proof.
  assert (H : Forall (λ p, broadcastable (values p.1) (values p.2))
                (zip (prepared store date1 box 1 false)
                     (prepared store date2 box 1 false))) by by_evaluation.
  split; [reflexivity|]. split; [reflexivity|].
  destruct (get_difference_data_truncates store date1 date2 box false 1 false H)
    as (out & Hout & Hlen & _).
  exists out. split; [exact Hout|exact Hlen].
Defined.

(** C6 fails as stated: with two tiles at one date and one at the other,
    the first pair has grids of 2 by 3 and 2 by 2, and the subtraction
    raises [ValueError] instead of returning one tile. *)
Lemma get_difference_data_truncates_counterexample :
  length (prepared store_narrow date1 wide 1 false) = 2
  ∧ length (prepared store_narrow date2 wide 1 false) = 1
  ∧ get_difference_data store_narrow date1 date2 wide false 1 false = Raise ValueError.
Proof. split_and!; by_evaluation. Qed.

(** C7.  In absolute mode every tile that [get_difference_data] returns
    carries the latitude and longitude vectors of the earlier date's tile
    at the same position, and its grid is numpy's [light2 - light1] of
    the later and the earlier grid.  On prepared tile sets whose paired
    grids have equal shapes the call returns, and each cell of a returned
    grid is the later value minus the earlier value: for an earlier
    number [x] and a later number [y] the cell is the number [y - x]. *)
Theorem absolute_difference files dateEarly dateLater coords chunk_size normalize :
  (∀ out,
     get_difference_data files dateEarly dateLater coords false chunk_size normalize
       = Ok out →
     ∀ i t, out !! i = Some t →
       ∃ t1 t2,
         prepared files dateEarly coords chunk_size normalize !! i = Some t1
         ∧ prepared files dateLater coords chunk_size normalize !! i = Some t2
         ∧ elementwise sub (values t2) (values t1) = Ok (values t)
         ∧ lat t = lat t1 ∧ lon t = lon t1)
  ∧ (Forall (λ f, wf_matrix (NearNadir_Composite_Snow_Free f)) files →
     Forall (λ p, shape (values p.1) = shape (values p.2))
       (zip (prepared files dateEarly coords chunk_size normalize)
            (prepared files dateLater coords chunk_size normalize)) →
     ∃ out,
       get_difference_data files dateEarly dateLater coords false chunk_size normalize
         = Ok out
       ∧ ∀ i t1 t2,
           prepared files dateEarly coords chunk_size normalize !! i = Some t1 →
           prepared files dateLater coords chunk_size normalize !! i = Some t2 →
           ∃ d, out !! i = Some {| values := d; lat := lat t1; lon := lon t1 |}
             ∧ shape d = shape (values t1)
             ∧ ∀ r c e l, cell (values t1) r c = Some e → cell (values t2) r c = Some l →
                 cell d r c = Some (sub l e)
                 ∧ ∀ x y : Qc, e = Num x → l = Num y →
                     cell d r c = Some (Num (y - x)%Qc)).
Proof.
  split.
  - intros out Hout i t Ht. rewrite get_difference_data_prepared in Hout.
    destruct (difference_loop_Ok _ _ _ _ Hout) as [_ Hpairs].
    destruct (Hpairs i t Ht) as (t1 & t2 & H1 & H2 & Hd & Hlat & Hlon).
    by exists t1, t2.
  - intros Hfiles Hshapes.
    destruct (get_difference_data_same_shape files dateEarly dateLater coords false
                chunk_size normalize Hfiles Hshapes) as (out & Hout & _ & Hpairs).
    exists out. split; [done|]. intros i t1 t2 H1 H2.
    destruct (Hpairs i t1 t2 H1 H2) as (d & Hd & Hshape & Hcell).
    exists d. split_and!; [done..|]. intros r c e l He Hl.
    split; [by apply Hcell|]. intros x y -> ->. by rewrite (Hcell r c _ _ He Hl).
Qed.

Lemma store_wf : Forall (λ f, wf_matrix (NearNadir_Composite_Snow_Free f)) store.
Proof. repeat constructor. Qed.

Lemma store_shapes :
  Forall (λ p, shape (values p.1) = shape (values p.2))
    (zip (prepared store date1 box 1 false) (prepared store date2 box 1 false)).
Proof. by_evaluation. Qed.

Lemma absolute_difference_witness :
  Forall (λ f, wf_matrix (NearNadir_Composite_Snow_Free f)) store
  ∧ ∃ out d, get_difference_data store date1 date2 box false 1 false = Ok out
      ∧ out !! 0 = Some {| values := d; lat := [q 23; q 22]; lon := [q 20; q 21] |}
      ∧ cell d 1 1 = Some (n 9).
Proof.
  split; [exact store_wf|].
  destruct (proj2 (absolute_difference store date1 date2 box 1 false) store_wf store_shapes)
    as (out & Hout & Hpairs).
  destruct (Hpairs 0
              {| values := grid [[NaN; n 0]; [n 0; n 9]];
                 lat := [q 23; q 22]; lon := [q 20; q 21] |}
              {| values := grid [[n 3; n 12]; [n 0; n 18]];
                 lat := [q 23; q 22]; lon := [q 20; q 21] |}
              ltac:(by_evaluation) ltac:(by_evaluation))
    as (d & Hd & _ & Hcell).
  exists out, d. split; [exact Hout|]. split; [exact Hd|].
  assert (E : Some (Num (q 18 - q 9)%Qc) = Some (n 9)) by by_evaluation.
  rewrite <-E.
  exact (proj2 (Hcell 1 1 (n 9) (n 18) eq_refl eq_refl) (q 9) (q 18) eq_refl eq_refl).
Defined.

Example absolute_difference_store :
  get_difference_data store date1 date2 box false 1 false
  = Ok [ {| values := grid [[NaN; n 12]; [n 0; n 9]];
            lat := [q 23; q 22]; lon := [q 20; q 21] |} ].
Proof. by_evaluation. Qed.

(** C10.  In relative mode, on prepared tile sets whose paired grids
    have equal shapes, a cell whose earlier and later values are both
    zero yields zero, and a result is strictly negative exactly when the
    earlier value is zero and the later value is strictly positive. *)
Theorem relative_difference_sign files dateEarly dateLater coords chunk_size normalize :
  Forall (λ f, wf_matrix (NearNadir_Composite_Snow_Free f)) files →
  Forall (λ p, shape (values p.1) = shape (values p.2))
    (zip (prepared files dateEarly coords chunk_size normalize)
         (prepared files dateLater coords chunk_size normalize)) →
  ∃ out,
    get_difference_data files dateEarly dateLater coords true chunk_size normalize
      = Ok out
    ∧ ∀ i t1 t2,
        prepared files dateEarly coords chunk_size normalize !! i = Some t1 →
        prepared files dateLater coords chunk_size normalize !! i = Some t2 →
        ∃ d, out !! i = Some {| values := d; lat := lat t1; lon := lon t1 |}
          ∧ ∀ r c e l, cell (values t1) r c = Some e → cell (values t2) r c = Some l →
              ∃ v, cell d r c = Some v
                ∧ (e = zero → l = zero → v = zero)
                ∧ (ltb v zero = true ↔ e = zero ∧ ltb zero l = true).
Proof.
  intros Hfiles Hshapes.
  destruct (get_difference_data_same_shape files dateEarly dateLater coords true
              chunk_size normalize Hfiles Hshapes) as (out & Hout & _ & Hpairs).
  exists out. split; [done|]. intros i t1 t2 H1 H2.
  destruct (Hpairs i t1 t2 H1 H2) as (d & Hi & _ & Hcells).
  exists d. split; [done|]. intros r c e l He Hl.
  eexists. split; [by apply Hcells|].
  pose proof (prepared_ok files dateEarly coords chunk_size normalize Hfiles) as Hok1.
  pose proof (prepared_ok files dateLater coords chunk_size normalize Hfiles) as Hok2.
  rewrite Forall_lookup in Hok1. rewrite Forall_lookup in Hok2.
  destruct (Hok1 _ _ H1) as [_ Hnn1]. destruct (Hok2 _ _ H2) as [_ Hnn2].
  rewrite Forall_forall in Hnn1. rewrite Forall_forall in Hnn2.
  pose proof (Hnn1 e (cell_elem_of_flat _ _ _ _ He)) as Hnne.
  pose proof (Hnn2 l (cell_elem_of_flat _ _ _ _ Hl)) as Hnnl.
  split.
  - intros -> ->. rewrite sentinel_zero, div_minus_one. apply opp_zero.
  - by apply relative_negative_iff.
Qed.

Lemma relative_difference_sign_witness :
  Forall (λ f, wf_matrix (NearNadir_Composite_Snow_Free f)) store
  ∧ ∃ out, get_difference_data store date1 date2 box true 1 false = Ok out.
Proof.
  split; [exact store_wf|].
  destruct (relative_difference_sign store date1 date2 box 1 false store_wf store_shapes)
    as (out & Hout & _).
  exists out. exact Hout.
Defined.

(** Earlier [[NaN, 0], [0, 9]] and later [[3, 12], [0, 18]]. *)
Example relative_difference_store :
  get_difference_data store date1 date2 box true 1 false
  = Ok [ {| values := grid [[NaN; n (-12)]; [n 0; n 2]];
            lat := [q 23; q 22]; lon := [q 20; q 21] |} ].
Proof. by_evaluation. Qed.

End DifferenceProperties.

(** * The catalogue of dates *)

Section AvailableDates.
Import Examples LoaderExamples.

Lemma dates_fold (acc : gset string) (files : list h5file) :
  foldl (λ (dates : gset string) f,
           let date := RangeEndingDate f in
           if decide (date ∈ dates) then dates else dates ∪ {[date]}) acc files
  = acc ∪ list_to_set (RangeEndingDate <$> files).
Proof.
  revert acc. induction files as [|f files IH]; intros acc.
  - cbn. by rewrite (right_id_L ∅ (∪)).
  - cbn [foldl]. rewrite IH, fmap_cons. cbn [list_to_set]. cbv zeta.
    destruct (decide (RangeEndingDate f ∈ acc)) as [Hin|Hin].
    + rewrite (assoc_L (∪)). f_equal. apply set_eq. intros d.
      rewrite elem_of_union, elem_of_singleton. split; [by left|].
      by intros [?| ->].
    + by rewrite (assoc_L (∪)).
Qed.

Lemma load_available_dates_Permutation files :
  load_available_dates files
  ≡ₚ elements (list_to_set (RangeEndingDate <$> files) : gset string).
Proof.
  unfold load_available_dates. rewrite merge_sort_Permutation, dates_fold.
  by rewrite (left_id_L ∅ (∪)).
Qed.

(** X1.  [load_available_dates] returns exactly the dates that some file
    of the store carries, each once, in ascending order. *)
Theorem load_available_dates_sorted_set (files : list h5file) :
  (∀ d, d ∈ load_available_dates files ↔ ∃ f, f ∈ files ∧ RangeEndingDate f = d)
  ∧ NoDup (load_available_dates files)
  ∧ StronglySorted String.le (load_available_dates files).
Proof.
  split_and!.
  - intros d. rewrite load_available_dates_Permutation, elem_of_elements,
      elem_of_list_to_set, list_elem_of_fmap. split.
    + intros (f & -> & Hf). by exists f.
    + intros (f & Hf & <-). by exists f.
  - rewrite load_available_dates_Permutation. apply NoDup_elements.
  - unfold load_available_dates. apply StronglySorted_merge_sort; apply _.
Qed.

(** X2.  The catalogue depends only on which dates occur in the store: not
    on the order in which the files are discovered, nor on how many files
    carry a date. *)
Theorem load_available_dates_order (files files' : list h5file) :
  (∀ d, d ∈ RangeEndingDate <$> files ↔ d ∈ RangeEndingDate <$> files') →
  load_available_dates files = load_available_dates files'.
Proof.
  intros Hsame. unfold load_available_dates. rewrite !dates_fold. do 2 f_equal.
  apply set_eq. intros d. rewrite !elem_of_union, !elem_of_list_to_set. by rewrite Hsame.
Qed.

Lemma load_available_dates_order_witness :
  (∀ d, d ∈ RangeEndingDate <$> [file_west; file_later; file_east]
        ↔ d ∈ RangeEndingDate <$> [file_later; file_east])
  ∧ load_available_dates [file_west; file_later; file_east]
    = load_available_dates [file_later; file_east].
Proof.
  assert (H : ∀ d, d ∈ RangeEndingDate <$> [file_west; file_later; file_east]
                   ↔ d ∈ RangeEndingDate <$> [file_later; file_east]).
  { intros d. cbn. rewrite !elem_of_cons. tauto. }
  split; [exact H|]. exact (load_available_dates_order _ _ H).
Defined.

Example load_available_dates_store :
  load_available_dates store = [date1; date2].
Proof. by vm_compute. Qed.

End AvailableDates.

(** * The crop keeps grid and coordinates registered *)

Section Crop.
Import Sample SampleFacts Examples LoaderExamples.

Lemma lookup_slice {A} (a b i : nat) (l : list A) :
  i < b - a → slice a b l !! i = l !! (a + i).
Proof. intros Hi. unfold slice. by rewrite lookup_take_lt, lookup_drop. Qed.

Lemma cell_slice2 r0 r1 c0 c1 m i j :
  i < r1 - r0 → j < c1 - c0 →
  cell (slice2 r0 r1 c0 c1 m) i j = cell m (r0 + i) (c0 + j).
Proof.
  intros Hi Hj. unfold cell, slice2. cbn [rows].
  rewrite list_lookup_fmap, lookup_slice by done.
  destruct (rows m !! (r0 + i)) as [row|]; [|done]. cbn. by apply lookup_slice.
Qed.

(** X3.  A tile that [load_data_for_date] returns is a window of one file
    of the wanted date: row [r] of its grid carries the latitude of the
    file's row [first_lat + r], column [c] the longitude of the file's
    column [first_lon + c], and the value at [(r, c)] is the file's value
    there, replaced by NaN when it is negative.  No returned value is
    negative. *)
Theorem load_data_for_date_window (files : list h5file) (date : string)
    (coords : bounds) (t : tile) :
  t ∈ load_data_for_date files date coords →
  ∃ f first_lat first_lon,
    f ∈ files ∧ RangeEndingDate f = date
    ∧ (∀ r, r < length (lat t) → lat t !! r = file_lat f !! (first_lat + r))
    ∧ (∀ c, c < length (lon t) → lon t !! c = file_lon f !! (first_lon + c))
    ∧ (∀ r c, r < length (lat t) → c < length (lon t) →
         cell (values t) r c
         = mask_negative <$> cell (NearNadir_Composite_Snow_Free f)
                               (first_lat + r) (first_lon + c))
    ∧ Forall not_negative (flat (values t)).
Proof.
  destruct coords as [[[s n] w] e]. unfold load_data_for_date.
  rewrite sorted_Permutation, load_loop_spec, app_nil_l.
  intros (f & Hf & Hload)%list_elem_of_omap. unfold load_file in Hload.
  destruct (String.eqb_spec (RangeEndingDate f) date) as [Hdate|]; [|done].
  destruct (load_tile_Some _ _ _ _ _ _ Hload) as (i & j & k & l & Hlat & Hlon & ->).
  exists f, i, k. cbn [lat lon values]. split_and!; [done..| | | |].
  - intros r Hr. rewrite length_slice in Hr. apply lookup_slice. lia.
  - intros c Hc. rewrite length_slice in Hc. apply lookup_slice. lia.
  - intros r c Hr Hc. rewrite length_slice in Hr, Hc.
    rewrite cell_slice2 by lia. apply cell_mmap.
  - apply Forall_flat_slice2. rewrite flat_mmap. apply Forall_fmap, Forall_true.
    intros v. apply mask_negative_not_negative.
Qed.

Lemma load_data_for_date_window_witness :
  ∃ t, t ∈ load_data_for_date [file_far; file_east; file_west] date1 box
       ∧ Forall not_negative (flat (values t)).
Proof.
  eexists. assert (H : {| values := grid [[NaN; n 0]; [n 0; n 9]];
                          lat := [q 23; q 22]; lon := [q 20; q 21] |}
                       ∈ load_data_for_date [file_far; file_east; file_west] date1 box).
  { vm_compute. left. }
  split; [exact H|].
  destruct (load_data_for_date_window _ _ _ _ H) as (f & i & k & _ & _ & _ & _ & _ & Hnn).
  exact Hnn.
Defined.

(** X4.  On files whose grid has one row per latitude and one column per
    longitude, every tile that [load_data_for_date] returns is aligned
    with its coordinate vectors and has at least one row and one
    column. *)
Theorem load_data_for_date_tiles (files : list h5file) (date : string)
    (coords : bounds) :
  Forall file_aligned files →
  Forall (λ t, wf_matrix (values t) ∧ aligned t
               ∧ 1 ≤ nrows (values t) ∧ 1 ≤ ncols (values t))
    (load_data_for_date files date coords).
Proof.
  intros Hfiles. apply Forall_forall. intros t.
  unfold load_data_for_date. rewrite sorted_Permutation, load_loop_spec, app_nil_l.
  intros (f & Hf & Hload)%list_elem_of_omap. unfold load_file in Hload.
  destruct (String.eqb _ _); [|done].
  rewrite Forall_forall in Hfiles.
  destruct (load_tile_aligned _ _ _ (Hfiles f Hf) Hload) as [Hwf [Hr Hc]].
  destruct (load_tile_inhabited _ _ _ Hload) as [Hlat Hlon].
  split_and!; [done|done| |].
  - rewrite Hr. destruct (lat t); [done|cbn; lia].
  - rewrite Hc. destruct (lon t); [done|cbn; lia].
Qed.

Lemma load_data_for_date_tiles_witness :
  Forall file_aligned [file_far; file_east; file_west]
  ∧ Forall (λ t, wf_matrix (values t) ∧ aligned t
                 ∧ 1 ≤ nrows (values t) ∧ 1 ≤ ncols (values t))
      (load_data_for_date [file_far; file_east; file_west] date1 box).
Proof.
  assert (H : Forall file_aligned [file_far; file_east; file_west]).
  { repeat constructor. }
  split; [exact H|]. exact (load_data_for_date_tiles _ date1 box H).
Defined.

End Crop.

(** * The sort is stable *)

Section Stable.

(** X5.  The tiles of [load_data_for_date] that share a first latitude and
    a first longitude come out in the order in which their files were
    discovered. *)
Theorem load_data_for_date_stable (files : list h5file) (date : string)
    (coords : bounds) (k : Qc * Qc) :
  filter (λ t, sort_key t = k) (load_data_for_date files date coords)
  = filter (λ t, sort_key t = k) (omap (load_file date coords) files).
Proof.
  unfold load_data_for_date. by rewrite filter_key_sorted, load_loop_spec, app_nil_l.
Qed.

End Stable.

(** * More on block averaging *)

Section BlockAverageMore.
Import Sample SampleFacts Examples ChunkExamples.

(** [np.mean] of zeros is zero. *)
Lemma mean_zeros l : l ≠ [] → Forall (λ x, x = zero) l → mean l = zero.
Proof.
  intros Hne Hl. unfold mean.
  assert (sum l = zero) as ->.
  { clear Hne. induction Hl as [|x l -> _ IH]; [done|].
    by rewrite sum_cons, IH, add_zero_l. }
  unfold of_nat, div, zero.
  assert (Qc_of_Z (Z.of_nat (length l)) ≠ 0%Qc) as Hk.
  { rewrite <-Z2Qc_inj_0. intros E%Z2Qc_inj. destruct l; [done|]. cbn in E. lia. }
  apply Qc_eqb_neq in Hk. rewrite Hk. f_equal. unfold Qcdiv. apply Qcmult_0_l.
Qed.

Lemma cell_is_Some m r c :
  wf_matrix m → r < nrows m → c < ncols m → is_Some (cell m r c).
Proof.
  unfold wf_matrix, nrows, cell. intros Hwf Hr Hc.
  destruct (lookup_lt_is_Some_2 (rows m) r Hr) as [row Hrow]. rewrite Hrow. cbn.
  rewrite Forall_lookup in Hwf. apply lookup_lt_is_Some_2. by rewrite (Hwf _ _ Hrow).
Qed.

Lemma cell_block m n a b i j :
  i < n → j < n → cell (block m n a b) i j = cell m (a * n + i) (b * n + j).
Proof. intros Hi Hj. unfold block. apply cell_slice2; lia. Qed.

(** X6.  Dark stays dark: an output cell whose block holds zeros only is
    exactly zero. *)
Theorem block_average_dark (m : matrix) (n a b : nat) :
  wf_matrix m → 0 < n → a < nrows m / n → b < ncols m / n →
  Forall (λ x, x = zero) (flat (block m n a b)) →
  ∃ out, block_average m n = Ok out ∧ cell out a b = Some zero.
Proof.
  intros Hwf Hn Ha Hb Hzero.
  assert (n ≤ nrows m) as Hr by (pose proof (Nat.div_mod_eq (nrows m) n); nia).
  assert (n ≤ ncols m) as Hc by (pose proof (Nat.div_mod_eq (ncols m) n); nia).
  destruct (block_average_cells m n Hwf Hn Hr Hc) as (out & Hout & _ & _ & Hcell).
  exists out. split; [done|]. rewrite Hcell by done. f_equal.
  apply mean_zeros; [|done].
  pose proof (length_flat_block m n a b Hwf Ha Hb) as Hlen.
  intros Hnil. rewrite Hnil in Hlen. cbn in Hlen. nia.
Qed.

Lemma block_average_dark_witness :
  ∃ out, block_average (grid [[n 0; n 0; n 1]; [n 0; n 0; n 2]]) 2 = Ok out
         ∧ cell out 0 0 = Some zero.
Proof.
  apply (block_average_dark (grid [[n 0; n 0; n 1]; [n 0; n 0; n 2]]) 2 0 0).
  - repeat constructor.
  - lia.
  - cbn. lia.
  - cbn. lia.
  - by_evaluation.
Defined.

(** X7.  Missing values propagate through the average: an output cell
    whose block holds a NaN is NaN. *)
Theorem block_average_nan (m : matrix) (n r c : nat) :
  wf_matrix m → 0 < n →
  cell m r c = Some NaN → r / n < nrows m / n → c / n < ncols m / n →
  ∃ out, block_average m n = Ok out ∧ cell out (r / n) (c / n) = Some NaN.
Proof.
  intros Hwf Hn Hnan Hr Hc.
  assert (n ≤ nrows m ∧ n ≤ ncols m) as [Hrn Hcn].
  { split; apply Nat.nlt_ge; intros Hlt; apply Nat.div_small in Hlt; lia. }
  destruct (block_average_cells m n Hwf Hn Hrn Hcn) as (out & Hout & _ & _ & Hcell).
  exists out. split; [done|]. rewrite Hcell by done. f_equal.
  unfold mean. rewrite sum_nan; [done|].
  apply (cell_elem_of_flat _ (r mod n) (c mod n)).
  rewrite cell_block by (apply Nat.mod_upper_bound; lia).
  pose proof (Nat.div_mod_eq r n). pose proof (Nat.div_mod_eq c n).
  replace (r / n * n + r mod n) with r by lia.
  by replace (c / n * n + c mod n) with c by lia.
Qed.

Lemma block_average_nan_witness :
  ∃ out, block_average (grid [[n 1; n 2]; [NaN; n 4]]) 2 = Ok out
         ∧ cell out 0 0 = Some NaN.
Proof.
  apply (block_average_nan (grid [[n 1; n 2]; [NaN; n 4]]) 2 1 0).
  - repeat constructor.
  - lia.
  - reflexivity.
  - cbn. lia.
  - cbn. lia.
Defined.

End BlockAverageMore.

(** * More on [chunk_data] *)

Section ChunkMore.
Import Sample SampleFacts Examples ChunkExamples.

Lemma lookup_every {A} (n k i : nat) (l : list A) :
  0 < n → every n k l !! i = l !! (k + i * n).
Proof.
  intros Hn. revert k i. induction l as [|x l IH]; intros k i; [done|].
  destruct k as [|k]; cbn [every].
  - destruct i as [|i]; [done|]. cbn [lookup list_lookup]. rewrite IH.
    replace (0 + S i * n) with (S (n - 1 + i * n)) by lia. done.
  - rewrite IH. done.
Qed.

(** [l[::n][i]] is [l[i * n]]. *)
Lemma lookup_stride {A} (n i : nat) (l : list A) :
  0 < n → stride n l !! i = l !! (i * n).
Proof. intros Hn. unfold stride. by rewrite lookup_every. Qed.

Lemma stride_one {A} (l : list A) : stride 1 l = l.
Proof.
  apply list_eq. intros i. rewrite lookup_stride by lia. f_equal. lia.
Qed.

(** Two grids of one shape with the same entries are equal. *)
Lemma matrix_ext m1 m2 :
  wf_matrix m1 → wf_matrix m2 → shape m1 = shape m2 →
  (∀ r c, r < nrows m1 → c < ncols m1 → cell m1 r c = cell m2 r c) →
  m1 = m2.
Proof.
  destruct m1 as [rs1 c1], m2 as [rs2 c2]. unfold wf_matrix, shape, nrows, cell.
  cbn [rows ncols]. intros Hwf1 Hwf2 [= Hlen <-] Hcells. f_equal.
  apply list_eq. intros r.
  destruct (decide (r < length rs1)) as [Hr|Hr].
  - destruct (lookup_lt_is_Some_2 rs1 r Hr) as [row1 H1].
    destruct (lookup_lt_is_Some_2 rs2 r) as [row2 H2]; [lia|].
    rewrite H1, H2. f_equal. apply list_eq. intros c.
    rewrite Forall_lookup in Hwf1. rewrite Forall_lookup in Hwf2.
    destruct (decide (c < c1)) as [Hc|Hc].
    + specialize (Hcells r c Hr Hc). by rewrite H1, H2 in Hcells.
    + rewrite !lookup_ge_None_2; [done|rewrite (Hwf2 _ _ H2); lia|rewrite (Hwf1 _ _ H1); lia].
  - rewrite !lookup_ge_None_2; [done|lia..].
Qed.

Lemma mean_singleton v : mean [v] = v.
Proof.
  unfold mean. cbn [length sum foldr]. rewrite add_zero_r.
  change (of_nat 1) with (Num (Qc_of_Z 1)). rewrite Z2Qc_inj_1. apply div_one.
Qed.

Lemma flat_block_one m a b v :
  cell m a b = Some v → flat (block m 1 a b) = [v].
Proof.
  unfold cell. intros Hcell.
  destruct (rows m !! a) as [row|] eqn:Hrow; [|done]. cbn in Hcell.
  rewrite flat_block, !Nat.mul_1_r.
  rewrite (drop_S _ _ _ Hrow). cbn [take fmap list_fmap concat].
  rewrite (drop_S _ _ _ Hcell). done.
Qed.

Lemma block_average_one m :
  wf_matrix m → 1 ≤ nrows m → 1 ≤ ncols m → block_average m 1 = Ok m.
Proof.
  intros Hwf Hr Hc.
  destruct (block_average_cells m 1 Hwf) as (out & Hout & Hshape & Hwf' & Hcell);
    [lia..|].
  rewrite Hout. f_equal. rewrite !Nat.div_1_r in Hshape, Hcell.
  apply matrix_ext; [done..|].
  unfold shape in Hshape. injection Hshape as Hrows Hcols.
  intros r c Hr' Hc'. rewrite Hcell by lia.
  destruct (cell_is_Some m r c Hwf) as [v Hv]; [lia..|].
  by rewrite (flat_block_one _ _ _ _ Hv), mean_singleton.
Qed.

(** X8.  Downsampling by one changes nothing: [chunk_data] with factor 1
    returns the tile set as it is, so skipping the call when
    [chunk_size] is 1 loses nothing. *)
Theorem chunk_data_factor_one (ts : list tile) :
  Forall (λ t, wf_matrix (values t) ∧ 1 ≤ nrows (values t) ∧ 1 ≤ ncols (values t)) ts →
  chunk_data ts 1 = Ok ts.
Proof.
  intros Hts. rewrite chunk_data_spec by lia. f_equal.
  induction Hts as [|t ts (Hwf & Hr & Hc) _ IH]; [done|].
  cbn [omap list_omap]. unfold chunk_tile at 1.
  rewrite block_average_one, !stride_one, IH by done. by destruct t.
Qed.

Lemma chunk_data_factor_one_witness :
  chunk_data tiles_4x4_1x1 1 = Ok tiles_4x4_1x1.
Proof.
  apply chunk_data_factor_one. repeat constructor; cbn; lia.
Defined.

(** X9.  A factor of zero is not caught: on a non-empty tile set
    [block_average] raises [ZeroDivisionError], which the [except
    ValueError] clause lets through; an empty tile set is returned as it
    is whatever the factor. *)
Theorem chunk_data_factor_zero (ts : list tile) (n : nat) :
  (ts ≠ [] → chunk_data ts 0 = Raise ZeroDivisionError)
  ∧ chunk_data [] n = Ok [].
Proof.
  split; [|done]. intros Hne. unfold chunk_data.
  destruct (length ts) as [|j] eqn:Hlen; [by destruct ts|].
  cbn [chunk_loop]. destruct (lookup_lt_is_Some_2 ts j) as [t Ht]; [lia|].
  by rewrite Ht.
Qed.

(** X10.  Coordinate [a] of a downsampled tile is the coordinate of the
    first row (or column) of block [a]: [chunk_data] keeps the entries at
    the indices [0, n, 2n, ...] of the latitude and longitude vectors of
    the tile whose grid it averages. *)
Theorem chunk_data_coordinates (ts out : list tile) (n : nat) :
  1 ≤ n → chunk_data ts n = Ok out →
  ∀ t', t' ∈ out →
    ∃ t, t ∈ ts
      ∧ block_average (values t) n = Ok (values t')
      ∧ (∀ a, lat t' !! a = lat t !! (a * n))
      ∧ (∀ b, lon t' !! b = lon t !! (b * n)).
Proof.
  intros Hn. rewrite chunk_data_spec by lia. intros [= <-] t' Ht'.
  apply list_elem_of_omap in Ht' as (t & Ht & Hchunk). exists t. split; [done|].
  unfold chunk_tile in Hchunk.
  destruct (block_average (values t) n) as [v|]; [|done].
  injection Hchunk as <-. cbn [values lat lon].
  split_and!; [done|intros a|intros b]; apply lookup_stride; lia.
Qed.

Lemma chunk_data_coordinates_witness :
  1 ≤ 2
  ∧ ∃ t, t ∈ tiles_4x4_1x1
      ∧ block_average (values t) 2
        = Ok (grid [[Num (q 7 / q 2); Num (q 11 / q 2)];
                    [Num (q 23 / q 2); Num (q 27 / q 2)]])
      ∧ (∀ a, [q 12; q 10] !! a = lat t !! (a * 2))
      ∧ (∀ b, [q 21; q 23] !! b = lon t !! (b * 2)).
Proof.
  assert (H1 : 1 ≤ 2) by lia. split; [exact H1|].
  apply (chunk_data_coordinates tiles_4x4_1x1
           [ {| values := grid [[Num (q 7 / q 2); Num (q 11 / q 2)];
                                [Num (q 23 / q 2); Num (q 27 / q 2)]];
                lat := [q 12; q 10]; lon := [q 21; q 23] |} ]
           2 H1 ltac:(by_evaluation)
           {| values := grid [[Num (q 7 / q 2); Num (q 11 / q 2)];
                              [Num (q 23 / q 2); Num (q 27 / q 2)]];
              lat := [q 12; q 10]; lon := [q 21; q 23] |}).
  left.
Defined.

(** X11.  When the row and column counts of every tile are multiples of
    the factor, [chunk_data] keeps every tile aligned with its coordinate
    vectors. *)
Theorem chunk_data_aligned_multiples (ts : list tile) (n : nat) :
  1 ≤ n →
  Forall (λ t, wf_matrix (values t) ∧ aligned t
               ∧ nrows (values t) mod n = 0 ∧ ncols (values t) mod n = 0) ts →
  ∃ out, chunk_data ts n = Ok out ∧ Forall aligned out.
Proof.
  intros Hn Hts. exists (omap (chunk_tile n) ts). split; [apply chunk_data_spec; lia|].
  apply Forall_forall. intros t' (t & Ht & Hchunk)%list_elem_of_omap.
  rewrite Forall_forall in Hts. destruct (Hts t Ht) as (Hwf & Hal & Hr & Hc).
  by apply (chunk_tile_aligned_iff n t t').
Qed.

Lemma chunk_data_aligned_multiples_witness :
  ∃ out, chunk_data (take 1 tiles_4x4_1x1) 2 = Ok out ∧ Forall aligned out.
Proof.
  apply chunk_data_aligned_multiples; [lia|].
  repeat constructor.
Defined.

End ChunkMore.

(** * A dark tile set cannot be normalized *)

Section NormalizeZero.
Import Sample SampleFacts Examples.

Lemma num_sum_nonneg l :
  Forall (λ v, ∃ q, v = Num q ∧ (0 ≤ q)%Qc) l → (0 ≤ num_sum l)%Qc.
Proof.
  induction 1 as [|v l (q & -> & Hq) _ IH]; [apply Qcle_refl|].
  change (num_sum (Num q :: l)) with (q + num_sum l)%Qc.
  by apply Qcplus_nonneg_nonneg.
Qed.

Lemma num_sum_zero l :
  Forall (λ v, ∃ q, v = Num q ∧ (0 ≤ q)%Qc) l → num_sum l = 0%Qc →
  Forall (λ v, v = zero) l.
Proof.
  induction 1 as [|v l (q & -> & Hq) Hl IH]; intros Hsum; [done|].
  change (num_sum (Num q :: l)) with (q + num_sum l)%Qc in Hsum.
  pose proof (num_sum_nonneg l Hl) as Hs.
  assert (q = 0%Qc) as ->.
  { apply Qcle_antisym; [|done]. rewrite <-Hsum.
    rewrite <-(Qcplus_0_r q) at 1. by apply Qcplus_le_mono_l. }
  rewrite Qcplus_0_l in Hsum. constructor; [done|by apply IH].
Qed.

(** X12.  On a tile set of non-negative numbers the total is zero only
    when every value is zero, and then [normalize_data] turns every value
    into NaN (zero divided by zero). *)
Theorem normalize_data_zero_total (ts : list tile) :
  Forall (λ v, ∃ q, v = Num q ∧ (0 ≤ q)%Qc) (all_values ts) →
  sumLights ts = zero →
  Forall (λ v, v = zero) (all_values ts)
  ∧ Forall (λ v, v = NaN) (all_values (normalize_data ts)).
Proof.
  intros Hnn Hsum.
  assert (Forall (λ v, is_num v = true) (all_values ts)) as Hnum.
  { eapply Forall_impl; [exact Hnn|]. by intros v (q & -> & _). }
  assert (Forall (λ v, v = zero) (all_values ts)) as Hzero.
  { apply num_sum_zero; [done|].
    rewrite sumLights_all_values, (sum_num _ Hnum) in Hsum. by injection Hsum. }
  split; [done|]. rewrite all_values_normalize, Hsum. apply Forall_fmap.
  eapply Forall_impl; [exact Hzero|]. by intros v ->.
Qed.

Lemma normalize_data_zero_total_witness :
  Forall (λ v, v = NaN)
    (all_values (normalize_data
       [ {| values := grid [[n 0; n 0]]; lat := [q 9]; lon := [q 21; q 22] |} ])).
Proof.
  assert (Hs : sumLights
            [ {| values := grid [[n 0; n 0]]; lat := [q 9]; lon := [q 21; q 22] |} ]
          = zero) by by_evaluation.
  refine (proj2 (normalize_data_zero_total _ _ Hs)).
  change (Forall (λ v, ∃ x, v = Num x ∧ (0 ≤ x)%Qc) [n 0; n 0]).
  assert (H : ∃ x, n 0 = Num x ∧ (0 ≤ x)%Qc).
  { exists (q 0). split; [reflexivity|by vm_compute]. }
  repeat (constructor; [exact H|]). constructor.
Defined.

End NormalizeZero.

(** * More on the differences of two dates *)

Section DifferenceMore.
Import Sample SampleFacts Examples LoaderExamples.

Lemma Forall_zip_diag {A} (P : A * A → Prop) (l : list A) :
  (∀ x, P (x, x)) → Forall P (zip l l).
Proof. intros HP. induction l as [|x l IH]; [constructor|]. by constructor. Qed.

Lemma Forall_zip_flip {A} (P : A → A → Prop) (l k : list A) :
  Forall (λ p, P p.1 p.2) (zip l k) → Forall (λ p, P p.2 p.1) (zip k l).
Proof.
  revert k. induction l as [|x l IH]; intros [|y k] H; try constructor.
  - by apply Forall_cons in H as [? _].
  - apply IH. by apply Forall_cons in H as [_ ?].
Qed.

Lemma div_self (q : Qc) : q ≠ 0%Qc → div (Num q) (Num q) = Num 1%Qc.
Proof.
  intros Hq. unfold div. apply Qc_eqb_neq in Hq as Hq'. rewrite Hq'. f_equal. by field.
Qed.

Lemma sub_self (q : Qc) : sub (Num q) (Num q) = zero.
Proof. unfold sub, opp, add, zero. f_equal. ring. Qed.

(** X13.  Differencing a date with itself never fails.  In absolute mode
    every number becomes zero; in relative mode every non-zero number
    becomes the ratio one and every zero stays zero. *)
Theorem get_difference_data_same_date files date coords relative chunk_size normalize :
  Forall (λ f, wf_matrix (NearNadir_Composite_Snow_Free f)) files →
  ∃ out,
    get_difference_data files date date coords relative chunk_size normalize = Ok out
    ∧ length out = length (prepared files date coords chunk_size normalize)
    ∧ ∀ i t, prepared files date coords chunk_size normalize !! i = Some t →
        ∃ d, out !! i = Some {| values := d; lat := lat t; lon := lon t |}
          ∧ ∀ r c x, cell (values t) r c = Some (Num x) →
              cell d r c
              = Some (if relative
                      then (if decide (x = 0%Qc) then zero else Num 1%Qc)
                      else zero).
Proof.
  intros Hfiles.
  destruct (get_difference_data_same_shape files date date coords relative
              chunk_size normalize Hfiles) as (out & Hout & Hlen & Hpairs).
  { by apply Forall_zip_diag. }
  exists out. split_and!; [done|by rewrite Hlen, Nat.min_id|].
  intros i t Ht. destruct (Hpairs i t t Ht Ht) as (d & Hd & _ & Hcells).
  exists d. split; [done|]. intros r c x Hx. rewrite (Hcells r c _ _ Hx Hx).
  f_equal. destruct relative.
  - destruct (decide (x = 0%Qc)) as [->|Hne].
    + change (Num 0%Qc) with zero. by rewrite sentinel_zero, div_minus_one.
    + rewrite sentinel_nonzero by (by intros [= ?]). by apply div_self.
  - apply sub_self.
Qed.

Lemma get_difference_data_same_date_witness :
  ∃ out, get_difference_data store date1 date1 box true 1 false = Ok out
         ∧ length out = length (prepared store date1 box 1 false).
Proof.
  destruct (get_difference_data_same_date store date1 box true 1 false)
    as (out & Hout & Hlen & _).
  - repeat constructor.
  - exists out. split; [exact Hout|exact Hlen].
Defined.

Lemma length_omap_le {A B} (f : A → option B) (l : list A) :
  length (omap f l) ≤ length l.
Proof.
  induction l as [|x l IH]; [done|]. cbn. destruct (f x); cbn; lia.
Qed.

Lemma prepared_nil files date coords chunk_size normalize :
  load_data_for_date files date coords = [] →
  prepared files date coords chunk_size normalize = [].
Proof.
  intros Hnil. unfold prepared. rewrite Hnil.
  by destruct (1 <? chunk_size), normalize.
Qed.

Lemma difference_loop_nil_r relative l : difference_loop relative l [] = Ok [].
Proof. by destruct l. Qed.

(** X14.  When one of the two dates has no tile within the bounding box,
    [get_difference_data] returns the empty list and raises nothing. *)
Theorem get_difference_data_no_tiles files dateEarly dateLater coords relative
    chunk_size normalize :
  load_data_for_date files dateEarly coords = []
  ∨ load_data_for_date files dateLater coords = [] →
  get_difference_data files dateEarly dateLater coords relative chunk_size normalize
  = Ok [].
Proof.
  intros Hnil. rewrite get_difference_data_prepared.
  destruct Hnil as [Hnil|Hnil]; rewrite (prepared_nil _ _ _ _ _ Hnil);
    [done|apply difference_loop_nil_r].
Qed.

Lemma get_difference_data_no_tiles_witness :
  get_difference_data store date1 "2023-06-01" box false 1 false = Ok [].
Proof.
  apply get_difference_data_no_tiles. right. reflexivity.
Defined.

(** X15.  Single mode never fails to prepare its data, whatever the
    downsampling factor, and the Difference and Relative modes work on
    exactly the two tile sets that Single mode prepares for the two
    dates. *)
Theorem single_mode_data_composition files dateEarly dateLater coords relative
    chunk_size normalize :
  (∀ date, ∃ data,
      single_mode_data files date coords chunk_size normalize = Ok data
      ∧ length data ≤ length (load_data_for_date files date coords))
  ∧ get_difference_data files dateEarly dateLater coords relative chunk_size normalize
    = (data_list1 ← single_mode_data files dateEarly coords chunk_size normalize;
       data_list2 ← single_mode_data files dateLater coords chunk_size normalize;
       difference_loop relative data_list1 data_list2).
Proof.
  assert (∀ date, single_mode_data files date coords chunk_size normalize
                  = Ok (prepared files date coords chunk_size normalize)) as Hsingle.
  { intros date. unfold single_mode_data, prepared.
    destruct (1 <? chunk_size) eqn:E; [|done].
    apply Nat.ltb_lt in E. by rewrite chunk_data_spec by lia. }
  split.
  - intros date. eexists. split; [apply Hsingle|]. unfold prepared.
    assert (length (if 1 <? chunk_size
                    then omap (chunk_tile chunk_size) (load_data_for_date files date coords)
                    else load_data_for_date files date coords)
            ≤ length (load_data_for_date files date coords)) as Hlen.
    { destruct (1 <? chunk_size); [apply length_omap_le|done]. }
    destruct normalize; [by rewrite normalize_data_length|done].
  - rewrite !Hsingle. apply get_difference_data_prepared.
Qed.

Lemma opp_add x y : opp (add x y) = add (opp x) (opp y).
Proof.
  destruct x as [|a|p], y as [|b|q]; cbn; try done.
  - by destruct a, b.
  - f_equal. ring.
Qed.

Lemma opp_involutive x : opp (opp x) = x.
Proof.
  destruct x as [|a|p]; cbn; [done|by rewrite negb_involutive|].
  by rewrite Qcopp_involutive.
Qed.

Lemma sub_swap x y : sub x y = opp (sub y x).
Proof. unfold sub. by rewrite opp_add, opp_involutive, add_comm. Qed.

(** X16.  Swapping the two dates negates the absolute difference: on
    prepared tile sets whose paired grids have equal shapes, both calls
    return, and each cell of one result is the negative of the same cell
    of the other. *)
Theorem absolute_difference_swap files date1 date2 coords chunk_size normalize :
  Forall (λ f, wf_matrix (NearNadir_Composite_Snow_Free f)) files →
  Forall (λ p, shape (values p.1) = shape (values p.2))
    (zip (prepared files date1 coords chunk_size normalize)
         (prepared files date2 coords chunk_size normalize)) →
  ∃ out12 out21,
    get_difference_data files date1 date2 coords false chunk_size normalize = Ok out12
    ∧ get_difference_data files date2 date1 coords false chunk_size normalize = Ok out21
    ∧ length out12 = length out21
    ∧ ∀ i t1 t2,
        prepared files date1 coords chunk_size normalize !! i = Some t1 →
        prepared files date2 coords chunk_size normalize !! i = Some t2 →
        ∃ d12 d21,
          out12 !! i = Some {| values := d12; lat := lat t1; lon := lon t1 |}
          ∧ out21 !! i = Some {| values := d21; lat := lat t2; lon := lon t2 |}
          ∧ ∀ r c e l, cell (values t1) r c = Some e → cell (values t2) r c = Some l →
              ∃ v, cell d12 r c = Some v ∧ cell d21 r c = Some (opp v).
Proof.
  intros Hfiles Hshapes.
  destruct (get_difference_data_same_shape files date1 date2 coords false
              chunk_size normalize Hfiles Hshapes) as (out12 & H12 & Hlen12 & Hp12).
  destruct (get_difference_data_same_shape files date2 date1 coords false
              chunk_size normalize Hfiles) as (out21 & H21 & Hlen21 & Hp21).
  { apply (Forall_zip_flip (λ a b, shape (values b) = shape (values a))).
    eapply Forall_impl; [exact Hshapes|]. by intros [a b]. }
  exists out12, out21. split_and!; [done|done|lia|].
  intros i t1 t2 H1 H2.
  destruct (Hp12 i t1 t2 H1 H2) as (d12 & Hd12 & _ & Hc12).
  destruct (Hp21 i t2 t1 H2 H1) as (d21 & Hd21 & _ & Hc21).
  exists d12, d21. split_and!; [done..|]. intros r c e l He Hl.
  exists (sub l e). split; [by apply Hc12|].
  rewrite <-sub_swap. by apply Hc21.
Qed.

Lemma store_later_shapes :
  Forall (λ p, shape (values p.1) = shape (values p.2))
    (zip (prepared store LoaderExamples.date1 box 1 false)
         (prepared store LoaderExamples.date2 box 1 false)).
Proof. by_evaluation. Qed.

Lemma absolute_difference_swap_witness :
  ∃ out12 out21,
    get_difference_data store LoaderExamples.date1 LoaderExamples.date2 box false 1 false
      = Ok out12
    ∧ get_difference_data store LoaderExamples.date2 LoaderExamples.date1 box false 1 false
      = Ok out21
    ∧ length out12 = length out21.
Proof.
  destruct (absolute_difference_swap store LoaderExamples.date1 LoaderExamples.date2
              box 1 false) as (out12 & out21 & H12 & H21 & Hlen & _).
  - repeat constructor.
  - exact store_later_shapes.
  - exists out12, out21. split; [exact H12|]. split; [exact H21|exact Hlen].
Defined.

End DifferenceMore.

(** * The layers of the relative plot *)

Section RelativeLayers.
Import Sample SampleFacts Examples LoaderExamples.

Lemma leb_num a b : leb (Num a) (Num b) = true ↔ (a ≤ b)%Qc.
Proof.
  unfold leb, ltb, eqb. rewrite orb_true_iff, Qc_ltb_lt, Qc_eqb_eq. split.
  - intros [?| ->]; [by apply Qclt_le_weak|apply Qcle_refl].
  - intros H. destruct (Qcle_lt_or_eq _ _ H); [by left|by right].
Qed.

Lemma leb_num_false a b : leb (Num a) (Num b) = false ↔ (b < a)%Qc.
Proof.
  rewrite Qclt_nge, <-leb_num. destruct (leb (Num a) (Num b)); split; done.
Qed.

Lemma leb_zero_l p : leb zero (Num p) = true ↔ (0 ≤ p)%Qc.
Proof. apply leb_num. Qed.

Lemma leb_zero_l_false p : leb zero (Num p) = false ↔ (p < 0)%Qc.
Proof. apply leb_num_false. Qed.

Lemma leb_zero_r p : leb (Num p) zero = true ↔ (p ≤ 0)%Qc.
Proof. apply leb_num. Qed.

Lemma leb_zero_r_false p : leb (Num p) zero = false ↔ (0 < p)%Qc.
Proof. apply leb_num_false. Qed.

Lemma not_negative_cases x :
  not_negative x → x = NaN ∨ x = Inf false ∨ ∃ p, x = Num p ∧ (0 ≤ p)%Qc.
Proof.
  unfold not_negative. destruct x as [|a|p]; cbn [ltb zero]; intros H.
  - by left.
  - right. left. by rewrite H.
  - right. right. exists p. split; [done|]. by apply Qc_ltb_ge.
Qed.

Lemma zero_pos_cases p : (0 ≤ p)%Qc → p = 0%Qc ∨ (0 < p)%Qc.
Proof. intros H. destruct (Qcle_lt_or_eq _ _ H); [by right|by left]. Qed.

(** A value that is not negative is left out of the new-light layer. *)
Lemma new_light_cell_not_negative x : not_negative x → new_light_cell x = NaN.
Proof.
  intros [->|[->|(p & -> & Hp)]]%not_negative_cases; [done..|].
  unfold new_light_cell. by rewrite (proj2 (leb_zero_l p) Hp).
Qed.

Lemma ratio_cell_not_negative x :
  not_negative x → ratio_cell x = if ltb zero x then x else NaN.
Proof.
  intros [->|[->|(p & -> & Hp)]]%not_negative_cases; [done..|].
  unfold ratio_cell. destruct (zero_pos_cases p Hp) as [->|Hpos].
  - done.
  - rewrite (proj2 (leb_zero_r_false p) Hpos).
    by rewrite (proj2 (ltb_zero_num p) Hpos).
Qed.

Lemma new_light_cell_opp l :
  not_negative l → new_light_cell (opp l) = if ltb zero l then l else NaN.
Proof.
  intros [->|[->|(p & -> & Hp)]]%not_negative_cases; [done..|].
  unfold new_light_cell. cbn [opp]. destruct (zero_pos_cases p Hp) as [->|Hpos].
  - done.
  - rewrite (proj2 (ltb_zero_num p) Hpos).
    assert (leb zero (Num (- p)) = false) as ->.
    { apply leb_zero_l_false.
      by rewrite (Qclt_minus_iff (- p) 0), Qcopp_involutive, Qcplus_0_l. }
    by rewrite Qcopp_involutive.
Qed.

Lemma ratio_cell_opp l : not_negative l → ratio_cell (opp l) = NaN.
Proof.
  intros [->|[->|(p & -> & Hp)]]%not_negative_cases; [done..|].
  unfold ratio_cell. cbn [opp].
  assert (leb (Num (- p)) zero = true) as ->; [|done].
  apply leb_zero_r. rewrite (Qcle_minus_iff (- p) 0), Qcopp_involutive.
  by rewrite Qcplus_0_l.
Qed.

(** X17.  The two layers of the relative plot never overlap.  On prepared
    tile sets whose paired grids have equal shapes, the new-light layer
    shows the later value exactly in the cells whose earlier value is zero
    and whose later value is positive, and the ratio layer shows
    later / earlier exactly in the cells whose earlier value is not zero
    and whose ratio is positive; every other entry of a layer is NaN. *)
Theorem relative_layers files dateEarly dateLater coords chunk_size normalize :
  Forall (λ f, wf_matrix (NearNadir_Composite_Snow_Free f)) files →
  Forall (λ p, shape (values p.1) = shape (values p.2))
    (zip (prepared files dateEarly coords chunk_size normalize)
         (prepared files dateLater coords chunk_size normalize)) →
  ∃ out,
    get_difference_data files dateEarly dateLater coords true chunk_size normalize
      = Ok out
    ∧ ∀ i t1 t2,
        prepared files dateEarly coords chunk_size normalize !! i = Some t1 →
        prepared files dateLater coords chunk_size normalize !! i = Some t2 →
        ∃ d, out !! i = Some {| values := d; lat := lat t1; lon := lon t1 |}
          ∧ ∀ r c e l, cell (values t1) r c = Some e → cell (values t2) r c = Some l →
              cell (new_light_layer d) r c
              = Some (if decide (e = zero)
                      then (if ltb zero l then l else NaN) else NaN)
              ∧ cell (ratio_layer d) r c
                = Some (if decide (e = zero) then NaN
                        else if ltb zero (div l e) then div l e else NaN).
Proof.
  intros Hfiles Hshapes.
  destruct (get_difference_data_same_shape files dateEarly dateLater coords true
              chunk_size normalize Hfiles Hshapes) as (out & Hout & _ & Hpairs).
  exists out. split; [done|]. intros i t1 t2 H1 H2.
  destruct (Hpairs i t1 t2 H1 H2) as (d & Hi & _ & Hcells).
  exists d. split; [done|]. intros r c e l He Hl.
  pose proof (prepared_ok files dateEarly coords chunk_size normalize Hfiles) as Hok1.
  pose proof (prepared_ok files dateLater coords chunk_size normalize Hfiles) as Hok2.
  rewrite Forall_lookup in Hok1. rewrite Forall_lookup in Hok2.
  destruct (Hok1 _ _ H1) as [_ Hnn1]. destruct (Hok2 _ _ H2) as [_ Hnn2].
  rewrite Forall_forall in Hnn1. rewrite Forall_forall in Hnn2.
  pose proof (Hnn1 e (cell_elem_of_flat _ _ _ _ He)) as Hnne.
  pose proof (Hnn2 l (cell_elem_of_flat _ _ _ _ Hl)) as Hnnl.
  unfold new_light_layer, ratio_layer. rewrite !cell_mmap, (Hcells r c e l He Hl).
  cbn [fmap option_fmap option_map].
  destruct (decide (e = zero)) as [->|Hne].
  - rewrite sentinel_zero, div_minus_one.
    by rewrite new_light_cell_opp, ratio_cell_opp.
  - rewrite (sentinel_nonzero _ Hne).
    pose proof (div_not_negative _ _ Hnnl Hnne) as Hv.
    by rewrite (new_light_cell_not_negative _ Hv), (ratio_cell_not_negative _ Hv).
Qed.

Lemma relative_layers_witness :
  ∃ out, get_difference_data store date1 date2 box true 1 false = Ok out.
Proof.
  destruct (relative_layers store date1 date2 box 1 false) as (out & Hout & _).
  - repeat constructor.
  - by_evaluation.
  - exists out. exact Hout.
Defined.

Example relative_layers_store :
  new_light_layer (grid [[NaN; n (-12)]; [n 0; n 2]]) = grid [[NaN; n 12]; [NaN; NaN]]
  ∧ ratio_layer (grid [[NaN; n (-12)]; [n 0; n 2]]) = grid [[NaN; NaN]; [NaN; n 2]].
Proof. split; by_evaluation. Qed.

End RelativeLayers.

(** * The colour range of the single-date plot *)

Section ColorRange.
Import Sample SampleFacts Examples.

Lemma np_minimum_num a b :
  np_minimum (Num a) (Num b) = if Qc_ltb b a then Num b else Num a.
Proof. done. Qed.

Lemma np_maximum_num a b :
  np_maximum (Num a) (Num b) = if Qc_ltb a b then Num b else Num a.
Proof. done. Qed.

(** [np.min] of numbers is the least of them. *)
Lemma foldl_minimum_num x l :
  Forall (λ v, is_num v = true) l →
  ∃ m, foldl np_minimum (Num x) l = Num m
       ∧ (m ≤ x)%Qc
       ∧ (∀ q, Num q ∈ l → (m ≤ q)%Qc)
       ∧ (m = x ∨ Num m ∈ l).
Proof.
  intros Hl. revert x. induction Hl as [|v l Hv _ IH]; intros x.
  - exists x. split_and!; [done|apply Qcle_refl| |by left].
    by intros q ?%elem_of_nil.
  - destruct v as [| |y]; try done. cbn [foldl]. rewrite np_minimum_num.
    destruct (Qc_ltb y x) eqn:E.
    + apply Qc_ltb_lt in E. destruct (IH y) as (m & Hm & Hle & Hall & Hin).
      exists m. split_and!; [done| | |].
      * apply Qcle_trans with y; [done|by apply Qclt_le_weak].
      * intros q [[= <-]|Hq]%elem_of_cons; [done|by apply Hall].
      * right. destruct Hin as [->|?]; [left|by right].
    + apply Qc_ltb_ge in E. destruct (IH x) as (m & Hm & Hle & Hall & Hin).
      exists m. split_and!; [done..| |].
      * intros q [[= <-]|Hq]%elem_of_cons; [by apply Qcle_trans with x|by apply Hall].
      * destruct Hin as [->|?]; [by left|right; by right].
Qed.

(** [np.max] of numbers is the greatest of them. *)
Lemma foldl_maximum_num x l :
  Forall (λ v, is_num v = true) l →
  ∃ m, foldl np_maximum (Num x) l = Num m
       ∧ (x ≤ m)%Qc
       ∧ (∀ q, Num q ∈ l → (q ≤ m)%Qc).
Proof.
  intros Hl. revert x. induction Hl as [|v l Hv _ IH]; intros x.
  - exists x. split_and!; [done|apply Qcle_refl|]. by intros q ?%elem_of_nil.
  - destruct v as [| |y]; try done. cbn [foldl]. rewrite np_maximum_num.
    destruct (Qc_ltb x y) eqn:E.
    + apply Qc_ltb_lt in E. destruct (IH y) as (m & Hm & Hle & Hall).
      exists m. split_and!; [done| |].
      * apply Qcle_trans with y; [by apply Qclt_le_weak|done].
      * intros q [[= <-]|Hq]%elem_of_cons; [done|by apply Hall].
    + apply Qc_ltb_ge in E. destruct (IH x) as (m & Hm & Hle & Hall).
      exists m. split_and!; [done..|].
      intros q [[= <-]|Hq]%elem_of_cons; [by apply Qcle_trans with x|by apply Hall].
Qed.

Lemma zero_to_one_num q :
  zero_to_one (Num q) = if decide (q = 0%Qc) then Num 1%Qc else Num q.
Proof.
  unfold zero_to_one. cbn [eqb zero]. destruct (decide (q = 0%Qc)) as [->|Hne].
  - done.
  - by rewrite (proj2 (Qc_eqb_neq _ _) Hne).
Qed.

Lemma amin_bright t :
  bright_tile t →
  ∃ m, amin (mmap zero_to_one (values t)) = Ok (Num m)
       ∧ (0 < m)%Qc
       ∧ ∀ q, Num q ∈ flat (values t) → q ≠ 0%Qc → (m ≤ q)%Qc.
Proof.
  intros [Hne Hnn]. unfold amin. rewrite flat_mmap.
  destruct (flat (values t)) as [|v l]; [done|].
  apply Forall_cons in Hnn as [(x & -> & Hx) Hl]. rewrite fmap_cons.
  assert (Forall (λ v, ∃ q, v = Num q ∧ (0 < q)%Qc) (zero_to_one <$> Num x :: l)) as Hpos.
  { apply Forall_fmap. constructor.
    - cbn. rewrite zero_to_one_num. destruct (decide (x = 0%Qc)) as [->|Hne'].
      + by exists 1%Qc.
      + exists x. split; [done|]. destruct (zero_pos_cases x Hx); done.
    - eapply Forall_impl; [exact Hl|]. intros v (y & -> & Hy). cbn.
      rewrite zero_to_one_num. destruct (decide (y = 0%Qc)) as [->|Hne'].
      + by exists 1%Qc.
      + exists y. split; [done|]. destruct (zero_pos_cases y Hy); done. }
  rewrite fmap_cons in Hpos. apply Forall_cons in Hpos as [(x' & Hx' & Hx'pos) Hlpos].
  rewrite Hx'.
  destruct (foldl_minimum_num x' (zero_to_one <$> l)) as (m & Hm & Hle & Hall & Hin).
  { eapply Forall_impl; [exact Hlpos|]. by intros v (y & -> & _). }
  exists m. split_and!; [by rewrite Hm| |].
  - destruct Hin as [->|Hin]; [done|].
    rewrite Forall_forall in Hlpos. destruct (Hlpos _ Hin) as (y & [= <-] & Hy). done.
  - intros q0 Hq0 Hne0. apply elem_of_cons in Hq0 as [[= <-]|Hq0].
    + rewrite zero_to_one_num in Hx'. destruct (decide (q0 = 0%Qc)); [done|].
      by injection Hx' as <-.
    + apply Hall. apply list_elem_of_fmap. exists (Num q0). split; [|done].
      rewrite zero_to_one_num. by destruct (decide (q0 = 0%Qc)).
Qed.

Lemma amax_bright t :
  bright_tile t →
  ∃ m, amax (values t) = Ok (Num m) ∧ ∀ q, Num q ∈ flat (values t) → (q ≤ m)%Qc.
Proof.
  intros [Hne Hnn]. unfold amax.
  destruct (flat (values t)) as [|v l]; [done|].
  apply Forall_cons in Hnn as [(x & -> & Hx) Hl].
  destruct (foldl_maximum_num x l) as (m & Hm & Hle & Hall).
  { eapply Forall_impl; [exact Hl|]. by intros v (y & -> & _). }
  exists m. split; [by rewrite Hm|].
  intros q0 [[= <-]|Hq0]%elem_of_cons; [done|by apply Hall].
Qed.

Lemma single_color_loop_bright l lo0 hi0 :
  (0 < lo0)%Qc → Forall bright_tile l →
  ∃ lo hi, single_color_loop l (Num lo0) (Num hi0) = Ok (Num lo, Num hi)
    ∧ (0 < lo)%Qc ∧ (lo ≤ lo0)%Qc ∧ (hi0 ≤ hi)%Qc
    ∧ ∀ t, t ∈ l → ∀ q, Num q ∈ flat (values t) →
        (q ≤ hi)%Qc ∧ (q ≠ 0%Qc → (lo ≤ q)%Qc).
Proof.
  intros Hlo Hl. revert lo0 hi0 Hlo. induction Hl as [|t l Ht _ IH]; intros lo0 hi0 Hlo.
  - exists lo0, hi0. split_and!; [done|done|apply Qcle_refl..|].
    by intros t ?%elem_of_nil.
  - destruct (amin_bright t Ht) as (m & Hm & Hmpos & Hmall).
    destruct (amax_bright t Ht) as (M & HM & HMall).
    cbn [single_color_loop]. rewrite Hm, HM. cbn [mbind result_bind].
    set (lo1 := if leb (Num lo0) (Num m) then Num lo0 else Num m).
    set (hi1 := if leb (Num M) (Num hi0) then Num hi0 else Num M).
    assert (∃ a, lo1 = Num a ∧ (0 < a)%Qc ∧ (a ≤ lo0)%Qc ∧ (a ≤ m)%Qc) as (a & -> & Ha0 & Ha1 & Ha2).
    { unfold lo1. destruct (leb (Num lo0) (Num m)) eqn:E.
      - apply leb_num in E. exists lo0. split_and!; [done..|apply Qcle_refl|done].
      - apply leb_num_false in E. exists m.
        split_and!; [done..|by apply Qclt_le_weak|apply Qcle_refl]. }
    assert (∃ b, hi1 = Num b ∧ (hi0 ≤ b)%Qc ∧ (M ≤ b)%Qc) as (b & -> & Hb0 & Hb1).
    { unfold hi1. destruct (leb (Num M) (Num hi0)) eqn:E.
      - apply leb_num in E. exists hi0. split_and!; [done|apply Qcle_refl|done].
      - apply leb_num_false in E. exists M.
        split_and!; [done|by apply Qclt_le_weak|apply Qcle_refl]. }
    destruct (IH a b Ha0) as (lo & hi & Hloop & Hlo0 & Hlo1 & Hhi1 & Hall).
    exists lo, hi. split_and!; [done|done| | |].
    + by apply Qcle_trans with a.
    + by apply Qcle_trans with b.
    + intros t' [->|Ht']%elem_of_cons q Hq; [|exact (Hall t' Ht' q Hq)].
      split.
      * apply Qcle_trans with M; [by apply HMall|]. by apply Qcle_trans with b.
      * intros Hne. apply Qcle_trans with a; [done|].
        apply Qcle_trans with m; [done|by apply Hmall].
Qed.

Lemma foldl_minimum_ones k :
  Forall (λ v, v = zero) k → foldl np_minimum (Num 1%Qc) (zero_to_one <$> k) = Num 1%Qc.
Proof.
  induction 1 as [|y k -> _ IH]; [done|]. rewrite fmap_cons. cbn [foldl].
  change (np_minimum (Num 1%Qc) (zero_to_one zero)) with (Num 1%Qc). exact IH.
Qed.

Lemma foldl_maximum_zeros k :
  Forall (λ v, v = zero) k → foldl np_maximum zero k = zero.
Proof.
  induction 1 as [|y k -> _ IH]; [done|]. cbn [foldl].
  change (np_maximum zero zero) with zero. exact IH.
Qed.

(** A tile of zeros leaves the tracked bounds at their initial values. *)
Lemma single_color_loop_zeros l :
  Forall (λ t, flat (values t) ≠ [] ∧ Forall (λ v, v = zero) (flat (values t))) l →
  single_color_loop l (Num 1%Qc) tiny = Ok (Num 1%Qc, tiny).
Proof.
  induction 1 as [|t l [Hne Hz] _ IH]; [done|]. cbn [single_color_loop].
  assert (amin (mmap zero_to_one (values t)) = Ok (Num 1%Qc)) as ->.
  { unfold amin. rewrite flat_mmap. destruct (flat (values t)) as [|x k]; [done|].
    apply Forall_cons in Hz as [-> Hk]. rewrite fmap_cons.
    change (zero_to_one zero) with (Num 1%Qc). f_equal. by apply foldl_minimum_ones. }
  assert (amax (values t) = Ok zero) as ->.
  { unfold amax. destruct (flat (values t)) as [|x k]; [done|].
    apply Forall_cons in Hz as [-> Hk]. f_equal. by apply foldl_maximum_zeros. }
  cbn [mbind result_bind].
  change (leb (Num 1%Qc) (Num 1%Qc)) with true.
  change (leb zero tiny) with true. cbn iota. exact IH.
Qed.

(** Numbers that are all zero are zeros. *)
Lemma all_zero_values (P : sample → Prop) l :
  Forall (λ v, ∃ q, v = Num q ∧ P v) l →
  (∀ q, Num q ∈ l → q = 0%Qc) → Forall (λ v, v = zero) l.
Proof.
  intros Hl Hz. apply Forall_forall. intros v Hv. rewrite Forall_forall in Hl.
  destruct (Hl v Hv) as (q & -> & _). by rewrite (Hz q Hv).
Qed.

(** X18.  On non-empty tiles of non-negative numbers [plot_single]
    computes colour bounds with these properties: the lower bound is
    positive, at most one, and not above any non-zero value; the upper
    bound is at least [10 ** -18] and not below any value.  The lower
    bound is not above the upper bound when some value is non-zero, and
    is above it when every value is zero. *)
Theorem plot_single_color_range_bounds (data_list : list tile) :
  Forall bright_tile data_list →
  ∃ lo hi, plot_single_color_range data_list = Ok (Num lo, Num hi)
    ∧ (0 < lo)%Qc ∧ (lo ≤ 1)%Qc ∧ leb tiny (Num hi) = true
    ∧ (∀ t, t ∈ data_list → ∀ q, Num q ∈ flat (values t) →
        (q ≤ hi)%Qc ∧ (q ≠ 0%Qc → (lo ≤ q)%Qc))
    ∧ ((∃ t q, t ∈ data_list ∧ Num q ∈ flat (values t) ∧ q ≠ 0%Qc) → (lo ≤ hi)%Qc)
    ∧ ((∀ t q, t ∈ data_list → Num q ∈ flat (values t) → q = 0%Qc) → (hi < lo)%Qc).
Proof.
  intros Hl. unfold plot_single_color_range.
  destruct (single_color_loop_bright data_list 1 (1 / Qc_of_Z (10 ^ 18))%Qc)
    as (lo & hi & Hloop & Hlo0 & Hlo1 & Hhi & Hall); [done|done|].
  exists lo, hi. split_and!; [done..| |done| |].
  - by apply leb_num.
  - intros (t & q0 & Ht & Hq & Hne). destruct (Hall t Ht q0 Hq) as [Hle Hge].
    apply Qcle_trans with q0; [by apply Hge|done].
  - intros Hzero.
    assert (single_color_loop data_list (Num 1%Qc) tiny = Ok (Num 1%Qc, tiny)) as Hdark.
    { apply single_color_loop_zeros. apply Forall_forall. intros t Ht.
      rewrite Forall_forall in Hl. destruct (Hl t Ht) as [Hne Hnn].
      split; [done|].
      apply (all_zero_values (λ v, ∃ q, v = Num q ∧ (0 ≤ q)%Qc)).
      - eapply Forall_impl; [exact Hnn|]. intros v (q0 & -> & Hq0).
        exists q0. split; [done|]. by exists q0.
      - intros q0 Hq0. by apply (Hzero t). }
    unfold tiny in Hdark at 1. rewrite Hloop in Hdark.
    injection Hdark as -> ->. by vm_compute.
Qed.

Lemma plot_single_color_range_bounds_witness :
  ∃ lo hi, plot_single_color_range tiles_plain = Ok (Num lo, Num hi)
           ∧ (0 < lo)%Qc ∧ (lo ≤ hi)%Qc.
Proof.
  destruct (plot_single_color_range_bounds tiles_plain)
    as (lo & hi & H & Hlo & _ & _ & _ & Hord & _).
  - assert (H0 : ∀ z, (0 ≤ z)%Z → ∃ x, n z = Num x ∧ (0 ≤ x)%Qc).
    { intros z Hz. exists (q z). split; [done|].
      rewrite <-Z2Qc_inj_0. by apply (proj1 (Z2Qc_inj_le 0 z)). }
    repeat constructor; try done; apply H0; lia.
  - exists lo, hi. split; [exact H|]. split; [exact Hlo|]. apply Hord.
    exists {| values := grid [[n 4]]; lat := [q 9]; lon := [q 23] |}, (q 4).
    split_and!; [by_evaluation|left|by vm_compute].
Defined.

Lemma leb_nan_r x : leb x NaN = false.
Proof. by destruct x. Qed.

Lemma foldl_minimum_nan_l l : foldl np_minimum NaN l = NaN.
Proof. induction l as [|y l IH]; [done|]. cbn [foldl]. exact IH. Qed.

Lemma foldl_maximum_nan_l l : foldl np_maximum NaN l = NaN.
Proof. induction l as [|y l IH]; [done|]. cbn [foldl]. exact IH. Qed.

Lemma foldl_minimum_nan x l : NaN ∈ x :: l → foldl np_minimum x l = NaN.
Proof.
  revert x. induction l as [|y l IH]; intros x Hin.
  - by apply list_elem_of_singleton in Hin as <-.
  - cbn [foldl]. apply elem_of_cons in Hin as [<-|Hin]; [apply foldl_minimum_nan_l|].
    apply elem_of_cons in Hin as [<-|Hin].
    + assert (np_minimum x NaN = NaN) as -> by (by destruct x).
      apply foldl_minimum_nan_l.
    + apply IH. by right.
Qed.

Lemma foldl_maximum_nan x l : NaN ∈ x :: l → foldl np_maximum x l = NaN.
Proof.
  revert x. induction l as [|y l IH]; intros x Hin.
  - by apply list_elem_of_singleton in Hin as <-.
  - cbn [foldl]. apply elem_of_cons in Hin as [<-|Hin]; [apply foldl_maximum_nan_l|].
    apply elem_of_cons in Hin as [<-|Hin].
    + assert (np_maximum x NaN = NaN) as -> by (by destruct x).
      apply foldl_maximum_nan_l.
    + apply IH. by right.
Qed.

Lemma single_color_loop_app l k a b :
  single_color_loop (l ++ k) a b
  = match single_color_loop l a b with
    | Ok (a', b') => single_color_loop k a' b'
    | Raise e => Raise e
    end.
Proof.
  revert a b. induction l as [|t l IH]; intros a b; [done|].
  rewrite <-app_comm_cons. cbn [single_color_loop].
  destruct (amin _) as [tile_min|]; [|done]. cbn [mbind result_bind].
  destruct (amax _) as [tile_max|]; [|done]. cbn [mbind result_bind].
  apply IH.
Qed.

(** X19.  A missing value in the last tile makes both colour bounds of
    [plot_single] NaN, whatever the tiles before it hold. *)
Theorem plot_single_color_range_nan (data_list : list tile) (t : tile)
    (lo hi : sample) :
  plot_single_color_range data_list = Ok (lo, hi) →
  NaN ∈ flat (values t) →
  plot_single_color_range (data_list ++ [t]) = Ok (NaN, NaN).
Proof.
  unfold plot_single_color_range. intros Hl Hnan.
  rewrite single_color_loop_app, Hl. cbn [single_color_loop].
  assert (amin (mmap zero_to_one (values t)) = Ok NaN) as ->.
  { unfold amin. rewrite flat_mmap.
    assert (NaN ∈ zero_to_one <$> flat (values t)) as Hin.
    { apply list_elem_of_fmap. by exists NaN. }
    destruct (zero_to_one <$> flat (values t)) as [|x l]; [by apply elem_of_nil in Hin|].
    by rewrite foldl_minimum_nan. }
  assert (amax (values t) = Ok NaN) as ->.
  { unfold amax. destruct (flat (values t)) as [|x l]; [by apply elem_of_nil in Hnan|].
    by rewrite foldl_maximum_nan. }
  cbn [mbind result_bind]. rewrite leb_nan_r. by destruct hi.
Qed.

Lemma plot_single_color_range_nan_witness :
  plot_single_color_range
    ([] ++ [ {| values := grid [[NaN; n 1]]; lat := [q 9]; lon := [q 21; q 22] |} ])
  = Ok (NaN, NaN).
Proof.
  apply (plot_single_color_range_nan [] _ (Num 1%Qc) tiny); [reflexivity|].
  left.
Defined.

(** X20.  On a tile set whose values are all zero the colour bounds stay
    at their initial values 1 and [10 ** -18], so the lower bound is
    above the upper bound. *)
Theorem plot_single_color_range_dark (data_list : list tile) :
  Forall (λ t, flat (values t) ≠ [] ∧ Forall (λ v, v = zero) (flat (values t)))
    data_list →
  plot_single_color_range data_list = Ok (Num 1%Qc, tiny)
  ∧ ltb tiny (Num 1%Qc) = true.
Proof.
  intros Hl. split; [|by vm_compute]. unfold plot_single_color_range.
  induction Hl as [|t l [Hne Hz] _ IH]; [done|].
  cbn [single_color_loop].
  assert (amin (mmap zero_to_one (values t)) = Ok (Num 1%Qc)) as ->.
  { unfold amin. rewrite flat_mmap.
    destruct (flat (values t)) as [|x k]; [done|].
    apply Forall_cons in Hz as [-> Hk]. rewrite fmap_cons.
    change (zero_to_one zero) with (Num 1%Qc). f_equal.
    by apply foldl_minimum_ones. }
  assert (amax (values t) = Ok zero) as ->.
  { unfold amax. destruct (flat (values t)) as [|x k]; [done|].
    apply Forall_cons in Hz as [-> Hk]. f_equal. by apply foldl_maximum_zeros. }
  cbn [mbind result_bind].
  change (leb (Num 1%Qc) (Num 1%Qc)) with true.
  change (leb zero tiny) with true. cbn iota. exact IH.
Qed.

Lemma plot_single_color_range_dark_witness :
  plot_single_color_range
    [ {| values := grid [[zero; zero]]; lat := [q 9]; lon := [q 21; q 22] |} ]
  = Ok (Num 1%Qc, tiny).
Proof.
  refine (proj1 (plot_single_color_range_dark _ _)).
  constructor; [|constructor]. split; [done|].
  change (Forall (λ v, v = zero) [zero; zero]).
  repeat (constructor; [reflexivity|]). constructor.
Defined.

End ColorRange.

(** * The catalogue and the loader *)

Section Catalogue.
Import Examples LoaderExamples.

(** X21.  Every date for which [load_data_for_date] returns a tile is in
    the catalogue of [load_available_dates]: a date outside the catalogue
    loads nothing. *)
Theorem load_data_for_date_listed (files : list h5file) (date : string)
    (coords : bounds) (t : tile) :
  t ∈ load_data_for_date files date coords →
  date ∈ load_available_dates files.
Proof.
  unfold load_data_for_date. rewrite sorted_Permutation, load_loop_spec, app_nil_l.
  intros (f & Hf & Hload)%list_elem_of_omap. unfold load_file in Hload.
  destruct (String.eqb_spec (RangeEndingDate f) date) as [<-|]; [|done].
  rewrite load_available_dates_Permutation, elem_of_elements, elem_of_list_to_set.
  apply list_elem_of_fmap. by exists f.
Qed.

Lemma load_data_for_date_listed_witness :
  date1 ∈ load_available_dates [file_far; file_east; file_west].
Proof.
  apply (load_data_for_date_listed _ date1 box
           {| values := grid [[NaN; n 0]; [n 0; n 9]];
              lat := [q 23; q 22]; lon := [q 20; q 21] |}).
  vm_compute. left.
Defined.

End Catalogue.

(** * The colour ranges of the difference plots *)

Section ColorRangeMore.
Import Sample SampleFacts Examples.
Local Open Scope Qc_scope.

Lemma track_min a b :
  ∃ c, (if leb (Num a) (Num b) then Num a else Num b) = Num c
       ∧ c ≤ a ∧ c ≤ b ∧ (c = a ∨ c = b).
Proof.
  destruct (leb (Num a) (Num b)) eqn:E.
  - apply leb_num in E. exists a. split_and!; [done|apply Qcle_refl|done|by left].
  - apply leb_num_false in E. exists b.
    split_and!; [done|by apply Qclt_le_weak|apply Qcle_refl|by right].
Qed.

Lemma track_max a b :
  ∃ c, (if leb (Num b) (Num a) then Num a else Num b) = Num c ∧ a ≤ c ∧ b ≤ c.
Proof.
  destruct (leb (Num b) (Num a)) eqn:E.
  - apply leb_num in E. exists a. split_and!; [done|apply Qcle_refl|done].
  - apply leb_num_false in E. exists b.
    split_and!; [done|by apply Qclt_le_weak|apply Qcle_refl].
Qed.

(** [np.min] of a non-empty grid of numbers is its least entry. *)
Lemma amin_num m :
  flat m ≠ [] → Forall (λ v, is_num v = true) (flat m) →
  ∃ x, amin m = Ok (Num x) ∧ Num x ∈ flat m ∧ ∀ y, Num y ∈ flat m → x ≤ y.
Proof.
  intros Hne Hnum. unfold amin. destruct (flat m) as [|v l]; [done|].
  apply Forall_cons in Hnum as [Hv Hl]. destruct v as [| |x0]; try done.
  destruct (foldl_minimum_num x0 l Hl) as (x & Hx & Hle & Hall & Hin).
  exists x. split_and!; [by rewrite Hx| |].
  - destruct Hin as [->|Hin]; [by left|by right].
  - intros y [[= <-]|Hy]%elem_of_cons; [done|by apply Hall].
Qed.

(** [np.max] of a non-empty grid of numbers is above every entry. *)
Lemma amax_num m :
  flat m ≠ [] → Forall (λ v, is_num v = true) (flat m) →
  ∃ x, amax m = Ok (Num x) ∧ ∀ y, Num y ∈ flat m → y ≤ x.
Proof.
  intros Hne Hnum. unfold amax. destruct (flat m) as [|v l]; [done|].
  apply Forall_cons in Hnum as [Hv Hl]. destruct v as [| |x0]; try done.
  destruct (foldl_maximum_num x0 l Hl) as (x & Hx & Hle & Hall).
  exists x. split; [by rewrite Hx|].
  intros y [[= <-]|Hy]%elem_of_cons; [done|by apply Hall].
Qed.

(** [np.min] of a grid of numbers after an entrywise replacement that
    yields positive numbers. *)
Lemma amin_mmap_pos f m :
  flat m ≠ [] → Forall (λ v, is_num v = true) (flat m) →
  (∀ q, ∃ p, f (Num q) = Num p ∧ 0 < p) →
  ∃ x, amin (mmap f m) = Ok (Num x) ∧ 0 < x
       ∧ ∀ q p, Num q ∈ flat m → f (Num q) = Num p → x ≤ p.
Proof.
  intros Hne Hnum Hf.
  destruct (amin_num (mmap f m)) as (x & Hx & Hin & Hall).
  - rewrite flat_mmap. by destruct (flat m).
  - rewrite flat_mmap. apply Forall_fmap. eapply Forall_impl; [exact Hnum|].
    intros [| |q] Hq; try done. cbn. by destruct (Hf q) as (p & -> & _).
  - exists x. split_and!; [done| |].
    + rewrite flat_mmap in Hin. apply list_elem_of_fmap in Hin as (v & Hv & Hvin).
      rewrite Forall_forall in Hnum. specialize (Hnum v Hvin).
      destruct v as [| |q]; try done. destruct (Hf q) as (p & Hp & Hpos).
      rewrite Hp in Hv. by injection Hv as ->.
    + intros q p Hq Hp. apply Hall. rewrite flat_mmap, <-Hp.
      apply list_elem_of_fmap. by exists (Num q).
Qed.

Lemma Qc_lt_irrefl q : ¬ q < q.
Proof. by intros ?%Qclt_not_eq. Qed.

Lemma Qcopp_pos q : q < 0 → 0 < - q.
Proof.
  intros H. by rewrite (Qclt_minus_iff q 0), Qcplus_0_l in H.
Qed.

Lemma abs_zero_to_one_num q :
  ∃ p, abs_zero_to_one (Num q) = Num p ∧ 0 < p
       ∧ (0 < q → p = q) ∧ (q < 0 → p = - q).
Proof.
  unfold abs_zero_to_one. cbn [eqb zero np_abs].
  destruct (Qc_eqb q 0) eqn:E.
  - apply Qc_eqb_eq in E as ->. exists 1. split_and!; [done|done| |].
    + by intros ?%Qc_lt_irrefl.
    + by intros ?%Qc_lt_irrefl.
  - apply Qc_eqb_neq in E. destruct (Qc_ltb q 0) eqn:E'.
    + apply Qc_ltb_lt in E'. exists (- q). split_and!; [done|by apply Qcopp_pos| |done].
      intros Hq. destruct (Qc_lt_irrefl 0). by apply Qclt_trans with q.
    + apply Qc_ltb_ge in E'. exists q. split_and!; [done| |done|].
      * destruct (zero_pos_cases q E') as [->|]; done.
      * intros Hq. destruct (Qc_lt_irrefl 0). by apply Qcle_lt_trans with q.
Qed.

Lemma new_light_or_one_num q :
  ∃ p, new_light_or_one (Num q) = Num p ∧ 0 < p ∧ (q < 0 → p = - q).
Proof.
  unfold new_light_or_one. cbn [opp]. destruct (leb (Num (- q)) zero) eqn:E.
  - apply leb_zero_r in E. exists 1. split_and!; [done|done|].
    intros Hq%Qcopp_pos. destruct (Qc_lt_irrefl 0). by apply Qclt_le_trans with (- q).
  - apply leb_zero_r_false in E. by exists (- q).
Qed.

Lemma ratio_or_one_num q :
  ∃ p, ratio_or_one (Num q) = Num p ∧ 0 < p ∧ (0 < q → p = q).
Proof.
  unfold ratio_or_one. destruct (leb (Num q) zero) eqn:E.
  - apply leb_zero_r in E. exists 1. split_and!; [done|done|].
    intros Hq. destruct (Qc_lt_irrefl 0). by apply Qclt_le_trans with q.
  - apply leb_zero_r_false in E. by exists q.
Qed.

(** What the layers of the relative plot show of a number. *)
Lemma new_light_layer_num m y :
  Num y ∈ flat (new_light_layer m) → ∃ q, Num q ∈ flat m ∧ q < 0 ∧ y = - q.
Proof.
  unfold new_light_layer. rewrite flat_mmap.
  intros (v & Hv & Hin)%list_elem_of_fmap. unfold new_light_cell in Hv.
  destruct (leb zero v) eqn:E; [done|]. destruct v as [|a|q]; cbn [opp] in Hv; try done.
  apply leb_zero_l_false in E. exists q. split_and!; [done|done|congruence].
Qed.

Lemma ratio_layer_num m y :
  Num y ∈ flat (ratio_layer m) → Num y ∈ flat m ∧ 0 < y.
Proof.
  unfold ratio_layer. rewrite flat_mmap.
  intros (v & Hv & Hin)%list_elem_of_fmap. unfold ratio_cell in Hv.
  destruct (leb v zero) eqn:E; [done|]. subst v.
  by apply leb_zero_r_false in E.
Qed.

Lemma amax_opp_num m :
  flat m ≠ [] → Forall (λ v, is_num v = true) (flat m) →
  ∃ x, amax (mmap opp m) = Ok (Num x) ∧ ∀ q, Num q ∈ flat m → - q ≤ x.
Proof.
  intros Hne Hnum. destruct (amax_num (mmap opp m)) as (x & Hx & Hall).
  - rewrite flat_mmap. by destruct (flat m).
  - rewrite flat_mmap. apply Forall_fmap. eapply Forall_impl; [exact Hnum|].
    by intros [| |q].
  - exists x. split; [done|]. intros q Hq. apply Hall. rewrite flat_mmap.
    apply list_elem_of_fmap. by exists (Num q).
Qed.

Lemma rel_color_loop_numeric l lo0 hi0 rmax0 rmin0 :
  0 < lo0 → Forall numeric_tile l →
  ∃ lo hi rmax rmin,
    rel_color_loop l (Num lo0) (Num hi0) (Num rmax0) (Num rmin0)
    = Ok (Num lo, Num hi, Num rmax, Num rmin)
    ∧ 0 < lo ∧ lo ≤ lo0 ∧ hi0 ≤ hi ∧ rmax0 ≤ rmax ∧ rmin ≤ rmin0
    ∧ ∀ t, t ∈ l →
        (∀ y, Num y ∈ flat (new_light_layer (values t)) → lo ≤ y ∧ y ≤ hi)
        ∧ (∀ y, Num y ∈ flat (ratio_layer (values t)) → rmin ≤ y ∧ y ≤ rmax).
Proof.
  intros Hlo Hl. revert lo0 hi0 rmax0 rmin0 Hlo.
  induction Hl as [|t l [Hne Hnum] _ IH]; intros lo0 hi0 rmax0 rmin0 Hlo.
  - exists lo0, hi0, rmax0, rmin0.
    split_and!; [done|done|apply Qcle_refl..|]. by intros t ?%elem_of_nil.
  - destruct (amin_mmap_pos new_light_or_one (values t) Hne Hnum)
      as (m1 & Hm1 & Hm1pos & Hm1all).
    { intros q. destruct (new_light_or_one_num q) as (p & ? & ? & _). by exists p. }
    destruct (amax_opp_num (values t) Hne Hnum) as (m2 & Hm2 & Hm2all).
    destruct (amax_num (values t) Hne Hnum) as (m3 & Hm3 & Hm3all).
    destruct (amin_mmap_pos ratio_or_one (values t) Hne Hnum)
      as (m4 & Hm4 & Hm4pos & Hm4all).
    { intros q. destruct (ratio_or_one_num q) as (p & ? & ? & _). by exists p. }
    cbn [rel_color_loop]. rewrite Hm1, Hm2, Hm3, Hm4. cbn [mbind result_bind].
    destruct (track_min lo0 m1) as (a & -> & Ha0 & Ha1 & Ha).
    destruct (track_max hi0 m2) as (b & -> & Hb0 & Hb1).
    destruct (track_max rmax0 m3) as (c & -> & Hc0 & Hc1).
    destruct (track_min rmin0 m4) as (d & -> & Hd0 & Hd1 & _).
    assert (0 < a) as Hapos by (by destruct Ha as [->| ->]).
    destruct (IH a b c d Hapos)
      as (lo & hi & rmax & rmin & Hloop & Hlo0 & Hlo1 & Hhi & Hrmax & Hrmin & Hall).
    exists lo, hi, rmax, rmin. split_and!; [done|done| | | | |].
    + by apply Qcle_trans with a.
    + by apply Qcle_trans with b.
    + by apply Qcle_trans with c.
    + by apply Qcle_trans with d.
    + intros t' [->|Ht']%elem_of_cons; [|exact (Hall t' Ht')]. split.
      * intros y (q & Hq & Hneg & ->)%new_light_layer_num. split.
        -- apply Qcle_trans with a; [done|]. apply Qcle_trans with m1; [done|].
           apply (Hm1all q); [done|].
           destruct (new_light_or_one_num q) as (p & Hp & _ & Heq).
           by rewrite Hp, (Heq Hneg).
        -- apply Qcle_trans with m2; [by apply Hm2all|]. by apply Qcle_trans with b.
      * intros y [Hy Hpos]%ratio_layer_num. split.
        -- apply Qcle_trans with d; [done|]. apply Qcle_trans with m4; [done|].
           apply (Hm4all y); [done|].
           destruct (ratio_or_one_num y) as (p & Hp & _ & Heq).
           by rewrite Hp, (Heq Hpos).
        -- apply Qcle_trans with m3; [by apply Hm3all|]. by apply Qcle_trans with c.
Qed.

(** X22.  On tiles of numbers the bounds that [plot_rel_difference] tracks
    enclose what its layers show: the lower bound given to the logarithmic
    scale of the new-light layer is positive and at most one, every value
    shown in the new-light layer lies between the two bounds of that
    scale, and every value shown in the ratio layer lies between the
    tracked ratio bounds. *)
Theorem plot_rel_difference_color_range_bounds (data_list : list tile) :
  Forall numeric_tile data_list →
  ∃ lo hi rmax rmin,
    plot_rel_difference_color_range data_list
    = Ok (Num lo, Num hi, Num rmax, Num rmin)
    ∧ 0 < lo ∧ lo ≤ 1
    ∧ ∀ t, t ∈ data_list →
        (∀ y, Num y ∈ flat (new_light_layer (values t)) → lo ≤ y ∧ y ≤ hi)
        ∧ (∀ y, Num y ∈ flat (ratio_layer (values t)) → rmin ≤ y ∧ y ≤ rmax).
Proof.
  intros Hl. unfold plot_rel_difference_color_range, tiny.
  destruct (rel_color_loop_numeric data_list 1 (1 / Qc_of_Z (10 ^ 18)) 1
              (1 / Qc_of_Z (10 ^ 18)))
    as (lo & hi & rmax & rmin & Hloop & Hlo0 & Hlo1 & _ & _ & _ & Hall); [done|done|].
  by exists lo, hi, rmax, rmin.
Qed.

Lemma plot_rel_difference_color_range_bounds_witness :
  ∃ lo hi rmax rmin,
    plot_rel_difference_color_range
      [ {| values := grid [[n (-5); n 3]; [n 0; n 1]];
           lat := [q 10; q 9]; lon := [q 21; q 22] |} ]
    = Ok (Num lo, Num hi, Num rmax, Num rmin) ∧ 0 < lo.
Proof.
  destruct (plot_rel_difference_color_range_bounds
              [ {| values := grid [[n (-5); n 3]; [n 0; n 1]];
                   lat := [q 10; q 9]; lon := [q 21; q 22] |} ])
    as (lo & hi & rmax & rmin & H & Hlo & _).
  - constructor; [|constructor]. split; [done|].
    repeat (constructor; [reflexivity|]). constructor.
  - exists lo, hi, rmax, rmin. split; [exact H|exact Hlo].
Defined.

Lemma zero_to_one_le q :
  ∃ p, zero_to_one (Num q) = Num p ∧ (q ≠ 0 → p = q).
Proof.
  rewrite zero_to_one_num. destruct (decide (q = 0)) as [->|Hne].
  - by exists 1.
  - by exists q.
Qed.

(** [np.min] of a grid of numbers after an entrywise replacement that
    yields numbers. *)
Lemma amin_mmap_num f m :
  flat m ≠ [] → Forall (λ v, is_num v = true) (flat m) →
  (∀ q, ∃ p, f (Num q) = Num p) →
  ∃ x, amin (mmap f m) = Ok (Num x)
       ∧ ∀ q p, Num q ∈ flat m → f (Num q) = Num p → x ≤ p.
Proof.
  intros Hne Hnum Hf.
  destruct (amin_num (mmap f m)) as (x & Hx & Hin & Hall).
  - rewrite flat_mmap. by destruct (flat m).
  - rewrite flat_mmap. apply Forall_fmap. eapply Forall_impl; [exact Hnum|].
    intros [| |q] Hq; try done. cbn. by destruct (Hf q) as (p & ->).
  - exists x. split; [done|].
    intros q p Hq Hp. apply Hall. rewrite flat_mmap, <-Hp.
    apply list_elem_of_fmap. by exists (Num q).
Qed.

Lemma difference_color_loop_numeric l lo0 hi0 th0 :
  0 < th0 → Forall numeric_tile l →
  ∃ lo hi th,
    difference_color_loop l (Num lo0) (Num hi0) (Num th0) = Ok (Num lo, Num hi, Num th)
    ∧ lo ≤ lo0 ∧ hi0 ≤ hi ∧ 0 < th ∧ th ≤ th0
    ∧ ∀ t, t ∈ l → ∀ q, Num q ∈ flat (values t) →
        q ≤ hi ∧ (q ≠ 0 → lo ≤ q) ∧ (0 < q → th ≤ q) ∧ (q < 0 → th ≤ - q).
Proof.
  intros Hth Hl. revert lo0 hi0 th0 Hth.
  induction Hl as [|t l [Hne Hnum] _ IH]; intros lo0 hi0 th0 Hth.
  - exists lo0, hi0, th0. split_and!; [done|apply Qcle_refl..|done|apply Qcle_refl|].
    by intros t ?%elem_of_nil.
  - destruct (amin_mmap_num zero_to_one (values t) Hne Hnum) as (m1 & Hm1 & Hm1all).
    { intros q. destruct (zero_to_one_le q) as (p & ? & _). by exists p. }
    destruct (amax_num (values t) Hne Hnum) as (m2 & Hm2 & Hm2all).
    destruct (amin_mmap_pos abs_zero_to_one (values t) Hne Hnum)
      as (m3 & Hm3 & Hm3pos & Hm3all).
    { intros q. destruct (abs_zero_to_one_num q) as (p & ? & ? & _). by exists p. }
    cbn [difference_color_loop]. rewrite Hm1, Hm2, Hm3. cbn [mbind result_bind].
    destruct (track_min lo0 m1) as (a & -> & Ha0 & Ha1 & _).
    destruct (track_max hi0 m2) as (b & -> & Hb0 & Hb1).
    destruct (track_min th0 m3) as (c & -> & Hc0 & Hc1 & Hc).
    assert (0 < c) as Hcpos by (by destruct Hc as [->| ->]).
    destruct (IH a b c Hcpos) as (lo & hi & th & Hloop & Hlo & Hhi & Hth0 & Hth1 & Hall).
    exists lo, hi, th. split_and!; [done| | |done| |].
    + by apply Qcle_trans with a.
    + by apply Qcle_trans with b.
    + by apply Qcle_trans with c.
    + intros t' [->|Ht']%elem_of_cons q Hq; [|exact (Hall t' Ht' q Hq)].
      destruct (abs_zero_to_one_num q) as (p & Hp & _ & Hpos & Hneg).
      split_and!.
      * apply Qcle_trans with m2; [by apply Hm2all|]. by apply Qcle_trans with b.
      * intros Hq0. apply Qcle_trans with a; [done|]. apply Qcle_trans with m1; [done|].
        apply (Hm1all q); [done|].
        destruct (zero_to_one_le q) as (p' & Hp' & Heq). by rewrite Hp', (Heq Hq0).
      * intros Hq0. apply Qcle_trans with c; [done|]. apply Qcle_trans with m3; [done|].
        apply (Hm3all q); [done|]. by rewrite Hp, (Hpos Hq0).
      * intros Hq0. apply Qcle_trans with c; [done|]. apply Qcle_trans with m3; [done|].
        apply (Hm3all q); [done|]. by rewrite Hp, (Hneg Hq0).
Qed.

Lemma foldl_minimum_abs_ones k :
  Forall (λ v, v = zero) k →
  foldl np_minimum (Num 1) (abs_zero_to_one <$> k) = Num 1.
Proof.
  induction 1 as [|y k -> _ IH]; [done|]. rewrite fmap_cons. cbn [foldl].
  change (np_minimum (Num 1) (abs_zero_to_one zero)) with (Num 1). exact IH.
Qed.

(** A tile of zeros leaves the tracked bounds at their initial values. *)
Lemma difference_color_loop_zeros l :
  Forall (λ t, flat (values t) ≠ [] ∧ Forall (λ v, v = zero) (flat (values t))) l →
  difference_color_loop l (Num 1) tiny (Num 1) = Ok (Num 1, tiny, Num 1).
Proof.
  induction 1 as [|t l [Hne Hz] _ IH]; [done|]. cbn [difference_color_loop].
  assert (amin (mmap zero_to_one (values t)) = Ok (Num 1)) as ->.
  { unfold amin. rewrite flat_mmap. destruct (flat (values t)) as [|x k]; [done|].
    apply Forall_cons in Hz as [-> Hk]. rewrite fmap_cons.
    change (zero_to_one zero) with (Num 1). f_equal. by apply foldl_minimum_ones. }
  assert (amax (values t) = Ok zero) as ->.
  { unfold amax. destruct (flat (values t)) as [|x k]; [done|].
    apply Forall_cons in Hz as [-> Hk]. f_equal. by apply foldl_maximum_zeros. }
  assert (amin (mmap abs_zero_to_one (values t)) = Ok (Num 1)) as ->.
  { unfold amin. rewrite flat_mmap. destruct (flat (values t)) as [|x k]; [done|].
    apply Forall_cons in Hz as [-> Hk]. rewrite fmap_cons.
    change (abs_zero_to_one zero) with (Num 1). f_equal.
    by apply foldl_minimum_abs_ones. }
  cbn [mbind result_bind].
  change (leb (Num 1) (Num 1)) with true.
  change (leb zero tiny) with true. cbn iota. exact IH.
Qed.

(** X23.  On non-empty tiles of numbers [plot_difference] computes bounds
    for the symmetric logarithmic scale with these properties: the
    linear threshold is positive, at most one, and not above the
    magnitude of any non-zero difference; the lower bound is at most one
    and not above any non-zero difference; the upper bound is at least
    [10 ** -18] and not below any difference.  The lower bound is not
    above the upper bound when some difference is non-zero, and is above
    it when every difference is zero. *)
Theorem plot_difference_color_range_bounds (data_list : list tile) :
  Forall numeric_tile data_list →
  ∃ lo hi th,
    plot_difference_color_range data_list = Ok (Num lo, Num hi, Num th)
    ∧ 0 < th ∧ th ≤ 1 ∧ lo ≤ 1 ∧ leb tiny (Num hi) = true
    ∧ (∀ t, t ∈ data_list → ∀ q, Num q ∈ flat (values t) →
        q ≤ hi ∧ (q ≠ 0 → lo ≤ q) ∧ (0 < q → th ≤ q) ∧ (q < 0 → th ≤ - q))
    ∧ ((∃ t q, t ∈ data_list ∧ Num q ∈ flat (values t) ∧ q ≠ 0) → lo ≤ hi)
    ∧ ((∀ t q, t ∈ data_list → Num q ∈ flat (values t) → q = 0) → hi < lo).
Proof.
  intros Hl. unfold plot_difference_color_range.
  destruct (difference_color_loop_numeric data_list 1 (1 / Qc_of_Z (10 ^ 18)) 1)
    as (lo & hi & th & Hloop & Hlo & Hhi & Hth0 & Hth1 & Hall); [done|done|].
  exists lo, hi, th. split_and!; [done..| |done| |].
  - by apply leb_num.
  - intros (t & q0 & Ht & Hq & Hne). destruct (Hall t Ht q0 Hq) as (Hle & Hge & _).
    apply Qcle_trans with q0; [by apply Hge|done].
  - intros Hzero.
    assert (difference_color_loop data_list (Num 1) tiny (Num 1)
            = Ok (Num 1, tiny, Num 1)) as Hdark.
    { apply difference_color_loop_zeros. apply Forall_forall. intros t Ht.
      rewrite Forall_forall in Hl. destruct (Hl t Ht) as [Hne Hnum].
      split; [done|].
      apply (all_zero_values (λ v, is_num v = true)).
      - eapply Forall_impl; [exact Hnum|]. intros [| |q0] Hq0; try done. by exists q0.
      - intros q0 Hq0. by apply (Hzero t). }
    unfold tiny in Hdark at 1. rewrite Hloop in Hdark.
    injection Hdark as -> -> _. by vm_compute.
Qed.

Lemma plot_difference_color_range_bounds_witness :
  ∃ lo hi th,
    plot_difference_color_range
      [ {| values := grid [[n (-2); n 0]; [n 3; n 1]];
           lat := [q 10; q 9]; lon := [q 21; q 22] |} ]
    = Ok (Num lo, Num hi, Num th) ∧ 0 < th ∧ lo ≤ hi.
Proof.
  destruct (plot_difference_color_range_bounds
              [ {| values := grid [[n (-2); n 0]; [n 3; n 1]];
                   lat := [q 10; q 9]; lon := [q 21; q 22] |} ])
    as (lo & hi & th & H & Hth & _ & _ & _ & _ & Hord & _).
  - constructor; [|constructor]. split; [done|].
    repeat (constructor; [reflexivity|]). constructor.
  - exists lo, hi, th. split; [exact H|]. split; [exact Hth|]. apply Hord.
    exists {| values := grid [[n (-2); n 0]; [n 3; n 1]];
              lat := [q 10; q 9]; lon := [q 21; q 22] |}, (q 3).
    split_and!; [left|by_evaluation|by vm_compute].
Defined.

End ColorRangeMore.
